(** * DreamWeaver: a shallow embedding of the audio, chat and session code

    The development follows the TypeScript sources:
    - [src/services/geminiService.ts]  (blobToBase64, analyzeDreamAudio,
      generateDreamImage, stripMarkdown, decodeBase64, decodePCM,
      generateDreamSpeech, playDreamSpeech),
    - [src/components/DreamRecorder] (visualize, the MediaRecorder handlers,
      formatTime),
    - [src/components/DreamAnalysis.tsx] (handlePlayInterpretation),
    - [src/components/DreamChat.tsx]  (handleSend),
    - [src/App.tsx]                   (handleProcessDream, handleReset).

    JavaScript strings are sequences of UTF-16 code units, typed arrays are
    views on a byte buffer, exceptions are an error monad, and the browser
    objects the code drives (AudioContext, AudioBufferSourceNode, the chat
    stream) are explicit state. *)

From Stdlib Require Import String Ascii Strings.Byte.
From Stdlib Require Import List ZArith NArith QArith Qround Qminmax Lia Bool
  PeanoNat DecimalPos DecimalN.
Import ListNotations.

Set Implicit Arguments.

(* ================================================================= *)
(** ** JavaScript values used by the sources *)

Module Js.

(** A string is its sequence of UTF-16 code units. *)
Definition jsstring := list N.

(** ASCII literals of the sources. *)
Definition js (s : string) : jsstring :=
  map N_of_ascii (list_ascii_of_string s).

(** Exceptions the modelled calls can raise. *)
Inductive exn : Type :=
| InvalidCharacterError   (* atob on malformed base64 *)
| RangeError              (* typed-array construction *)
| NotSupportedError       (* Web Audio argument out of range *)
| InvalidStateError       (* Web Audio call in the wrong state *)
| TypeError               (* e.g. calling a missing constructor *)
| Error (message : jsstring).

(** Completion of a call: a value, or a thrown exception. *)
Inductive completion (A : Type) : Type :=
| Normal (a : A)
| Throw (e : exn).
Arguments Normal {A} a.
Arguments Throw {A} e.

Definition bind {A B} (c : completion A) (k : A -> completion B)
  : completion B :=
  match c with
  | Normal a => k a
  | Throw e => Throw e
  end.

(** [try { body } catch (e) { handler }]. *)
Definition try_catch {A} (body : completion A) (handler : exn -> completion A)
  : completion A :=
  match body with
  | Normal a => Normal a
  | Throw e => handler e
  end.

(** A JavaScript number, as far as the sources need it: an exact
    rational, an infinity or NaN.  Every finite result the modelled code
    stores is a dyadic rational that binary32 and binary64 represent
    exactly (see [amplitude_binary32] below), so no rounding is lost. *)
Inductive number : Type :=
| Num (q : Q)
| Inf (negative : bool)
| NaN.

(** [a / b] for an integer [a] and an array length [b]. *)
Definition div_length (a : Z) (b : nat) : number :=
  match b with
  | O => if (a =? 0)%Z then NaN else Inf (a <? 0)%Z
  | S _ => Num (inject_Z a / inject_Z (Z.of_nat b))
  end.

(** [x * k] for a positive finite constant [k]. *)
Definition scale (x : number) (k : Q) : number :=
  match x with
  | Num q => Num (q * k)
  | other => other
  end.

(** [Math.min(k, x)] for a finite constant [k]. *)
Definition Math_min (k : Q) (x : number) : number :=
  match x with
  | Num q => Num (Qmin k q)
  | Inf false => Num k
  | Inf true => Inf true
  | NaN => NaN
  end.

(** [String.prototype.charCodeAt] inside the string. *)
Definition charCodeAt (s : jsstring) (i : nat) : N := nth i s 0%N.

(** [String.prototype.substring] on index arguments: both are clamped to
    the length, and swapped when out of order. *)
Definition substring (s : jsstring) (a b : nat) : jsstring :=
  let a' := Nat.min a (length s) in
  let b' := Nat.min b (length s) in
  firstn (Nat.max a' b' - Nat.min a' b') (skipn (Nat.min a' b') s).

(** A counted [for (let i = 0; i < n; i++)] loop over a state. *)
Definition for_loop {S} (n : nat) (body : nat -> S -> S) (s : S) : S :=
  fold_left (fun acc i => body i acc) (seq 0 n) s.

(** Write one element of a list in place (out of range: nothing, as for
    typed arrays). *)
Fixpoint set_nth {A} (l : list A) (i : nat) (v : A) : list A :=
  match l, i with
  | [], _ => []
  | _ :: t, O => v :: t
  | h :: t, S j => h :: set_nth t j v
  end.

(* --------------------------------------------------------------- *)
(** *** atob: the forgiving-base64 decode of the HTML standard *)

Definition is_ascii_whitespace (c : N) : bool :=
  ((c =? 9) || (c =? 10) || (c =? 12) || (c =? 13) || (c =? 32))%N.

Definition base64_value (c : N) : option N :=
  if ((65 <=? c) && (c <=? 90))%N then Some (c - 65)%N
  else if ((97 <=? c) && (c <=? 122))%N then Some (c - 71)%N
  else if ((48 <=? c) && (c <=? 57))%N then Some (c + 4)%N
  else if (c =? 43)%N then Some 62%N
  else if (c =? 47)%N then Some 63%N
  else None.

Definition strip_padding (d : jsstring) : jsstring :=
  if (length d mod 4 =? 0)%nat then
    match rev d with
    | 61%N :: 61%N :: r => rev r
    | 61%N :: r => rev r
    | _ => d
    end
  else d.

Fixpoint sextets (d : jsstring) : option (list N) :=
  match d with
  | [] => Some []
  | c :: d' =>
      match base64_value c, sextets d' with
      | Some v, Some vs => Some (v :: vs)
      | _, _ => None
      end
  end.

Fixpoint bytes_of_sextets (v : list N) : list N :=
  match v with
  | a :: b :: c :: d :: r =>
      let n := (a * 262144 + b * 4096 + c * 64 + d)%N in
      (n / 65536)%N :: ((n / 256) mod 256)%N :: (n mod 256)%N
        :: bytes_of_sextets r
  | [a; b; c] =>
      let n := (a * 4096 + b * 64 + c)%N in
      [(n / 1024)%N; ((n / 4) mod 256)%N]
  | [a; b] => [((a * 64 + b) / 16)%N]
  | _ => []
  end.

Definition forgiving_base64_decode (data : jsstring) : option jsstring :=
  let d := strip_padding (filter (fun c => negb (is_ascii_whitespace c)) data) in
  if (length d mod 4 =? 1)%nat then None
  else option_map bytes_of_sextets (sextets d).

(** [atob] returns a "binary string": one code unit below 256 per byte. *)
Definition atob (data : jsstring) : completion jsstring :=
  match forgiving_base64_decode data with
  | Some s => Normal s
  | None => Throw InvalidCharacterError
  end.

(* --------------------------------------------------------------- *)
(** *** Typed arrays: views on a shared byte buffer *)

Record Uint8Array : Type := mkUint8Array {
  u8_buffer : list byte;
  u8_byteOffset : nat;
  u8_byteLength : nat
}.

(** [new Uint8Array(len)]: a fresh zeroed buffer, viewed from offset 0. *)
Definition new_Uint8Array (len : nat) : Uint8Array :=
  mkUint8Array (repeat x00 len) 0 len.

Definition byte_of_N (n : N) : byte :=
  match Byte.of_N (n mod 256)%N with
  | Some b => b
  | None => x00
  end.

(** [arr[i] = v] on a Uint8Array: the value is stored modulo 256; a write
    past the view is dropped. *)
Definition u8_set (arr : Uint8Array) (i : nat) (v : N) : Uint8Array :=
  if (i <? u8_byteLength arr)%nat then
    mkUint8Array (set_nth (u8_buffer arr) (u8_byteOffset arr + i) (byte_of_N v))
                 (u8_byteOffset arr) (u8_byteLength arr)
  else arr.

(** The bytes the view shows. *)
Definition u8_bytes (arr : Uint8Array) : list byte :=
  firstn (u8_byteLength arr) (skipn (u8_byteOffset arr) (u8_buffer arr)).

Record Int16Array : Type := mkInt16Array {
  i16_buffer : list byte;
  i16_byteOffset : nat;
  i16_length : nat
}.

(** [new Int16Array(buffer, byteOffset, length)] with a length that may be
    fractional: ToIndex truncates it (here [num / den] on naturals); the
    offset must be a multiple of the element size and the view must fit
    in the buffer, else RangeError. *)
Definition new_Int16Array (buffer : list byte) (byteOffset : nat)
           (length_num length_den : nat) : completion Int16Array :=
  let newLength := (length_num / length_den)%nat in
  if negb (byteOffset mod 2 =? 0)%nat then Throw RangeError
  else if (length buffer <? byteOffset + 2 * newLength)%nat then Throw RangeError
  else Normal (mkInt16Array buffer byteOffset newLength).

(** Two's-complement reading of a 16-bit pattern. *)
Definition to_int16 (u : Z) : Z :=
  ((u + 32768) mod 65536 - 32768)%Z.

Definition byte_to_Z (b : byte) : Z := Z.of_N (Byte.to_N b).

(** [arr[i]] on an Int16Array; the host byte order is little-endian, as on
    every platform the application runs on.  [None] is [undefined]. *)
Definition i16_get (arr : Int16Array) (i : nat) : option Z :=
  if (i <? i16_length arr)%nat then
    match nth_error (i16_buffer arr) (i16_byteOffset arr + 2 * i),
          nth_error (i16_buffer arr) (i16_byteOffset arr + 2 * i + 1) with
    | Some lo, Some hi =>
        Some (to_int16 (Z.lor (byte_to_Z lo) (Z.shiftl (byte_to_Z hi) 8)))
    | _, _ => None
    end
  else None.

(** [x / 32768.0] where [x] is an element read or [undefined]. *)
Definition div_number (x : option Z) (d : Q) : number :=
  match x with
  | Some v => Num (inject_Z v / d)
  | None => NaN
  end.

End Js.

(* ================================================================= *)
(** ** Regular expressions, as far as [stripMarkdown] uses them *)

Module Regex.
Import Js.

(** The pattern language of the three literals: single characters,
    character classes, a greedy [+] on a class, and the parentheses of
    capture group 1. *)
Inductive node : Type :=
| Char (c : N)
| Class (negated : bool) (cs : list N)
| ClassPlus (negated : bool) (cs : list N)
| GroupStart
| GroupEnd.

Definition in_class (negated : bool) (cs : list N) (c : N) : bool :=
  xorb negated (existsb (N.eqb c) cs).

(** State of capture group 1 while matching. *)
Inductive capture : Type :=
| Unset
| Open (acc_rev : jsstring)
| Closed (text : jsstring).

Definition push (cap : capture) (c : N) : capture :=
  match cap with
  | Open acc => Open (c :: acc)
  | _ => cap
  end.

(** Length of the longest prefix inside a class. *)
Fixpoint run_length (p : N -> bool) (s : jsstring) : nat :=
  match s with
  | c :: s' => if p c then S (run_length p s') else O
  | [] => O
  end.

Definition result : Type := option (capture * jsstring).

(** The greedy [+]: with [k] characters of the run taken, try the
    continuation; while it fails, give one character back.  At least one
    character stays taken. *)
Fixpoint give_back (k : nat) (continue : capture -> jsstring -> result)
         (cap : capture) (s : jsstring) : result :=
  match k with
  | O => None
  | S k' =>
      match continue (fold_left push (firstn k s) cap) (skipn k s) with
      | Some r => Some r
      | None => give_back k' continue cap s
      end
  end.

(** Backtracking match of a pattern at the head of [s]: the capture and
    the unread rest. *)
Fixpoint match_here (re : list node) (cap : capture) (s : jsstring) : result :=
  match re with
  | [] => Some (cap, s)
  | Char c :: re' =>
      match s with
      | x :: s' => if (x =? c)%N then match_here re' (push cap x) s' else None
      | [] => None
      end
  | Class negated cs :: re' =>
      match s with
      | x :: s' =>
          if in_class negated cs x then match_here re' (push cap x) s' else None
      | [] => None
      end
  | ClassPlus negated cs :: re' =>
      give_back (run_length (in_class negated cs) s) (match_here re') cap s
  | GroupStart :: re' => match_here re' (Open []) s
  | GroupEnd :: re' =>
      match cap with
      | Open acc => match_here re' (Closed (rev acc)) s
      | _ => match_here re' cap s
      end
  end.

(** Replacement templates: literal text and [$1]. *)
Inductive piece : Type :=
| Lit (text : jsstring)
| Group1.

Definition expand (tmpl : list piece) (cap : capture) : jsstring :=
  flat_map (fun p => match p with
                     | Lit t => t
                     | Group1 => match cap with Closed t => t | _ => [] end
                     end) tmpl.

(** [s.replace(/re/g, tmpl)]: matches are searched left to right, each
    search resuming where the previous match ended (one unit further after
    an empty match).  [skip] counts the units of the current match that
    are still to be passed over. *)
Fixpoint replace_from (re : list node) (tmpl : list piece) (skip : nat)
         (s : jsstring) : jsstring :=
  match s with
  | [] =>
      match skip, match_here re Unset [] with
      | O, Some (cap, _) => expand tmpl cap
      | _, _ => []
      end
  | c :: s' =>
      match skip with
      | S k => replace_from re tmpl k s'
      | O =>
          match match_here re Unset s with
          | Some (cap, rest) =>
              match (length s - length rest)%nat with
              | O => expand tmpl cap ++ c :: replace_from re tmpl 0 s'
              | S k => expand tmpl cap ++ replace_from re tmpl k s'
              end
          | None => c :: replace_from re tmpl 0 s'
          end
      end
  end.

Definition replace_all (re : list node) (tmpl : list piece) (s : jsstring)
  : jsstring :=
  replace_from re tmpl 0 s.

End Regex.

(* ================================================================= *)
(** ** The Web Audio objects that playback drives *)

Module WebAudio.
Import Js.

Inductive context_state : Type := Running | ContextClosed.

Record AudioBuffer : Type := mkAudioBuffer {
  ab_sampleRate : N;
  ab_length : nat;
  ab_channels : list (list number)
}.

(** [ctx.createBuffer(numberOfChannels, length, sampleRate)]: a silent
    buffer.  The Web Audio API (BaseAudioContext.createBuffer) requires a
    NotSupportedError "if any of the arguments is negative, zero, or
    outside its nominal range"; negative values do not arise here, and the
    implementation-defined upper limits are not reached by the
    application, which asks for one channel at 24000 Hz. *)
Definition createBuffer (numberOfChannels len : nat) (sampleRate : N)
  : completion AudioBuffer :=
  if ((numberOfChannels =? 0)%nat || (len =? 0)%nat || (sampleRate =? 0)%N)
  then Throw NotSupportedError
  else Normal (mkAudioBuffer sampleRate len
                 (repeat (repeat (Num 0) len) numberOfChannels)).

(** [buffer.getChannelData(channel)[i] = v]: the channel data is a live
    Float32Array view, so the write lands in the buffer. *)
Definition set_sample (b : AudioBuffer) (channel i : nat) (v : number)
  : AudioBuffer :=
  match nth_error (ab_channels b) channel with
  | Some data =>
      mkAudioBuffer (ab_sampleRate b) (ab_length b)
        (set_nth (ab_channels b) channel (set_nth data i v))
  | None => b
  end.

Definition getChannelData (b : AudioBuffer) (channel : nat) : list number :=
  nth channel (ab_channels b) [].

Inductive source_state : Type :=
| NoSource         (* createBufferSource not reached *)
| Created          (* node exists, not started *)
| Playing
| Finished.        (* stopped, or played to its end *)

(** Everything one [playDreamSpeech] call can touch. *)
Record Playback : Type := mkPlayback {
  ctx_state : option context_state;   (* None: no context was constructed *)
  ctx_releases : nat;                 (* running -> closed transitions *)
  ctx_close_rejected : nat;           (* close() on a closed context *)
  source : source_state;
  source_buffer : option AudioBuffer;
  source_connected : bool;
  onended_set : bool;
  onEnded_calls : nat;
  console_errors : nat
}.

Definition no_playback : Playback :=
  mkPlayback None 0 0 NoSource None false false 0 0.

(** What the browser may refuse.  [None] means the call succeeds. *)
Record Platform : Type := mkPlatform {
  new_AudioContext_throws : option exn;
  createBufferSource_throws : option exn;
  connect_throws : option exn;
  start_throws : option exn;
  (* whether stop() on a node that already finished raises (older
     engines) or is accepted (current standard) *)
  stop_again_throws : bool
}.

Definition healthy : Platform := mkPlatform None None None None false.

(** [ctx.close()]: releases a running context; on a closed one the
    returned promise is rejected and nothing else happens.  Nothing is
    thrown synchronously in either case. *)
Definition ctx_close (w : Playback) : Playback :=
  match ctx_state w with
  | Some Running =>
      mkPlayback (Some ContextClosed) (S (ctx_releases w)) (ctx_close_rejected w)
        (source w) (source_buffer w) (source_connected w) (onended_set w)
        (onEnded_calls w) (console_errors w)
  | _ =>
      mkPlayback (ctx_state w) (ctx_releases w) (S (ctx_close_rejected w))
        (source w) (source_buffer w) (source_connected w) (onended_set w)
        (onEnded_calls w) (console_errors w)
  end.

Definition call_onEnded (w : Playback) : Playback :=
  mkPlayback (ctx_state w) (ctx_releases w) (ctx_close_rejected w)
    (source w) (source_buffer w) (source_connected w) (onended_set w)
    (S (onEnded_calls w)) (console_errors w).

Definition console_error (w : Playback) : Playback :=
  mkPlayback (ctx_state w) (ctx_releases w) (ctx_close_rejected w)
    (source w) (source_buffer w) (source_connected w) (onended_set w)
    (onEnded_calls w) (S (console_errors w)).

Definition with_source (w : Playback) (s : source_state)
           (buf : option AudioBuffer) (connected handler : bool) : Playback :=
  mkPlayback (ctx_state w) (ctx_releases w) (ctx_close_rejected w)
    s buf connected handler (onEnded_calls w) (console_errors w).

(** [source.stop()]: InvalidStateError before start; on a node that has
    already finished, accepted or refused as the platform decides. *)
Definition source_stop (pf : Platform) (w : Playback) : completion Playback :=
  match source w with
  | Playing =>
      Normal (with_source w Finished (source_buffer w) (source_connected w)
                (onended_set w))
  | Finished =>
      if stop_again_throws pf then Throw InvalidStateError else Normal w
  | _ => Throw InvalidStateError
  end.

End WebAudio.

(* ================================================================= *)
(** ** services/geminiService.ts *)

Module GeminiService.
Import Js Regex WebAudio.

Notation "'let*' x ':=' c 'in' k" := (bind c (fun x => k))
  (at level 61, x name, c at next level, right associativity).

(* --------------------------------------------------------------- *)
(** *** Text-to-speech helpers *)

(** [/[#*`_~]/g] *)
Definition formatting_chars : list N := js "#*`_~".
Definition re_formatting : list node := [Class false formatting_chars].

(** [/\[([^\]]+)\]\([^)]+\)/g] *)
Definition re_link : list node :=
  [Char 91; GroupStart; ClassPlus true (js "]"); GroupEnd; Char 93;
   Char 40; ClassPlus true (js ")"); Char 41]%N.

(** [/\n+/g] *)
Definition re_newlines : list node := [ClassPlus false [10%N]].

(** The ideographic full stop of the third replacement. *)
Definition pause : N := 12290%N.

Definition stripMarkdown (text : jsstring) : jsstring :=
  replace_all re_newlines [Lit [pause]]
    (replace_all re_link [Group1]
       (replace_all re_formatting [Lit []] text)).

Definition decodeBase64 (base64 : jsstring) : completion Uint8Array :=
  let* binaryString := atob base64 in
  let len := length binaryString in
  let bytes := new_Uint8Array len in
  Normal (for_loop len
            (fun i bytes => u8_set bytes i (charCodeAt binaryString i))
            bytes).

(** The AudioContext handle [decodePCM] receives; [createBuffer] does not
    depend on its state. *)
Record AudioContext : Type := mkAudioContext { ctx_sampleRate : N }.

Definition decodePCM (data : Uint8Array) (ctx : AudioContext)
           (sampleRate : N) (numChannels : nat) : completion AudioBuffer :=
  let* dataInt16 :=
    new_Int16Array (u8_buffer data) (u8_byteOffset data) (u8_byteLength data) 2 in
  (* a fractional quotient is cut to its integer part by createBuffer, and
     the writes of the extra iteration fall outside the channel data *)
  let frameCount := (i16_length dataInt16 / numChannels)%nat in
  let* buffer := createBuffer numChannels frameCount sampleRate in
  Normal
    (for_loop numChannels
       (fun channel buffer =>
          for_loop frameCount
            (fun i buffer =>
               set_sample buffer channel i
                 (div_number (i16_get dataInt16 (i * numChannels + channel))
                             32768))
            buffer)
       buffer).

(** Default arguments of [decodePCM]. *)
Definition default_sampleRate : N := 24000.
Definition default_numChannels : nat := 1.

(** [generateDreamSpeech]; [tts] is the speech-synthesis collaborator: it
    receives the text part of the request, [safeText], and answers with
    the inline audio data of the first candidate ([None] when any link of
    the optional chain is missing), or rejects. *)
Definition safeText (text : jsstring) : jsstring :=
  let cleanText := stripMarkdown text in
  substring cleanText 0 3000.

(** [if (!base64Audio) throw ...; return base64Audio;] *)
Definition audio_or_error (base64Audio : option jsstring)
  : completion jsstring :=
  match base64Audio with
  | Some (c :: r) => Normal (c :: r)
  | _ => Throw (Error (js "No audio generated."))
  end.

Definition generateDreamSpeech (tts : jsstring -> completion (option jsstring))
           (text : jsstring) : completion jsstring :=
  let* base64Audio := tts (safeText text) in
  audio_or_error base64Audio.

(* --------------------------------------------------------------- *)
(** *** Playback *)

(** State-and-exception monad over the playback objects. *)
Definition M (A : Type) : Type := Playback -> Playback * completion A.

Definition ret {A} (a : A) : M A := fun w => (w, Normal a).

Definition mbind {A B} (m : M A) (k : A -> M B) : M B :=
  fun w => match m w with
           | (w', Normal a) => k a w'
           | (w', Throw e) => (w', Throw e)
           end.

Definition lift {A} (c : completion A) : M A := fun w => (w, c).

Definition guard (failure : option exn) : M unit :=
  fun w => match failure with
           | Some e => (w, Throw e)
           | None => (w, Normal tt)
           end.

Definition modify (f : Playback -> Playback) : M unit :=
  fun w => (f w, Normal tt).

Notation "x <- m ;; k" := (mbind m (fun x => k))
  (at level 62, m at next level, right associativity).
Notation "m ;;; k" := (mbind m (fun _ => k))
  (at level 62, right associativity).

(** The two closures [playDreamSpeech] can return. *)
Inductive StopFn : Type :=
| StopPlayback    (* () => { try { source.stop(); ctx.close(); } catch (e) {} } *)
| StopNothing.    (* () => {} *)

(** Calling a returned stop function. *)
Definition call_stop (pf : Platform) (f : StopFn) (w : Playback)
  : completion Playback :=
  match f with
  | StopPlayback =>
      try_catch
        (let* w1 := source_stop pf w in Normal (ctx_close w1))
        (fun _ => Normal w)
  | StopNothing => Normal w
  end.

(** The [source.onended] handler installed by [playDreamSpeech]. *)
Definition onended_handler (w : Playback) : Playback :=
  ctx_close (call_onEnded w).

(** The browser dispatching "ended" on the source node. *)
Definition fire_ended (w : Playback) : Playback :=
  let w1 := with_source w Finished (source_buffer w) (source_connected w)
              (onended_set w) in
  if onended_set w then onended_handler w1 else w1.

(** The body of the [try] block. *)
Definition play_body (pf : Platform) (ctx : AudioContext)
           (base64Audio : jsstring) : M StopFn :=
  pcmData <- lift (decodeBase64 base64Audio) ;;
  buffer <- lift (decodePCM pcmData ctx default_sampleRate default_numChannels) ;;
  guard (createBufferSource_throws pf) ;;;
  modify (fun w => with_source w Created None false false) ;;;
  modify (fun w => with_source w Created (Some buffer) false false) ;;;
  guard (connect_throws pf) ;;;
  modify (fun w => with_source w Created (Some buffer) true false) ;;;
  modify (fun w => with_source w Created (Some buffer) true true) ;;;
  guard (start_throws pf) ;;;
  modify (fun w => with_source w Playing (Some buffer) true true) ;;;
  ret StopPlayback.

(** [playDreamSpeech(base64Audio, onEnded)].  The context is constructed
    before the [try]; a failure there leaves the function by exception. *)
Definition playDreamSpeech (pf : Platform) (base64Audio : jsstring)
  : Playback * completion StopFn :=
  match new_AudioContext_throws pf with
  | Some e => (no_playback, Throw e)
  | None =>
      let ctx := mkAudioContext 24000 in
      let w0 := mkPlayback (Some Running) 0 0 NoSource None false false 0 0 in
      match play_body pf ctx base64Audio w0 with
      | (w, Normal stop) => (w, Normal stop)
      | (w, Throw e) =>
          (ctx_close (call_onEnded (console_error w)), Normal StopNothing)
      end
  end.

(** What can happen to a playback after [playDreamSpeech] returned. *)
Inductive event : Type :=
| Ended                 (* the source node reports its end *)
| Stop (f : StopFn).    (* the caller invokes the stop function *)

Definition step (pf : Platform) (w : Playback) (e : event) : Playback :=
  match e with
  | Ended => fire_ended w
  | Stop f => match call_stop pf f w with
              | Normal w' => w'
              | Throw _ => w
              end
  end.

Definition run (pf : Platform) (es : list event) (w : Playback) : Playback :=
  fold_left (step pf) es w.

End GeminiService.

(* ================================================================= *)
(** ** components/DreamRecorder *)

Module DreamRecorder.
Import Js.

(** A Blob: its bytes and its MIME type. *)
Record Blob : Type := mkBlob {
  blob_bytes : list byte;
  blob_type : jsstring
}.

Definition blob_size (b : Blob) : nat := length (blob_bytes b).

(** [new Blob(parts, { type })]: the parts' bytes, in order. *)
Definition new_Blob (parts : list Blob) (type : jsstring) : Blob :=
  mkBlob (concat (map blob_bytes parts)) type.

Record AnalyserNode : Type := mkAnalyser { fftSize : nat }.

Definition frequencyBinCount (a : AnalyserNode) : nat := (fftSize a / 2)%nat.

Record Recorder : Type := mkRecorder {
  isRecording : bool;
  audioBlob : option Blob;
  recordingTime : nat;
  volume : number;
  chunksRef : list Blob;
  analyserRef : option AnalyserNode;
  animationFrame : bool;      (* a frame callback is pending *)
  timer : bool;               (* the one-second interval is armed *)
  microphone : bool;          (* the input tracks are live *)
  alerts : nat
}.

Definition initial : Recorder :=
  mkRecorder false None 0 (Num 0) [] None false false false 0.

(** [analyser.getByteFrequencyData(dataArray)] on a fresh
    [Uint8Array(frequencyBinCount)]: one magnitude per bin, as the
    platform's current [spectrum] has them. *)
Definition getByteFrequencyData (a : AnalyserNode) (spectrum : nat -> byte)
  : list byte :=
  map spectrum (seq 0 (frequencyBinCount a)).

(** The value [visualize] hands to [setVolume]. *)
Definition loudness (dataArray : list byte) : number :=
  let sum := fold_left (fun a b => (a + byte_to_Z b)%Z) dataArray 0%Z in
  let avg := div_length sum (length dataArray) in
  Math_min 100 (scale avg 2.5).

(** One run of [visualize]. *)
Definition visualize (spectrum : nat -> byte) (st : Recorder) : Recorder :=
  match analyserRef st with
  | None => st
  | Some a =>
      let dataArray := getByteFrequencyData a spectrum in
      mkRecorder (isRecording st) (audioBlob st) (recordingTime st)
        (loudness dataArray) (chunksRef st) (analyserRef st)
        true (timer st) (microphone st) (alerts st)
  end.

(** [startRecording]: [granted] tells whether getUserMedia resolved;
    [spectrum] is what the analyser shows to the first [visualize]. *)
Definition startRecording (granted : bool) (spectrum : nat -> byte)
           (st : Recorder) : Recorder :=
  if granted then
    let st1 := mkRecorder (isRecording st) (audioBlob st) (recordingTime st)
                 (volume st) (chunksRef st) (Some (mkAnalyser 64))
                 (animationFrame st) (timer st) true (alerts st) in
    let st2 := visualize spectrum st1 in
    mkRecorder true (audioBlob st2) 0 (volume st2) [] (analyserRef st2)
      (animationFrame st2) true (microphone st2) (alerts st2)
  else
    mkRecorder (isRecording st) (audioBlob st) (recordingTime st)
      (volume st) (chunksRef st) (analyserRef st)
      (animationFrame st) (timer st) (microphone st) (S (alerts st)).

(** [mediaRecorder.ondataavailable]. *)
Definition ondataavailable (st : Recorder) (data : Blob) : Recorder :=
  if (0 <? blob_size data)%nat then
    mkRecorder (isRecording st) (audioBlob st) (recordingTime st)
      (volume st) (chunksRef st ++ [data]) (analyserRef st)
      (animationFrame st) (timer st) (microphone st) (alerts st)
  else st.

(** [mediaRecorder.onstop]. *)
Definition onstop (st : Recorder) : Recorder :=
  mkRecorder (isRecording st)
    (Some (new_Blob (chunksRef st) (js "audio/webm")))
    (recordingTime st) (Num 0) (chunksRef st) (analyserRef st)
    false (timer st) false (alerts st).

(** [stopRecording]: asks the MediaRecorder to stop and clears the timer.
    The recorder then delivers what it still holds ("dataavailable") and
    reports "stop", which runs [onstop]. *)
Definition stopRecording (st : Recorder) : Recorder :=
  if isRecording st then
    mkRecorder false (audioBlob st) (recordingTime st) (volume st)
      (chunksRef st) (analyserRef st) (animationFrame st) false
      (microphone st) (alerts st)
  else st.

(** One capture session: start, the fragments the encoder delivers while
    recording, the stop click, the fragments it delivers on stopping, and
    the "stop" event. *)
Definition capture (spectrum : nat -> byte) (recording stopping : list Blob)
           (st : Recorder) : Recorder :=
  onstop
    (fold_left ondataavailable stopping
       (stopRecording
          (fold_left ondataavailable recording
             (startRecording true spectrum st)))).

(** [handleReRecord]. *)
Definition handleReRecord (st : Recorder) : Recorder :=
  mkRecorder (isRecording st) None 0 (volume st) (chunksRef st)
    (analyserRef st) (animationFrame st) (timer st) (microphone st)
    (alerts st).

(** The interval callback: [setRecordingTime(prev => prev + 1)]. *)
Definition tick (st : Recorder) : Recorder :=
  mkRecorder (isRecording st) (audioBlob st) (S (recordingTime st))
    (volume st) (chunksRef st) (analyserRef st) (animationFrame st)
    (timer st) (microphone st) (alerts st).

(** What can happen to the recorder: the user's clicks and the browser's
    callbacks. *)
Inductive action : Type :=
| StartRecording (granted : bool) (spectrum : nat -> byte)
| Frame (spectrum : nat -> byte)      (* requestAnimationFrame fires *)
| DataAvailable (data : Blob)
| StopRecording
| Stopped                             (* the MediaRecorder reports "stop" *)
| Tick
| ReRecord.

Definition step (st : Recorder) (a : action) : Recorder :=
  match a with
  | StartRecording granted spectrum => startRecording granted spectrum st
  | Frame spectrum => visualize spectrum st
  | DataAvailable data => ondataavailable st data
  | StopRecording => stopRecording st
  | Stopped => onstop st
  | Tick => tick st
  | ReRecord => handleReRecord st
  end.

(** The recorder after a history of actions, from the mounted component. *)
Definition after (history : list action) : Recorder :=
  fold_left step history initial.

End DreamRecorder.

(* ================================================================= *)
(** ** components/DreamChat.tsx *)

Module DreamChat.
Import Js.

Inductive role : Type := user | model.

Record ChatMessage : Type := mkMessage {
  msg_role : role;
  msg_text : jsstring
}.

Record Chat : Type := mkChat {
  messages : list ChatMessage;
  input : jsstring;
  isLoading : bool;
  chatSession : bool;        (* chatSessionRef.current is set *)
  console_errors : nat
}.

(** The greeting seeded by the effect that opens the session:
    我已经分析了您的梦境。您想了解关于其中符号或主题的更多信息吗？ *)
Definition greeting : jsstring :=
  [25105; 24050; 32463; 20998; 26512; 20102; 24744; 30340; 26790; 22659;
   12290; 24744; 24819; 20102; 35299; 20851; 20110; 20854; 20013; 31526;
   21495; 25110; 20027; 39064; 30340; 26356; 22810; 20449; 24687; 21527;
   65311]%N.

(** The fallback of the catch block: 抱歉，我在解读时遇到问题，请重试。 *)
Definition apology : jsstring :=
  [25265; 27465; 65292; 25105; 22312; 35299; 35835; 26102; 36935; 21040;
   38382; 39064; 65292; 35831; 37325; 35797; 12290]%N.

Definition open_session (st : Chat) : Chat :=
  mkChat [mkMessage model greeting] (input st) (isLoading st) true
    (console_errors st).

(** White space and line terminators, as [String.prototype.trim] sees
    them. *)
Definition is_js_whitespace (c : N) : bool :=
  ((9 <=? c) && (c <=? 13) || (c =? 32) || (c =? 160) || (c =? 5760)
   || (8192 <=? c) && (c <=? 8202) || (c =? 8232) || (c =? 8233)
   || (c =? 8239) || (c =? 8287) || (c =? 12288) || (c =? 65279))%N.

Fixpoint trim_start (s : jsstring) : jsstring :=
  match s with
  | c :: s' => if is_js_whitespace c then trim_start s' else s
  | [] => []
  end.

Definition trim (s : jsstring) : jsstring :=
  rev (trim_start (rev (trim_start s))).

(** What the stream yields on each [next()]: a chunk, whose [text] may be
    undefined, or a failure of the transport.  The list is what the
    iterator would produce if it were asked again and again; [for await]
    stops asking at the first failure. *)
Inductive stream_event : Type :=
| Chunk (text : option jsstring)
| StreamError.

(** What [await sendMessageStream(...)] does. *)
Inductive send_result : Type :=
| Rejected
| Resolved (stream : list stream_event).

(** [newHistory[newHistory.length - 1].text = fullResponse]; the array is
    never empty here, the placeholder precedes every call. *)
Definition set_last_text (history : list ChatMessage) (t : jsstring)
  : list ChatMessage :=
  match rev history with
  | last :: before => rev (mkMessage (msg_role last) t :: before)
  | [] => []
  end.

Definition text_or_empty (t : option jsstring) : jsstring :=
  match t with
  | Some (c :: r) => c :: r
  | _ => []
  end.

(** The [for await] loop: the transcript after it, how many increments
    were delivered, and whether it was left by exception. *)
Fixpoint consume (stream : list stream_event) (fullResponse : jsstring)
         (history : list ChatMessage) (delivered : nat)
  : list ChatMessage * nat * bool :=
  match stream with
  | [] => (history, delivered, false)
  | StreamError :: _ => (history, delivered, true)
  | Chunk t :: rest =>
      let fullResponse' := fullResponse ++ text_or_empty t in
      consume rest fullResponse' (set_last_text history fullResponse')
              (S delivered)
  end.

(** [handleSend], with the number of increments it delivered. *)
Definition handleSend (transport : send_result) (st : Chat) : Chat * nat :=
  match trim (input st), chatSession st with
  | [], _ | _, false => (st, 0%nat)
  | userMsg, true =>
      let history := messages st ++ [mkMessage user userMsg] in
      match transport with
      | Rejected =>
          (mkChat (history ++ [mkMessage model apology]) [] false true
             (S (console_errors st)), 0%nat)
      | Resolved stream =>
          let placeholder := history ++ [mkMessage model []] in
          match consume stream [] placeholder 0 with
          | (history', delivered, false) =>
              (mkChat history' [] false true (console_errors st), delivered)
          | (history', delivered, true) =>
              (mkChat (history' ++ [mkMessage model apology]) [] false true
                 (S (console_errors st)), delivered)
          end
      end
  end.

End DreamChat.

(* ================================================================= *)
(** ** App.tsx *)

Module App.
Import Js.

Inductive ImageSize : Type := Size1K | Size2K | Size4K.

Record DreamAnalysisResult : Type := mkAnalysis {
  a_transcript : jsstring;
  a_interpretation : jsstring;
  a_imagePrompt : jsstring
}.

Record DreamData : Type := mkDreamData {
  transcript : jsstring;
  interpretation : jsstring;
  imageUrl : jsstring;
  imagePrompt : jsstring;
  timestamp : N
}.

(** A rejection reason: the object caught as [err], with its [message]
    property ([None] when it has none). *)
Record thrown : Type := mkThrown { message : option jsstring }.

(** Outcome of an awaited remote call. *)
Inductive outcome (A : Type) : Type :=
| Resolves (a : A)
| Rejects (err : thrown).
Arguments Resolves {A} a.
Arguments Rejects {A} err.

Record State : Type := mkState {
  isProcessing : bool;
  error : option jsstring;
  dreamData : option DreamData;
  loadingStep : jsstring
}.

Definition initial : State := mkState false None None [].

(** 正在转录和分析梦境... *)
Definition step_analysing : jsstring :=
  [27491; 22312; 36716; 24405; 21644; 20998; 26512; 26790; 22659; 46; 46;
   46]%N.

(** 正在生成超现实主义视觉效果... *)
Definition step_imaging : jsstring :=
  [27491; 22312; 29983; 25104; 36229; 29616; 23454; 20027; 20041; 35270;
   35273; 25928; 26524; 46; 46; 46]%N.

(** 处理您的梦境时发生错误。 *)
Definition fallback_message : jsstring :=
  [22788; 29702; 24744; 30340; 26790; 22659; 26102; 21457; 29983; 38169;
   35823; 12290]%N.

(** [err.message || fallback]. *)
Definition message_or_fallback (err : thrown) : jsstring :=
  match message err with
  | Some (c :: r) => c :: r
  | _ => fallback_message
  end.

(** The catch and finally blocks, from the state [st] the failure left. *)
Definition failed (st : State) (err : thrown) : list State :=
  let st1 := mkState (isProcessing st) (Some (message_or_fallback err))
               (dreamData st) (loadingStep st) in
  [st1; mkState false (error st1) (dreamData st1) []].

(** [handleProcessDream]: the successive states it sets, the last one
    being the state it leaves.  The two remote calls and the clock are
    the environment. *)
Definition handleProcessDream {Audio : Type}
           (analyzeDreamAudio : Audio -> outcome DreamAnalysisResult)
           (generateDreamImage : jsstring -> ImageSize -> outcome jsstring)
           (now : N) (audioBlob : Audio) (imageSize : ImageSize)
           (st : State) : list State :=
  let st1 := mkState true None (dreamData st) step_analysing in
  st1 ::
  match analyzeDreamAudio audioBlob with
  | Rejects err => failed st1 err
  | Resolves analysis =>
      let st2 := mkState true None (dreamData st) step_imaging in
      st2 ::
      match generateDreamImage (a_imagePrompt analysis) imageSize with
      | Rejects err => failed st2 err
      | Resolves url =>
          let st3 := mkState true None
                       (Some (mkDreamData (a_transcript analysis)
                                (a_interpretation analysis) url
                                (a_imagePrompt analysis) now))
                       step_imaging in
          [st3; mkState false None (dreamData st3) []]
      end
  end.

(** The state a cycle leaves. *)
Definition final (st : State) (trace : list State) : State :=
  last trace st.

Definition handleReset (st : State) : State :=
  mkState (isProcessing st) None None (loadingStep st).

End App.

(* ================================================================= *)
(** ** The behaviour the specification describes, in its own words *)

Module Described.
Import Js WebAudio GeminiService.

(** The signed integer a 2-byte little-endian group denotes. *)
Definition int16_le (lo hi : byte) : Z :=
  let u := (byte_to_Z lo + 256 * byte_to_Z hi)%Z in
  if (u <? 32768)%Z then u else (u - 65536)%Z.

(** "every consecutive 2-byte little-endian group as a signed integer";
    a trailing single byte forms no group. *)
Fixpoint int16_samples (bytes : list byte) : list Z :=
  match bytes with
  | lo :: hi :: rest => int16_le lo hi :: int16_samples rest
  | _ => []
  end.

(** "division by 32768.0". *)
Definition amplitude (v : Z) : Q := inject_Z v / 32768.

(** A PCM byte buffer as [decodeBase64] hands it over: a view from
    offset 0 on a buffer of exactly these bytes. *)
Definition pcm_view (bytes : list byte) : Uint8Array :=
  mkUint8Array bytes 0 (length bytes).

(** "multiply normalized amplitude by 32768, round" ([Math.round] is the
    floor of the half-shifted value). *)
Definition resynthesize (a : Q) : Z := Qfloor (a * 32768 + (1 # 2)).

(** Frame [i] of the decoded buffer of [bytes], if decoding succeeds and
    the frame exists. *)
Definition decoded_frame (bytes : list byte) (i : nat) : option number :=
  match decodePCM (pcm_view bytes) (mkAudioContext 24000)
          default_sampleRate default_numChannels with
  | Normal buffer => nth_error (getChannelData buffer 0) i
  | Throw _ => None
  end.

(** "reduces it to a single average magnitude": the sum of the byte
    magnitudes over their number. *)
Definition average_magnitude (data : list byte) : Q :=
  inject_Z (fold_right Z.add 0%Z (map byte_to_Z data))
  / inject_Z (Z.of_nat (length data)).

(** "rescales it to a bounded 0-100 visualization range (linear scale
    factor, clamped at 100)". *)
Definition rescaled_loudness (data : list byte) : Q :=
  Qmin 100 (average_magnitude data * 2.5).

(** "markdown formatting characters removed": the characters # * ` _ ~. *)
Definition is_formatting (c : N) : bool :=
  ((c =? 35) || (c =? 42) || (c =? 96) || (c =? 95) || (c =? 126))%N.

Definition drop_formatting (s : jsstring) : jsstring :=
  filter (fun c => negb (is_formatting c)) s.

(** Link markup: "[" text "](" url ")" with a non-empty text free of "]"
    and a non-empty url free of ")". *)
Definition is_link (text markup : jsstring) : Prop :=
  exists url,
    markup = 91%N :: text ++ 93%N :: 40%N :: url ++ [41%N] /\
    text <> [] /\ ~ In 93%N text /\
    url <> [] /\ ~ In 41%N url.

Definition starts_with_link (s : jsstring) : Prop :=
  exists text markup rest, is_link text markup /\ s = markup ++ rest.

(** "link markup reduced to its link text": reading left to right, each
    link is replaced by its text, and a character that starts no link is
    kept. *)
Inductive links_reduced : jsstring -> jsstring -> Prop :=
| reduced_nil : links_reduced [] []
| reduced_link text markup rest out :
    is_link text markup ->
    links_reduced rest out ->
    links_reduced (markup ++ rest) (text ++ out)
| reduced_char c s out :
    ~ starts_with_link (c :: s) ->
    links_reduced s out ->
    links_reduced (c :: s) (c :: out).

(** "newline runs replaced by a pause character": the first newline of a
    run becomes the pause, the others vanish. *)
Fixpoint pause_newline_runs (in_run : bool) (s : jsstring) : jsstring :=
  match s with
  | [] => []
  | c :: s' =>
      if (c =? 10)%N then
        if in_run then pause_newline_runs true s'
        else pause :: pause_newline_runs true s'
      else c :: pause_newline_runs false s'
  end.

End Described.

(** ** A direct recogniser of link markup *)

Module LinkMarkup.
Import Js.

(** The longest prefix inside a class, and what follows it. *)
Fixpoint span (p : N -> bool) (s : jsstring) : jsstring * jsstring :=
  match s with
  | c :: s' =>
      if p c then let (run, rest) := span p s' in (c :: run, rest)
      else ([], s)
  | [] => ([], [])
  end.

(** A recogniser of link markup at the head of a string: the link text
    and what follows the link. *)
Definition parse_link (s : jsstring) : option (jsstring * jsstring) :=
  match s with
  | c0 :: s1 =>
      if (c0 =? 91)%N then
        match span (fun c => negb (c =? 93)%N) s1 with
        | ((_ :: _) as text, c1 :: c2 :: s3) =>
            if ((c1 =? 93) && (c2 =? 40))%N then
              match span (fun c => negb (c =? 41)%N) s3 with
              | (_ :: _, c3 :: rest) =>
                  if (c3 =? 41)%N then Some (text, rest) else None
              | _ => None
              end
            else None
        | _ => None
        end
      else None
  | [] => None
  end.

End LinkMarkup.

(** ** Situations the properties speak about *)

Module Situations.
Import Js WebAudio GeminiService.

(** A transport that fails before it has delivered any increment: the
    send itself is rejected, or the stream opens and its first read
    fails. *)
Definition fails_after_zero_increments (t : DreamChat.send_result) : Prop :=
  t = DreamChat.Rejected \/
  exists rest, t = DreamChat.Resolved (DreamChat.StreamError :: rest).

(** [handleSend] goes past its guard. *)
Definition sendable (st : DreamChat.Chat) : Prop :=
  DreamChat.trim (DreamChat.input st) <> [] /\ DreamChat.chatSession st = true.

(** The placeholder turn is in the transcript once the stream is open. *)
Definition placeholder_left (t : DreamChat.send_result)
  : list DreamChat.ChatMessage :=
  match t with
  | DreamChat.Rejected => []
  | DreamChat.Resolved _ => [DreamChat.mkMessage DreamChat.model []]
  end.

(** The transcript right after the session opened, with "hello" typed. *)
Definition hello_typed : DreamChat.Chat :=
  DreamChat.mkChat [DreamChat.mkMessage DreamChat.model DreamChat.greeting]
    (js "hello") false true 0.

(** The model turns among the turns a send added. *)
Definition new_model_turns (before after : DreamChat.Chat)
  : list DreamChat.ChatMessage :=
  filter (fun m => match DreamChat.msg_role m with
                   | DreamChat.model => true
                   | DreamChat.user => false
                   end)
         (skipn (length (DreamChat.messages before))
                (DreamChat.messages after)).

(** One of the two remote calls of a processing cycle raises [err]. *)
Definition cycle_raises {Audio : Type}
           (analyze : Audio -> App.outcome App.DreamAnalysisResult)
           (generate : jsstring -> App.ImageSize -> App.outcome jsstring)
           (audio : Audio) (size : App.ImageSize) (err : App.thrown) : Prop :=
  analyze audio = App.Rejects err \/
  exists analysis,
    analyze audio = App.Resolves analysis /\
    generate (App.a_imagePrompt analysis) size = App.Rejects err.

(** A step inside the [try] block of [playDreamSpeech] fails: decoding
    the base64 text, building the sample buffer, or creating, connecting
    or starting the source node. *)
Definition guarded_step_fails (pf : Platform) (base64Audio : jsstring) : Prop :=
  (exists e, decodeBase64 base64Audio = Throw e) \/
  (exists pcm e,
      decodeBase64 base64Audio = Normal pcm /\
      decodePCM pcm (mkAudioContext 24000) default_sampleRate
                default_numChannels = Throw e) \/
  createBufferSource_throws pf <> None \/
  connect_throws pf <> None \/
  start_throws pf <> None.

(** Two playback states hold the same resources: they agree on
    everything but the count of rejected [close()] promises. *)
Definition same_resources (w w' : Playback) : Prop :=
  ctx_state w' = ctx_state w /\
  ctx_releases w' = ctx_releases w /\
  source w' = source w /\
  source_buffer w' = source_buffer w /\
  source_connected w' = source_connected w /\
  onended_set w' = onended_set w /\
  onEnded_calls w' = onEnded_calls w /\
  console_errors w' = console_errors w.

(** The states in which nothing is left to release: the context was
    closed, once, and the source is not sounding. *)
Definition released (w : Playback) : Prop :=
  ctx_state w = Some ContextClosed /\
  ctx_releases w = 1%nat /\
  source w <> Playing.

(** The state [playDreamSpeech] leaves when it hands out the real stop
    function: a running context and a sounding source with its handler. *)
Definition sounding (w : Playback) : Prop :=
  ctx_state w = Some Running /\ ctx_releases w = 0%nat /\
  source w = Playing /\ onended_set w = true.

(** Whether a repeated call of a stop function reaches its [ctx.close()]
    line: the closure handed out by a playback that started does, unless
    the platform refuses [stop()] on a finished source and the [catch]
    swallows that; the empty function of a failed playback never does. *)
Definition closes_again (pf : Platform) (f : StopFn) : bool :=
  match f with
  | StopPlayback => negb (stop_again_throws pf)
  | StopNothing => false
  end.

(** What holds of the recorder at all times: the published loudness is a
    number between 0 and 100, and the only analyser ever installed is the
    one [startRecording] builds, with an FFT size of 64. *)
Definition loudness_in_range (st : DreamRecorder.Recorder) : Prop :=
  (exists v : Q, DreamRecorder.volume st = Num v /\ 0 <= v /\ v <= 100) /\
  (DreamRecorder.analyserRef st = None \/
   DreamRecorder.analyserRef st = Some (DreamRecorder.mkAnalyser 64)).

End Situations.

(* ================================================================= *)
(** ** Base64 text, as the platform writes it *)

Module Base64.
Import Js.

(** The character of a 6-bit value in the base64 alphabet (RFC 4648). *)
Definition base64_char (v : N) : N :=
  if (v <? 26)%N then (v + 65)%N
  else if (v <? 52)%N then (v + 71)%N
  else if (v <? 62)%N then (v - 4)%N
  else if (v =? 62)%N then 43%N
  else 47%N.

(** Standard base64 with padding: what [FileReader.readAsDataURL] writes
    after the comma, and what the speech collaborator sends as inline
    data. *)
Fixpoint base64_encode (bytes : list byte) : jsstring :=
  match bytes with
  | a :: b :: c :: rest =>
      let n := (Byte.to_N a * 65536 + Byte.to_N b * 256 + Byte.to_N c)%N in
      base64_char (n / 262144) :: base64_char ((n / 4096) mod 64)
        :: base64_char ((n / 64) mod 64) :: base64_char (n mod 64)
        :: base64_encode rest
  | [a; b] =>
      let n := ((Byte.to_N a * 256 + Byte.to_N b) * 4)%N in
      [base64_char (n / 4096); base64_char ((n / 64) mod 64);
       base64_char (n mod 64); 61%N]
  | [a] =>
      let n := (Byte.to_N a * 16)%N in
      [base64_char (n / 64); base64_char (n mod 64); 61%N; 61%N]
  | [] => []
  end.

End Base64.

(* ================================================================= *)
(** ** services/geminiService.ts: the remote calls *)

Module GeminiRemote.
Import Js Base64.

(** [s.split(",")]: the pieces between the commas, at least one. *)
Fixpoint split_comma (s : jsstring) : list jsstring :=
  match s with
  | [] => [[]]
  | c :: s' =>
      if (c =? 44)%N then [] :: split_comma s'
      else match split_comma s' with
           | piece :: pieces => (c :: piece) :: pieces
           | [] => [[c]]
           end
  end.

(** What [reader.readAsDataURL(blob)] leaves in [reader.result]: a data
    URL whose media type [media] is the platform's rendering of the blob's
    type, followed by the base64 text of the bytes. *)
Definition readAsDataURL (media : jsstring) (blob : DreamRecorder.Blob)
  : jsstring :=
  js "data:" ++ media ++ js ";base64,"
     ++ base64_encode (DreamRecorder.blob_bytes blob).

(** [blobToBase64]: resolves with the piece after the first comma ([None]
    is [undefined], when there is no comma); when the reader reports an
    error instead, the promise is rejected with the error event, an object
    without a [message]. *)
Definition blobToBase64 (read_error : bool) (media : jsstring)
           (blob : DreamRecorder.Blob) : App.outcome (option jsstring) :=
  if read_error then App.Rejects (App.mkThrown None)
  else
    let base64String := readAsDataURL media blob in
    let base64Content := nth_error (split_comma base64String) 1 in
    App.Resolves base64Content.

(** A part of a generated candidate. *)
Record InlineData : Type := mkInlineData { data : option jsstring }.
Record Part : Type := mkPart {
  inlineData : option InlineData;
  part_text : option jsstring
}.

(** [`${x}`] for a string or [undefined]. *)
Definition template (x : option jsstring) : jsstring :=
  match x with
  | Some s => s
  | None => js "undefined"
  end.

(** The loop of [generateDreamImage] over the parts. *)
Fixpoint first_inline_image (parts : list Part) : option jsstring :=
  match parts with
  | [] => None
  | part :: rest =>
      match inlineData part with
      | Some inline => Some (js "data:image/png;base64," ++ template (data inline))
      | None => first_inline_image rest
      end
  end.

(** [generateDreamImage]; [remote] is the image model: it rejects, or
    answers with [response.candidates?.[0]?.content?.parts] ([None] when a
    link of the chain is missing). *)
Definition generateDreamImage
           (remote : jsstring -> App.ImageSize -> App.outcome (option (list Part)))
           (prompt : jsstring) (size : App.ImageSize) : App.outcome jsstring :=
  match remote prompt size with
  | App.Rejects err => App.Rejects err
  | App.Resolves parts =>
      match first_inline_image (match parts with Some l => l | None => [] end) with
      | Some url => App.Resolves url
      | None => App.Rejects (App.mkThrown (Some (js "No image generated.")))
      end
  end.

(** The request [analyzeDreamAudio] sends: the inline audio part. *)
Record AudioPart : Type := mkAudioPart {
  mimeType : jsstring;
  audio_data : option jsstring
}.

(** [audioBlob.type || 'audio/webm']. *)
Definition mime_or_default (blob : DreamRecorder.Blob) : jsstring :=
  match DreamRecorder.blob_type blob with
  | [] => js "audio/webm"
  | t => t
  end.

(** [analyzeDreamAudio]; [remote] is the analysis model answering with
    [response.text], and [JSON_parse] is [JSON.parse] followed by the type
    assertion ([None] when it throws); the response schema of the request
    makes the three string fields required. *)
Definition analyzeDreamAudio
           (read_error : bool) (media : jsstring)
           (remote : AudioPart -> App.outcome (option jsstring))
           (JSON_parse : jsstring -> option App.DreamAnalysisResult)
           (audioBlob : DreamRecorder.Blob)
  : App.outcome App.DreamAnalysisResult :=
  match blobToBase64 read_error media audioBlob with
  | App.Rejects err => App.Rejects err
  | App.Resolves base64Audio =>
      match remote (mkAudioPart (mime_or_default audioBlob) base64Audio) with
      | App.Rejects err => App.Rejects err
      | App.Resolves (Some (c :: jsonText)) =>
          match JSON_parse (c :: jsonText) with
          | Some result => App.Resolves result
          | None =>
              App.Rejects (App.mkThrown (Some (js "Invalid response format from AI.")))
          end
      | App.Resolves _ =>
          App.Rejects (App.mkThrown (Some (js "Failed to generate analysis JSON.")))
      end
  end.

End GeminiRemote.

(* ================================================================= *)
(** ** Further conditions the properties speak about *)

Module Conditions.
Import Js WebAudio GeminiService.

(** A view that lies inside its buffer, as every Uint8Array does. *)
Definition view_fits (data : Uint8Array) : Prop :=
  (u8_byteOffset data + u8_byteLength data <= length (u8_buffer data))%nat.


(** The platform refuses nothing. *)
Definition nothing_throws (pf : Platform) : Prop :=
  new_AudioContext_throws pf = None /\
  createBufferSource_throws pf = None /\
  connect_throws pf = None /\
  start_throws pf = None.

(** How often the browser reported the end of the source in a history. *)
Definition ended_events (es : list event) : nat :=
  length (filter (fun e => match e with Ended => true | Stop _ => false end) es).


(** The context of a playback: not yet released, or released once, or
    never constructed. *)
Definition context_accounted (w : Playback) : Prop :=
  (ctx_state w = Some Running /\ ctx_releases w = 0%nat) \/
  (ctx_state w = Some ContextClosed /\ ctx_releases w = 1%nat) \/
  (ctx_state w = None /\ ctx_releases w = 0%nat).

End Conditions.

(* ================================================================= *)
(** ** components/DreamAnalysis.tsx: the speech button *)

Module DreamAnalysis.
Import Js WebAudio GeminiService.

(** The speech controls of the component, and the audio objects of the
    playback it attempted last. *)
Record Player : Type := mkPlayer {
  isPlayingAudio : bool;
  isLoadingAudio : bool;
  stopAudioRef : option StopFn;      (* stopAudioRef.current *)
  alerts : nat;
  errors_logged : nat;               (* console.error of the component *)
  playback : Playback
}.

Definition initial : Player := mkPlayer false false None 0 0 no_playback.

(** The callback the component hands to [playDreamSpeech]. *)
Definition onEnded (p : Player) : Player :=
  mkPlayer false (isLoadingAudio p) None (alerts p) (errors_logged p)
    (playback p).

(** The catch and finally blocks of [handlePlayInterpretation]; [w] is
    what the failed attempt left of the audio objects. *)
Definition failed (p : Player) (w : Playback) : Player :=
  mkPlayer (isPlayingAudio p) false (stopAudioRef p) (S (alerts p))
    (S (errors_logged p)) w.

(** [handlePlayInterpretation]: one click on the speech button.  The
    button is disabled while the audio loads, so a click runs to its end
    before the next one.  [tts] is the speech-synthesis collaborator of
    [generateDreamSpeech]. *)
Definition handlePlayInterpretation (pf : Platform)
           (tts : jsstring -> completion (option jsstring))
           (interpretation : jsstring) (p : Player) : Player :=
  if isPlayingAudio p then
    match stopAudioRef p with
    | Some stopFn =>
        match call_stop pf stopFn (playback p) with
        | Normal w =>
            mkPlayer false (isLoadingAudio p) None (alerts p)
              (errors_logged p) w
        | Throw _ => p
        end
    | None =>
        mkPlayer false (isLoadingAudio p) None (alerts p) (errors_logged p)
          (playback p)
    end
  else
    let p1 := mkPlayer (isPlayingAudio p) true (stopAudioRef p) (alerts p)
                (errors_logged p) (playback p) in
    match generateDreamSpeech tts interpretation with
    | Throw _ => failed p1 (playback p1)
    | Normal base64Audio =>
        match playDreamSpeech pf base64Audio with
        | (w, Throw _) => failed p1 w
        | (w, Normal stopFn) =>
            (* the callback has run as often as [playDreamSpeech] called
               it; the two assignments come after *)
            let p2 := Nat.iter (onEnded_calls w) onEnded p1 in
            mkPlayer true false (Some stopFn) (alerts p2) (errors_logged p2) w
        end
    end.

(** The browser reports the end of the source: the handler installed by
    [playDreamSpeech] runs the component's callback, then closes the
    context. *)
Definition source_ended (p : Player) : Player :=
  let p1 := if onended_set (playback p) then onEnded p else p in
  mkPlayer (isPlayingAudio p1) (isLoadingAudio p1) (stopAudioRef p1)
    (alerts p1) (errors_logged p1) (fire_ended (playback p)).

(** The cleanup of the effect, run when the component unmounts. *)
Definition unmount (pf : Platform) (p : Player) : Player :=
  match stopAudioRef p with
  | Some stopFn =>
      match call_stop pf stopFn (playback p) with
      | Normal w =>
          mkPlayer (isPlayingAudio p) (isLoadingAudio p) (stopAudioRef p)
            (alerts p) (errors_logged p) w
      | Throw _ => p
      end
  | None => p
  end.

End DreamAnalysis.

(* ================================================================= *)
(** ** components/DreamRecorder: the elapsed time shown while recording *)

Module RecorderDisplay.
Import Js.

(** The characters of a decimal numeral. *)
Fixpoint digits (u : Decimal.uint) : jsstring :=
  match u with
  | Decimal.Nil => []
  | Decimal.D0 u' => 48%N :: digits u'
  | Decimal.D1 u' => 49%N :: digits u'
  | Decimal.D2 u' => 50%N :: digits u'
  | Decimal.D3 u' => 51%N :: digits u'
  | Decimal.D4 u' => 52%N :: digits u'
  | Decimal.D5 u' => 53%N :: digits u'
  | Decimal.D6 u' => 54%N :: digits u'
  | Decimal.D7 u' => 55%N :: digits u'
  | Decimal.D8 u' => 56%N :: digits u'
  | Decimal.D9 u' => 57%N :: digits u'
  end.

(** [Number.prototype.toString] on a non-negative integer below 10^21:
    its decimal digits, "0" for zero. *)
Definition toString (n : N) : jsstring := digits (N.to_uint n).

(** [String.prototype.padStart] with a one-character filler. *)
Definition padStart (s : jsstring) (targetLength : nat) (fill : N)
  : jsstring :=
  repeat fill (targetLength - length s) ++ s.

(** [formatTime]; [seconds] is the recording time, a count of timer
    ticks.  For a count below 2^53 the quotient by 60 is computed in
    floating point within 1/64 of its value, so [Math.floor] gives the
    integer quotient. *)
Definition formatTime (seconds : N) : jsstring :=
  let mins := (seconds / 60)%N in
  let secs := (seconds mod 60)%N in
  toString mins ++ js ":" ++ padStart (toString secs) 2 48.

(** Reading a decimal numeral back: the numeral of a text made of
    digits, and its value. *)
Fixpoint numeral (s : jsstring) : option Decimal.uint :=
  match s with
  | [] => Some Decimal.Nil
  | c :: s' =>
      match numeral s' with
      | None => None
      | Some u =>
          if (c =? 48)%N then Some (Decimal.D0 u)
          else if (c =? 49)%N then Some (Decimal.D1 u)
          else if (c =? 50)%N then Some (Decimal.D2 u)
          else if (c =? 51)%N then Some (Decimal.D3 u)
          else if (c =? 52)%N then Some (Decimal.D4 u)
          else if (c =? 53)%N then Some (Decimal.D5 u)
          else if (c =? 54)%N then Some (Decimal.D6 u)
          else if (c =? 55)%N then Some (Decimal.D7 u)
          else if (c =? 56)%N then Some (Decimal.D8 u)
          else if (c =? 57)%N then Some (Decimal.D9 u)
          else None
      end
  end.

Definition decimal_value (s : jsstring) : option N :=
  match s with
  | [] => None
  | _ => option_map N.of_uint (numeral s)
  end.

End RecorderDisplay.

(* ================================================================= *)
(** * Properties *)

(** ** The model at work *)

Section Examples.
Import Js Regex WebAudio GeminiService DreamChat.

Example atob_three_bytes : atob (js "AQID") = Normal [1; 2; 3]%N.
Proof. reflexivity. Qed.

Example atob_padding : atob (js "/38AgA==") = Normal [255; 127; 0; 128]%N.
Proof. reflexivity. Qed.

Example atob_malformed : atob (js "A") = Throw InvalidCharacterError.
Proof. reflexivity. Qed.

Example decode_extremes :
  bind (decodeBase64 (js "/38AgA=="))
       (fun pcm => decodePCM pcm (mkAudioContext 24000) 24000 1)
  = Normal (mkAudioBuffer 24000 2
              [[Num (32767 # 32768); Num (-32768 # 32768)]]).
Proof. vm_compute. reflexivity. Qed.

Example stripMarkdown_heading_and_link :
  stripMarkdown (js "# Hi **you**, see [the _notes_](http://x/y_z)")
  = js " Hi you, see the notes".
Proof. vm_compute. reflexivity. Qed.

(** One pass only: what a replaced link leaves behind is not searched
    again. *)
Example stripMarkdown_single_pass :
  stripMarkdown (js "[[a](b)](c)") = js "[a](c)".
Proof. vm_compute. reflexivity. Qed.

Example stripMarkdown_newline_runs :
  stripMarkdown [97; 10; 10; 10; 98; 10]%N = [97; pause; 98; pause]%N.
Proof. vm_compute. reflexivity. Qed.

(** A reply streamed in two increments fills the placeholder turn. *)
Example handleSend_streams :
  handleSend (Resolved [Chunk (Some (js "Hel")); Chunk (Some (js "lo"))])
             (mkChat [mkMessage model greeting] (js " hi ") false true 0)
  = (mkChat [mkMessage model greeting; mkMessage user (js "hi");
             mkMessage model (js "Hello")] [] false true 0, 2%nat).
Proof. vm_compute. reflexivity. Qed.

End Examples.

(** ** Lists, loops and bytes *)

Section ListFacts.
Import Js.
Variable A : Type.

Lemma set_nth_length (l : list A) (i : nat) (v : A) :
  length (set_nth l i v) = length l.
Proof.
  revert i; induction l as [|h t IH]; intros [|j]; simpl; auto.
Qed.

Lemma set_nth_middle (l1 l2 : list A) (x v : A) :
  set_nth (l1 ++ x :: l2) (length l1) v = l1 ++ v :: l2.
Proof.
  induction l1 as [|h t IH]; simpl; [reflexivity | now rewrite IH].
Qed.

Lemma for_loop_S (S0 : Type) (n : nat) (body : nat -> S0 -> S0) (s : S0) :
  for_loop (S n) body s = body n (for_loop n body s).
Proof.
  unfold for_loop. rewrite seq_S, fold_left_app. reflexivity.
Qed.

Lemma for_loop_0 (S0 : Type) (body : nat -> S0 -> S0) (s : S0) :
  for_loop 0 body s = s.
Proof. reflexivity. Qed.

Lemma repeat_split (x : A) (n k : nat) :
  (k < n)%nat -> repeat x (n - k) = x :: repeat x (n - S k).
Proof.
  intros H. replace (n - k)%nat with (S (n - S k)) by lia. reflexivity.
Qed.

Lemma map_nth_seq (B : Type) (f : A -> B) (d : A) (l : list A) :
  map (fun i => f (nth i l d)) (seq 0 (length l)) = map f l.
Proof.
  induction l as [|h t IH]; simpl; [reflexivity|].
  f_equal. rewrite <- seq_shift, map_map. exact IH.
Qed.

End ListFacts.

Section ByteFacts.
Import Js.

Lemma byte_to_Z_range (b : byte) : (0 <= byte_to_Z b < 256)%Z.
Proof.
  unfold byte_to_Z. pose proof (Byte.to_N_bounded b) as H. lia.
Qed.

(** On bytes, or-ing the shifted high byte is adding 256 times it. *)
Lemma lor_shiftl_bytes (lo hi : Z) :
  (0 <= lo < 256)%Z -> (0 <= hi)%Z ->
  Z.lor lo (Z.shiftl hi 8) = (lo + 256 * hi)%Z.
Proof.
  intros Hlo Hhi.
  assert (Hland : Z.land lo (Z.shiftl hi 8) = 0%Z).
  { apply Z.bits_inj'. intros n Hn.
    rewrite Z.land_spec, Z.bits_0.
    destruct (Z.lt_ge_cases n 8) as [Hlt | Hge].
    - rewrite (Z.shiftl_spec_low hi 8 n Hlt). apply andb_false_r.
    - assert (Hbit : Z.testbit lo n = false).
      { destruct (Z.eq_dec lo 0) as [-> | Hnz]; [apply Z.bits_0|].
        apply Z.bits_above_log2; [lia|].
        apply Z.lt_le_trans with 8%Z; [|exact Hge].
        apply Z.log2_lt_pow2; simpl; lia. }
      rewrite Hbit. reflexivity. }
  pose proof (Z.add_lor_land lo (Z.shiftl hi 8)) as Hadd.
  rewrite Hland, Z.shiftl_mul_pow2 in Hadd by lia.
  rewrite Z.shiftl_mul_pow2 by lia.
  change (2 ^ 8)%Z with 256%Z in *. lia.
Qed.

End ByteFacts.

(* ================================================================= *)
(** ** PCM decoding *)

Section Decode.
Import Js WebAudio GeminiService Described.

Lemma fill_loop (s : jsstring) (k : nat) :
  (k <= length s)%nat ->
  for_loop k (fun i bytes => u8_set bytes i (charCodeAt s i))
           (new_Uint8Array (length s))
  = mkUint8Array
      (map (fun i => byte_of_N (charCodeAt s i)) (seq 0 k)
         ++ repeat x00 (length s - k))
      0 (length s).
Proof.
  induction k as [|k IH]; intros Hk.
  - rewrite for_loop_0, Nat.sub_0_r. reflexivity.
  - rewrite for_loop_S, IH by lia.
    unfold u8_set; simpl u8_byteLength; simpl u8_byteOffset; simpl u8_buffer.
    replace (k <? length s)%nat with true by (symmetry; apply Nat.ltb_lt; lia).
    f_equal.
    rewrite (repeat_split x00 (n := length s) (k := k)) by lia.
    replace (0 + k)%nat
      with (length (map (fun i => byte_of_N (charCodeAt s i)) (seq 0 k)))
      by (now rewrite length_map, length_seq).
    rewrite set_nth_middle, seq_S, map_app. simpl.
    now rewrite <- app_assoc.
Qed.

(** [decodeBase64] yields exactly the bytes [atob] names. *)
Lemma decodeBase64_view (base64 : jsstring) :
  decodeBase64 base64
  = bind (atob base64) (fun s => Normal (pcm_view (map byte_of_N s))).
Proof.
  unfold decodeBase64. destruct (atob base64) as [s|e]; simpl; [|reflexivity].
  rewrite fill_loop by lia.
  rewrite Nat.sub_diag, app_nil_r. unfold charCodeAt.
  rewrite map_nth_seq. unfold pcm_view. now rewrite length_map.
Qed.

Lemma decodeBase64_is_view (base64 : jsstring) (pcm : Uint8Array) :
  decodeBase64 base64 = Normal pcm -> pcm = pcm_view (u8_bytes pcm).
Proof.
  rewrite decodeBase64_view. destruct (atob base64) as [s|e]; simpl; [|discriminate].
  intros [= <-]. unfold pcm_view, u8_bytes; simpl.
  now rewrite firstn_all, length_map.
Qed.

Lemma to_int16_le (lo hi : byte) :
  to_int16 (Z.lor (byte_to_Z lo) (Z.shiftl (byte_to_Z hi) 8)) = int16_le lo hi.
Proof.
  pose proof (byte_to_Z_range lo) as Hlo.
  pose proof (byte_to_Z_range hi) as Hhi.
  rewrite lor_shiftl_bytes by lia.
  unfold to_int16, int16_le.
  destruct (Z.ltb_spec (byte_to_Z lo + 256 * byte_to_Z hi) 32768).
  - rewrite Z.mod_small by lia. lia.
  - replace (byte_to_Z lo + 256 * byte_to_Z hi + 32768)%Z
      with (byte_to_Z lo + 256 * byte_to_Z hi - 32768 + 1 * 65536)%Z by lia.
    rewrite Z_mod_plus_full, Z.mod_small by lia. lia.
Qed.

Lemma int16_le_range (lo hi : byte) :
  (-32768 <= int16_le lo hi <= 32767)%Z.
Proof.
  pose proof (byte_to_Z_range lo). pose proof (byte_to_Z_range hi).
  unfold int16_le.
  destruct (Z.ltb_spec (byte_to_Z lo + 256 * byte_to_Z hi) 32768); lia.
Qed.

Lemma half_SS (n : nat) : (S (S n) / 2 = S (n / 2))%nat.
Proof.
  replace (S (S n)) with (n + 1 * 2)%nat by lia.
  rewrite Nat.div_add by lia. lia.
Qed.

Lemma int16_samples_length (bytes : list byte) :
  length (int16_samples bytes) = (length bytes / 2)%nat.
Proof.
  induction bytes as [bytes IH] using (well_founded_induction
    (Wf_nat.well_founded_ltof _ (@length byte))).
  destruct bytes as [|lo [|hi rest]]; try reflexivity.
  simpl int16_samples. simpl length. rewrite half_SS. f_equal.
  apply IH. unfold Wf_nat.ltof. simpl. lia.
Qed.

(** Sample [i] is built from bytes [2i] and [2i+1]. *)
Lemma int16_samples_nth (i : nat) : forall bytes : list byte,
  (i < length bytes / 2)%nat ->
  exists lo hi,
    nth_error bytes (2 * i) = Some lo /\
    nth_error bytes (2 * i + 1) = Some hi /\
    nth_error (int16_samples bytes) i = Some (int16_le lo hi).
Proof.
  induction i as [|i IH]; intros [|lo [|hi rest]] Hi;
    try (simpl in Hi; lia).
  - exists lo, hi. repeat split.
  - simpl length in Hi. rewrite half_SS in Hi.
    destruct (IH rest) as (lo' & hi' & H1 & H2 & H3); [lia|].
    exists lo', hi'.
    replace (2 * S i)%nat with (S (S (2 * i))) by lia.
    replace (S (S (2 * i)) + 1)%nat with (S (S (2 * i + 1))) by lia.
    simpl. auto.
Qed.

Lemma i16_get_sample (bytes : list byte) (i : nat) :
  (i < length bytes / 2)%nat ->
  i16_get (mkInt16Array bytes 0 (length bytes / 2)) i
  = nth_error (int16_samples bytes) i.
Proof.
  intros Hi. destruct (int16_samples_nth bytes Hi) as (lo & hi & H1 & H2 & H3).
  unfold i16_get; cbn [i16_length i16_buffer i16_byteOffset].
  replace (i <? length bytes / 2)%nat with true
    by (symmetry; apply Nat.ltb_lt; exact Hi).
  rewrite !Nat.add_0_l, H1, H2, H3, to_int16_le. reflexivity.
Qed.

Lemma set_sample_single (rate : N) (fc : nat) (l : list number)
      (i : nat) (v : number) :
  set_sample (mkAudioBuffer rate fc [l]) 0 i v
  = mkAudioBuffer rate fc [set_nth l i v].
Proof. reflexivity. Qed.

Lemma sample_loop (rate : N) (fc : nat) (h : nat -> number) (k : nat) :
  (k <= fc)%nat ->
  for_loop k (fun i b => set_sample b 0 i (h i))
           (mkAudioBuffer rate fc [repeat (Num 0) fc])
  = mkAudioBuffer rate fc [map h (seq 0 k) ++ repeat (Num 0) (fc - k)].
Proof.
  induction k as [|k IH]; intros Hk.
  - rewrite for_loop_0, Nat.sub_0_r. reflexivity.
  - rewrite for_loop_S, IH by lia.
    rewrite set_sample_single. do 2 f_equal.
    rewrite (repeat_split (Num 0) (n := fc) (k := k)) by lia.
    replace (set_nth (map h (seq 0 k) ++ Num 0 :: repeat (Num 0) (fc - S k)) k)
      with (set_nth (map h (seq 0 k) ++ Num 0 :: repeat (Num 0) (fc - S k))
              (length (map h (seq 0 k))))
      by (now rewrite length_map, length_seq).
    rewrite set_nth_middle, seq_S, map_app.
    now rewrite <- app_assoc.
Qed.

(** What [decodePCM] computes from a buffer as [decodeBase64] delivers
    it: one channel holding the amplitude of every complete 2-byte group,
    or the refusal of [createBuffer] when there is no complete group. *)
Lemma decodePCM_view (bytes : list byte) (ctx : AudioContext) :
  decodePCM (pcm_view bytes) ctx default_sampleRate default_numChannels
  = match int16_samples bytes with
    | [] => Throw NotSupportedError
    | samples =>
        Normal (mkAudioBuffer default_sampleRate (length samples)
                  [map (fun v => Num (amplitude v)) samples])
    end.
Proof.
  unfold decodePCM, pcm_view, new_Int16Array.
  cbn [u8_buffer u8_byteOffset u8_byteLength].
  change (0 mod 2 =? 0)%nat with true. cbn [negb].
  replace (length bytes <? 0 + 2 * (length bytes / 2))%nat with false.
  2:{ symmetry. apply Nat.ltb_ge.
      pose proof (Nat.Div0.mul_div_le (length bytes) 2). lia. }
  cbn [bind i16_length]. unfold default_numChannels. rewrite Nat.div_1_r.
  pose proof (int16_samples_length bytes) as Hlen.
  unfold createBuffer.
  destruct (int16_samples bytes) as [|v0 vs] eqn:Hs.
  - cbn [length] in Hlen. rewrite <- Hlen. reflexivity.
  - rewrite <- Hlen. cbn [length].
    change (1 =? 0)%nat with false. change (S (length vs) =? 0)%nat with false.
    change (default_sampleRate =? 0)%N with false. cbn [orb bind].
    rewrite for_loop_S, for_loop_0.
    rewrite sample_loop by lia.
    rewrite Nat.sub_diag, app_nil_r. do 3 f_equal.
    rewrite <- (map_nth_seq (fun v => Num (amplitude v)) 0%Z (v0 :: vs)).
    apply map_ext_in. intros i Hi. apply in_seq in Hi.
    replace (i * 1 + 0)%nat with i by lia.
    cbn [length] in Hlen, Hi.
    rewrite Hlen, i16_get_sample by (rewrite <- Hlen; lia).
    rewrite Hs. unfold div_number, amplitude.
    rewrite (nth_error_nth' (v0 :: vs) 0%Z) by (cbn [length]; lia).
    reflexivity.
Qed.

End Decode.

Section DecodeClaims.
Import Js WebAudio GeminiService Described.

Lemma int16_samples_removelast (bytes : list byte) :
  Nat.Odd (length bytes) ->
  int16_samples (removelast bytes) = int16_samples bytes.
Proof.
  induction bytes as [bytes IH] using (well_founded_induction
    (Wf_nat.well_founded_ltof _ (@length byte))).
  intros Hodd. destruct bytes as [|b0 [|b1 [|b2 rest]]].
  - destruct Hodd as [k Hk]. simpl in Hk. lia.
  - reflexivity.
  - destruct Hodd as [k Hk]. simpl in Hk. lia.
  - change (removelast (b0 :: b1 :: b2 :: rest))
      with (b0 :: b1 :: removelast (b2 :: rest)).
    cbn [int16_samples]. f_equal.
    apply IH.
    + unfold Wf_nat.ltof. simpl. lia.
    + destruct Hodd as [k Hk]. exists (k - 1)%nat. simpl in Hk |- *. lia.
Qed.

Lemma amplitude_unit (v : Z) :
  (-32768 <= v <= 32767)%Z -> -1 <= amplitude v /\ amplitude v <= 1.
Proof.
  intros Hv. unfold amplitude, Qle, Qdiv, Qmult, Qinv; simpl. lia.
Qed.

(** Every amplitude is a binary32 value: an integer significand below
    2^24 scaled by 2^-15, so the Float32Array store loses nothing. *)
Lemma amplitude_binary32 (lo hi : byte) :
  exists m : Z,
    (Z.abs m < 2 ^ 24)%Z /\
    amplitude (int16_le lo hi) == inject_Z m * (1 # 2 ^ 15).
Proof.
  exists (int16_le lo hi). pose proof (int16_le_range lo hi).
  split; [simpl; lia|]. unfold amplitude, Qdiv. reflexivity.
Qed.

Lemma resynthesize_amplitude (v : Z) : resynthesize (amplitude v) = v.
Proof.
  unfold resynthesize.
  assert (Heq : amplitude v * 32768 + (1 # 2) == (2 * v + 1) # 2).
  { unfold amplitude, Qeq, Qdiv, Qmult, Qinv, Qplus; cbn -[Z.mul Z.add]. lia. }
  rewrite Heq. unfold Qfloor.
  change (Z.pos 2) with 2%Z.
  replace (2 * v + 1)%Z with (1 + v * 2)%Z by lia.
  rewrite Z.div_add by lia. reflexivity.
Qed.

(** C1, as amended: a decoded byte length that is odd (and at least 3) is
    not rejected; [decodePCM] returns the (byteLength - 1) / 2 frames of the
    leading bytes, the very buffer it returns when the final byte is
    absent. *)
Theorem decodePCM_odd_length_truncates
        (base64 : jsstring) (pcm : Uint8Array) (ctx : AudioContext) :
  decodeBase64 base64 = Normal pcm ->
  Nat.Odd (u8_byteLength pcm) ->
  (3 <= u8_byteLength pcm)%nat ->
  exists buffer,
    decodePCM pcm ctx default_sampleRate default_numChannels = Normal buffer /\
    ab_length buffer = ((u8_byteLength pcm - 1) / 2)%nat /\
    decodePCM (pcm_view (removelast (u8_bytes pcm))) ctx
              default_sampleRate default_numChannels = Normal buffer.
Proof.
  intros Hdec Hodd Hlen.
  pose proof (decodeBase64_is_view _ Hdec) as Hview.
  set (bytes := u8_bytes pcm) in *.
  assert (Hbl : u8_byteLength pcm = length bytes) by (rewrite Hview; reflexivity).
  rewrite Hbl in *. rewrite Hview.
  rewrite !decodePCM_view, int16_samples_removelast by exact Hodd.
  pose proof (int16_samples_length bytes) as Hs.
  destruct Hodd as [k Hk].
  assert (Hhalf : (length bytes / 2 = k)%nat).
  { rewrite Hk. replace (2 * k + 1)%nat with (1 + k * 2)%nat by lia.
    rewrite Nat.div_add by lia. reflexivity. }
  assert (Hhalf' : ((length bytes - 1) / 2 = k)%nat).
  { rewrite Hk. replace (2 * k + 1 - 1)%nat with (k * 2)%nat by lia.
    apply Nat.div_mul. lia. }
  destruct (int16_samples bytes) as [|v0 vs] eqn:E.
  - cbn [length] in Hs. lia.
  - cbn [length] in Hs. eexists. split; [reflexivity|]. split; [|reflexivity].
    cbn [ab_length length]. lia.
Qed.

Lemma decodePCM_odd_length_truncates_witness :
  exists buffer,
    decodePCM (pcm_view [x01; x02; x03]) (mkAudioContext 24000)
              default_sampleRate default_numChannels = Normal buffer /\
    ab_length buffer = 1%nat /\
    decodePCM (pcm_view [x01; x02]) (mkAudioContext 24000)
              default_sampleRate default_numChannels = Normal buffer.
Proof.
  apply (@decodePCM_odd_length_truncates (js "AQID") (pcm_view [x01; x02; x03])
           (mkAudioContext 24000)).
  - vm_compute. reflexivity.
  - exists 1%nat. reflexivity.
  - simpl. lia.
Defined.

(** C1 as stated fails: the three bytes 01 02 03 (base64 "AQID") are
    decoded into one frame, 513 / 32768, and playback starts; no error is
    raised and the last byte is dropped. *)
Lemma odd_length_is_not_rejected :
  decodeBase64 (js "AQID") = Normal (pcm_view [x01; x02; x03]) /\
  Nat.Odd (u8_byteLength (pcm_view [x01; x02; x03])) /\
  decodePCM (pcm_view [x01; x02; x03]) (mkAudioContext 24000)
            default_sampleRate default_numChannels
  = Normal (mkAudioBuffer 24000 1 [[Num (513 # 32768)]]) /\
  (forall e, decodePCM (pcm_view [x01; x02; x03]) (mkAudioContext 24000)
                       default_sampleRate default_numChannels <> Throw e) /\
  snd (playDreamSpeech healthy (js "AQID")) = Normal StopPlayback /\
  console_errors (fst (playDreamSpeech healthy (js "AQID"))) = 0%nat.
Proof.
  split; [vm_compute; reflexivity|].
  split; [exists 1%nat; reflexivity|].
  split; [vm_compute; reflexivity|].
  split; [intros e; vm_compute; discriminate|].
  split; vm_compute; reflexivity.
Qed.

(** C4, as amended: a base64 string that encodes a positive even number
    of bytes is decoded into byteLength / 2 frames; frame [i] is the
    signed 16-bit little-endian integer of bytes [2i] and [2i+1], a value
    in [-32768, 32767], divided by 32768, an amplitude in [-1, 1]. *)
Theorem decode_even_length_frames
        (base64 : jsstring) (pcm : Uint8Array) (ctx : AudioContext) :
  decodeBase64 base64 = Normal pcm ->
  Nat.Even (u8_byteLength pcm) ->
  (0 < u8_byteLength pcm)%nat ->
  exists frames,
    decodePCM pcm ctx default_sampleRate default_numChannels
    = Normal (mkAudioBuffer default_sampleRate (u8_byteLength pcm / 2) [frames]) /\
    length frames = (u8_byteLength pcm / 2)%nat /\
    forall i, (i < u8_byteLength pcm / 2)%nat ->
      exists lo hi,
        nth_error (u8_bytes pcm) (2 * i) = Some lo /\
        nth_error (u8_bytes pcm) (2 * i + 1) = Some hi /\
        (-32768 <= int16_le lo hi <= 32767)%Z /\
        nth_error frames i = Some (Num (inject_Z (int16_le lo hi) / 32768)) /\
        -1 <= inject_Z (int16_le lo hi) / 32768 /\
        inject_Z (int16_le lo hi) / 32768 <= 1.
Proof.
  intros Hdec Heven Hpos.
  pose proof (decodeBase64_is_view _ Hdec) as Hview.
  set (bytes := u8_bytes pcm) in *.
  assert (Hbl : u8_byteLength pcm = length bytes) by (rewrite Hview; reflexivity).
  rewrite Hbl in *. rewrite Hview, decodePCM_view.
  pose proof (int16_samples_length bytes) as Hs.
  assert (Hhalf : (0 < length bytes / 2)%nat).
  { destruct Heven as [k Hk]. rewrite Hk in *.
    rewrite Nat.mul_comm, Nat.div_mul by lia. lia. }
  destruct (int16_samples bytes) as [|v0 vs] eqn:E; [cbn [length] in Hs; lia|].
  exists (map (fun v => Num (amplitude v)) (v0 :: vs)).
  rewrite <- Hs. split; [reflexivity|]. split; [apply length_map|].
  intros i Hi. rewrite Hs in Hi.
  destruct (int16_samples_nth bytes Hi) as (lo & hi & H1 & H2 & H3).
  exists lo, hi. rewrite E in H3.
  repeat split; try assumption; try apply int16_le_range.
  - rewrite nth_error_map, H3. reflexivity.
  - apply amplitude_unit, int16_le_range.
  - apply amplitude_unit, int16_le_range.
Qed.

Lemma decode_even_length_frames_witness :
  exists frames,
    decodePCM (pcm_view [xff; x7f; x00; x80]) (mkAudioContext 24000)
              default_sampleRate default_numChannels
    = Normal (mkAudioBuffer default_sampleRate 2 [frames]) /\
    length frames = 2%nat /\
    forall i, (i < 2)%nat ->
      exists lo hi,
        nth_error [xff; x7f; x00; x80] (2 * i) = Some lo /\
        nth_error [xff; x7f; x00; x80] (2 * i + 1) = Some hi /\
        (-32768 <= int16_le lo hi <= 32767)%Z /\
        nth_error frames i = Some (Num (inject_Z (int16_le lo hi) / 32768)) /\
        -1 <= inject_Z (int16_le lo hi) / 32768 /\
        inject_Z (int16_le lo hi) / 32768 <= 1.
Proof.
  apply (@decode_even_length_frames (js "/38AgA==")
           (pcm_view [xff; x7f; x00; x80]) (mkAudioContext 24000)).
  - vm_compute. reflexivity.
  - exists 2%nat. reflexivity.
  - simpl. lia.
Defined.

(** C4 as stated fails at the empty string: it encodes zero bytes, an
    even number, and no buffer of zero frames is produced, because
    [createBuffer] refuses a length of 0. *)
Lemma empty_input_has_no_buffer :
  decodeBase64 (js "") = Normal (pcm_view []) /\
  Nat.Even (u8_byteLength (pcm_view [])) /\
  decodePCM (pcm_view []) (mkAudioContext 24000)
            default_sampleRate default_numChannels
  = Throw NotSupportedError /\
  (forall buffer, decodePCM (pcm_view []) (mkAudioContext 24000)
                            default_sampleRate default_numChannels
                  <> Normal buffer).
Proof.
  split; [vm_compute; reflexivity|].
  split; [exists 0%nat; reflexivity|].
  split; [vm_compute; reflexivity|].
  intros buffer. vm_compute. discriminate.
Qed.

(** C5: for an even-length PCM buffer, every sample has a decoded frame,
    and re-synthesizing that frame (times 32768, rounded) gives the
    original integer sample to within 1. *)
Theorem decode_resynthesize_roundtrip (bytes : list byte) (i : nat) :
  Nat.Even (length bytes) ->
  (i < length bytes / 2)%nat ->
  exists (a : Q) (original : Z),
    decoded_frame bytes i = Some (Num a) /\
    nth_error (int16_samples bytes) i = Some original /\
    (Z.abs (resynthesize a - original) <= 1)%Z.
Proof.
  intros _ Hi.
  destruct (int16_samples_nth bytes Hi) as (lo & hi & _ & _ & H3).
  exists (amplitude (int16_le lo hi)), (int16_le lo hi).
  unfold decoded_frame. rewrite decodePCM_view.
  destruct (int16_samples bytes) as [|v0 vs] eqn:E.
  - destruct i; discriminate.
  - unfold getChannelData. cbn [ab_channels nth].
    rewrite nth_error_map, H3. repeat split.
    rewrite resynthesize_amplitude. rewrite Z.sub_diag. simpl. lia.
Qed.

Lemma decode_resynthesize_roundtrip_witness :
  exists (a : Q) (original : Z),
    decoded_frame [xff; x7f; x00; x80] 1 = Some (Num a) /\
    nth_error (int16_samples [xff; x7f; x00; x80]) 1 = Some original /\
    (Z.abs (resynthesize a - original) <= 1)%Z.
Proof.
  apply (@decode_resynthesize_roundtrip [xff; x7f; x00; x80] 1).
  - exists 2%nat. reflexivity.
  - simpl. lia.
Defined.

End DecodeClaims.

(* ================================================================= *)
(** ** Capture: fragments and loudness *)

Section Capture.
Import Js DreamRecorder Described Situations.

Lemma ondataavailable_fold (fragments : list Blob) : forall st : Recorder,
  chunksRef (fold_left ondataavailable fragments st)
  = chunksRef st ++ filter (fun d => (0 <? blob_size d)%nat) fragments.
Proof.
  induction fragments as [|d fs IH]; intros st; cbn [fold_left filter].
  - now rewrite app_nil_r.
  - rewrite IH. unfold ondataavailable.
    destruct (0 <? blob_size d)%nat; cbn [chunksRef].
    + now rewrite <- app_assoc.
    + reflexivity.
Qed.

Lemma stopRecording_chunks (st : Recorder) :
  chunksRef (stopRecording st) = chunksRef st.
Proof. unfold stopRecording. now destruct (isRecording st). Qed.

(** Dropping the empty fragments does not change the concatenation. *)
Lemma concat_skips_empty (fragments : list Blob) :
  concat (map blob_bytes (filter (fun d => (0 <? blob_size d)%nat) fragments))
  = concat (map blob_bytes fragments).
Proof.
  induction fragments as [|d fs IH]; cbn [filter map concat]; [reflexivity|].
  destruct (Nat.ltb_spec 0 (blob_size d)) as [Hpos | Hzero].
  - cbn [map concat]. now rewrite IH.
  - unfold blob_size in Hzero.
    destruct (blob_bytes d) as [|b bs]; [exact IH | simpl in Hzero; lia].
Qed.

(** C6: whatever fragments arrive during a capture session, before the
    stop click and after it, the recording finalized on stop holds their
    bytes concatenated in arrival order; with no fragment at all it is the
    empty "audio/webm" blob. *)
Theorem capture_concatenates_fragments
        (spectrum : nat -> byte) (recording stopping : list Blob)
        (st : Recorder) :
  audioBlob (capture spectrum recording stopping st)
  = Some (mkBlob (concat (map blob_bytes (recording ++ stopping)))
                 (js "audio/webm")) /\
  audioBlob (capture spectrum [] [] st) = Some (mkBlob [] (js "audio/webm")).
Proof.
  assert (Hgen : forall r s,
             audioBlob (capture spectrum r s st)
             = Some (mkBlob (concat (map blob_bytes (r ++ s)))
                            (js "audio/webm"))).
  { intros r s. unfold capture. cbn [audioBlob onstop]. unfold new_Blob.
    rewrite ondataavailable_fold, stopRecording_chunks, ondataavailable_fold.
    assert (Hstart : chunksRef (startRecording true spectrum st) = [])
      by reflexivity.
    rewrite Hstart. cbn [app].
    now rewrite <- filter_app, concat_skips_empty. }
  split; [apply Hgen | apply (Hgen [] [])].
Qed.

Lemma reduce_from (data : list byte) : forall acc : Z,
  fold_left (fun a b => (a + byte_to_Z b)%Z) data acc
  = (acc + fold_right Z.add 0%Z (map byte_to_Z data))%Z.
Proof.
  induction data as [|b bs IH]; intros acc; cbn [fold_left fold_right map].
  - lia.
  - rewrite IH. lia.
Qed.

Lemma reduce_sum (data : list byte) :
  fold_left (fun a b => (a + byte_to_Z b)%Z) data 0%Z
  = fold_right Z.add 0%Z (map byte_to_Z data).
Proof. rewrite reduce_from. lia. Qed.

Lemma magnitudes_nonneg (data : list byte) :
  (0 <= fold_right Z.add 0%Z (map byte_to_Z data))%Z.
Proof.
  induction data as [|b bs IH]; simpl; [lia|].
  pose proof (byte_to_Z_range b). lia.
Qed.

Lemma average_nonneg (data : list byte) :
  (0 < length data)%nat -> 0 <= average_magnitude data.
Proof.
  intros Hlen. unfold average_magnitude.
  pose proof (magnitudes_nonneg data) as Hsum.
  destruct data as [|b bs]; [simpl in Hlen; lia|].
  unfold Qdiv. apply Qmult_le_0_compat.
  - unfold Qle; cbn [Qnum Qden inject_Z]. lia.
  - apply Qinv_le_0_compat. unfold Qle; simpl. lia.
Qed.

(** The value [visualize] computes is the described one. *)
Lemma loudness_rescaled (data : list byte) :
  (0 < length data)%nat -> loudness data = Num (rescaled_loudness data).
Proof.
  intros Hlen. unfold loudness, rescaled_loudness, average_magnitude.
  rewrite reduce_sum. destruct data as [|b bs]; [simpl in Hlen; lia|].
  reflexivity.
Qed.

Lemma loudness_bounded (data : list byte) :
  (0 < length data)%nat ->
  exists v : Q,
    loudness data = Num v /\ v = rescaled_loudness data /\ 0 <= v /\ v <= 100.
Proof.
  intros Hlen. exists (rescaled_loudness data).
  split; [now apply loudness_rescaled|]. split; [reflexivity|].
  unfold rescaled_loudness. split.
  - apply Q.min_glb; [discriminate|].
    apply Qmult_le_0_compat; [now apply average_nonneg | discriminate].
  - apply Q.le_min_l.
Qed.

Lemma bins_64 (spectrum : nat -> byte) :
  (0 < length (getByteFrequencyData (mkAnalyser 64) spectrum))%nat.
Proof.
  unfold getByteFrequencyData. rewrite length_map, length_seq.
  vm_compute. lia.
Qed.

Lemma visualize_in_range (spectrum : nat -> byte) (st : Recorder) :
  loudness_in_range st -> loudness_in_range (visualize spectrum st).
Proof.
  intros [Hvol Han]. unfold visualize.
  destruct Han as [Hnone | Hsome].
  - rewrite Hnone. split; [exact Hvol | now left].
  - rewrite Hsome. split; cbn [volume analyserRef]; [|now right].
    destruct (loudness_bounded _ (bins_64 spectrum)) as (v & Hv & _ & Hlo & Hhi).
    exists v. auto.
Qed.

Lemma step_in_range (st : Recorder) (a : action) :
  loudness_in_range st -> loudness_in_range (step st a).
Proof.
  intros Hst. destruct a as [granted spectrum | spectrum | data | | | |];
    cbn [step].
  - destruct granted; cbn [startRecording]; [|exact Hst].
    set (st1 := mkRecorder _ _ _ _ _ (Some (mkAnalyser 64)) _ _ true _).
    assert (H1 : loudness_in_range st1)
      by (split; [exact (proj1 Hst) | now right]).
    destruct (visualize_in_range spectrum H1) as [Hv Ha].
    split; assumption.
  - now apply visualize_in_range.
  - unfold ondataavailable. destruct (0 <? blob_size data)%nat; exact Hst.
  - unfold stopRecording. destruct (isRecording st); exact Hst.
  - split; cbn [volume analyserRef onstop]; [|exact (proj2 Hst)].
    exists 0. repeat split; discriminate.
  - exact Hst.
  - exact Hst.
Qed.

Lemma after_in_range (history : list action) : loudness_in_range (after history).
Proof.
  unfold after.
  assert (Hgen : forall st, loudness_in_range st ->
                            loudness_in_range (fold_left step history st)).
  { induction history as [|a h IH]; intros st Hst; cbn [fold_left];
      [exact Hst | apply IH, step_in_range, Hst]. }
  apply Hgen. split; [|now left].
  exists 0. repeat split; discriminate.
Qed.

(** C9: whatever has happened to the recorder, a run of [visualize] leaves
    a published loudness between 0 and 100, and when an analyser is
    installed that value is the average byte magnitude of the frequency
    data it has just read, times 2.5, clamped at 100. *)
Theorem visualize_publishes_bounded_loudness
        (history : list action) (spectrum : nat -> byte) :
  (exists v : Q,
      volume (visualize spectrum (after history)) = Num v /\
      0 <= v /\ v <= 100) /\
  (forall a, analyserRef (after history) = Some a ->
             volume (visualize spectrum (after history))
             = Num (Qmin 100 (average_magnitude
                                (getByteFrequencyData a spectrum) * 2.5))).
Proof.
  pose proof (after_in_range history) as Hst.
  split; [exact (proj1 (visualize_in_range spectrum Hst))|].
  intros a Ha. destruct Hst as [_ [Hnone | Hsome]]; [congruence|].
  assert (a = mkAnalyser 64) as -> by congruence.
  unfold visualize. rewrite Hsome. cbn [volume].
  now rewrite (loudness_rescaled _ (bins_64 spectrum)).
Qed.

End Capture.

(* ================================================================= *)
(** ** The processing cycle of App *)

Section Processing.
Import Js App Situations.
Variable Audio : Type.
Variable analyze : Audio -> outcome DreamAnalysisResult.
Variable generate : jsstring -> ImageSize -> outcome jsstring.

Lemma failed_keeps_record (st : State) (err : thrown) :
  forall s, In s (failed st err) -> dreamData s = dreamData st.
Proof.
  intros s [<- | [<- | []]]; reflexivity.
Qed.

Lemma failed_final (st0 st : State) (err : thrown) (prefix : list State) :
  final st0 (prefix ++ failed st err)
  = mkState false (Some (message_or_fallback err)) (dreamData st) [].
Proof.
  unfold final, failed. cbv zeta.
  match goal with
  | |- last (_ ++ [?a; ?b]) _ = _ => change [a; b] with ([a] ++ [b])
  end.
  rewrite app_assoc, last_last. reflexivity.
Qed.

(** C3, as amended: when the analyze call or the generate-image call
    raises, no state of the cycle holds another dream record than the one
    stored before, the cycle ends with the processing flag cleared, and
    the error message shown is the raised error's message when that is a
    non-empty string, and the fixed fallback message otherwise. *)
Theorem failed_cycle_keeps_record
        (now : N) (audio : Audio) (size : ImageSize) (st : State)
        (err : thrown) :
  cycle_raises analyze generate audio size err ->
  let trace := handleProcessDream analyze generate now audio size st in
  (forall s, In s trace -> dreamData s = dreamData st) /\
  isProcessing (final st trace) = false /\
  (forall c r, message err = Some (c :: r) ->
               error (final st trace) = Some (c :: r)) /\
  (message err = None \/ message err = Some [] ->
   error (final st trace) = Some fallback_message).
Proof.
  intros Hraise trace. subst trace. unfold handleProcessDream.
  destruct Hraise as [Ha | (analysis & Ha & Hg)]; rewrite Ha; [|rewrite Hg].
  - split.
    { intros s [<- | Hs]; [reflexivity|].
      now rewrite (failed_keeps_record Hs). }
    match goal with
    | |- context [final st (?a :: failed ?s err)] =>
        pose proof (failed_final st s err [a]) as Hfinal
    end.
    cbn [app] in Hfinal. rewrite Hfinal.
    cbn [isProcessing error]. unfold message_or_fallback.
    split; [reflexivity|]. split.
    + intros c r ->. reflexivity.
    + intros [-> | ->]; reflexivity.
  - split.
    { intros s [<- | [<- | Hs]]; try reflexivity.
      now rewrite (failed_keeps_record Hs). }
    match goal with
    | |- context [final st (?a :: ?b :: failed ?s err)] =>
        pose proof (failed_final st s err [a; b]) as Hfinal
    end.
    cbn [app] in Hfinal. rewrite Hfinal.
    cbn [isProcessing error]. unfold message_or_fallback.
    split; [reflexivity|]. split.
    + intros c r ->. reflexivity.
    + intros [-> | ->]; reflexivity.
Qed.

End Processing.

Section ProcessingExamples.
Import Js App Situations.

Lemma failed_cycle_keeps_record_witness :
  let trace :=
    handleProcessDream
      (fun _ : unit => Resolves (mkAnalysis (js "t") (js "i") (js "p")))
      (fun _ _ => Rejects (mkThrown (Some (js "No image generated."))))
      0 tt Size1K initial in
  (forall s, In s trace -> dreamData s = dreamData initial) /\
  isProcessing (final initial trace) = false /\
  (forall c r, Some (js "No image generated.") = Some (c :: r) ->
               error (final initial trace) = Some (c :: r)) /\
  (Some (js "No image generated.") = None \/
   Some (js "No image generated.") = Some [] ->
   error (final initial trace) = Some fallback_message).
Proof.
  apply (@failed_cycle_keeps_record unit
           (fun _ : unit => Resolves (mkAnalysis (js "t") (js "i") (js "p")))
           (fun _ _ => Rejects (mkThrown (Some (js "No image generated."))))
           0%N tt Size1K initial
           (mkThrown (Some (js "No image generated.")))).
  right. exists (mkAnalysis (js "t") (js "i") (js "p")).
  split; reflexivity.
Defined.

(** C3 as stated fails for an error whose message is the empty string:
    the message shown is the fallback text, not the error's own. *)
Lemma empty_message_is_replaced :
  let err := mkThrown (Some []) in
  let trace :=
    handleProcessDream (fun _ : unit => Rejects err)
      (fun _ _ => Resolves []) 0 tt Size1K initial in
  message err = Some [] /\
  error (final initial trace) = Some fallback_message /\
  error (final initial trace) <> message err.
Proof.
  cbv zeta. split; [reflexivity|]. split; [reflexivity|].
  vm_compute. discriminate.
Qed.

End ProcessingExamples.

(* ================================================================= *)
(** ** The chat transcript *)

Section ChatFailure.
Import Js DreamChat Situations.

(** C2, as amended: when the transport fails before any increment, the
    transcript gains the user turn and ends with exactly one turn holding
    the fallback apology, a model turn; that is the only new model turn
    when the send itself is rejected, and it follows the empty placeholder
    turn when the stream had opened.  No increment is delivered, whatever
    the stream would have produced after the failure, and the loading
    flag is cleared. *)
Theorem zero_increment_failure_appends_apology
        (t : send_result) (st : Chat) :
  sendable st ->
  fails_after_zero_increments t ->
  messages (fst (handleSend t st))
  = messages st ++ [mkMessage user (trim (input st))]
      ++ placeholder_left t ++ [mkMessage model apology] /\
  last (messages (fst (handleSend t st))) (mkMessage user [])
  = mkMessage model apology /\
  snd (handleSend t st) = 0%nat /\
  isLoading (fst (handleSend t st)) = false /\
  (forall rest rest',
      t = Resolved (StreamError :: rest) ->
      handleSend (Resolved (StreamError :: rest')) st = handleSend t st).
Proof.
  intros [Hinput Hsession] Hfail.
  assert (Hshape :
            handleSend t st
            = (mkChat (messages st ++ [mkMessage user (trim (input st))]
                         ++ placeholder_left t ++ [mkMessage model apology])
                      [] false true (S (console_errors st)), 0%nat)).
  { unfold handleSend. rewrite Hsession.
    destruct (trim (input st)) as [|c r] eqn:Htrim; [congruence|].
    destruct Hfail as [-> | [rest ->]]; cbn [consume placeholder_left app];
      rewrite <- ?app_assoc; reflexivity. }
  rewrite Hshape. cbn [fst snd messages isLoading].
  split; [reflexivity|]. split.
  - rewrite !app_assoc. apply last_last.
  - split; [reflexivity|]. split; [reflexivity|].
    intros rest rest' ->. rewrite <- Hshape.
    unfold handleSend. rewrite Hsession.
    destruct (trim (input st)); reflexivity.
Qed.

Lemma zero_increment_failure_appends_apology_witness :
  messages (fst (handleSend (Resolved [StreamError]) hello_typed))
  = [mkMessage model greeting] ++ [mkMessage user (js "hello")]
      ++ [mkMessage model []] ++ [mkMessage model apology] /\
  last (messages (fst (handleSend (Resolved [StreamError]) hello_typed)))
       (mkMessage user [])
  = mkMessage model apology /\
  snd (handleSend (Resolved [StreamError]) hello_typed) = 0%nat /\
  isLoading (fst (handleSend (Resolved [StreamError]) hello_typed)) = false /\
  (forall rest rest',
      Resolved [StreamError] = Resolved (StreamError :: rest) ->
      handleSend (Resolved (StreamError :: rest')) hello_typed
      = handleSend (Resolved [StreamError]) hello_typed).
Proof.
  apply (@zero_increment_failure_appends_apology
           (Resolved [StreamError]) hello_typed).
  - split; [vm_compute; discriminate | reflexivity].
  - right. exists []. reflexivity.
Defined.

(** C2 as stated fails when the stream opens and its first read fails:
    the send leaves two new model turns, the empty placeholder and the
    apology, not the apology alone. *)
Lemma placeholder_survives_failure :
  fails_after_zero_increments (Resolved [StreamError]) /\
  new_model_turns hello_typed
    (fst (handleSend (Resolved [StreamError]) hello_typed))
  = [mkMessage model []; mkMessage model apology] /\
  new_model_turns hello_typed
    (fst (handleSend (Resolved [StreamError]) hello_typed))
  <> [mkMessage model apology].
Proof.
  split; [right; exists []; reflexivity|].
  split; [vm_compute; reflexivity|].
  vm_compute. discriminate.
Qed.

End ChatFailure.

(* ================================================================= *)
(** ** Playback: failure and stopping *)

Section Playback.
Import Js WebAudio GeminiService Situations.

Lemma ctx_close_closed (w : Playback) :
  ctx_state w = Some ContextClosed -> same_resources w (ctx_close w).
Proof.
  intros H. unfold ctx_close. rewrite H. repeat split; cbn; congruence.
Qed.

Lemma same_resources_refl (w : Playback) : same_resources w w.
Proof. repeat split. Qed.

(** A stop function never lets an exception out. *)
Lemma call_stop_returns (pf : Platform) (f : StopFn) (w : Playback) :
  exists w', call_stop pf f w = Normal w'.
Proof.
  destruct f; cbn [call_stop]; [|eauto].
  unfold source_stop.
  destruct (source w); [| | | destruct (stop_again_throws pf)];
    cbn [bind try_catch]; eauto.
Qed.

Lemma call_stop_released (pf : Platform) (f : StopFn) (w : Playback) :
  released w ->
  exists w',
    call_stop pf f w = Normal w' /\ (w' = w \/ w' = ctx_close w) /\
    same_resources w w' /\ released w'.
Proof.
  intros Hrel.
  assert (Hsame : exists w', Normal w = Normal w' /\ (w' = w \/ w' = ctx_close w)
                             /\ same_resources w w' /\ released w')
    by (exists w; auto using same_resources_refl).
  destruct f; cbn [call_stop]; [|exact Hsame].
  unfold source_stop.
  destruct (source w) eqn:Esrc; cbn [bind try_catch]; try exact Hsame.
  - destruct Hrel as (_ & _ & Hs). congruence.
  - destruct (stop_again_throws pf); cbn [bind try_catch]; [exact Hsame|].
    destruct Hrel as (Hc & Hr & Hs).
    exists (ctx_close w). split; [reflexivity|]. split; [now right|].
    split; [now apply ctx_close_closed|].
    unfold released, ctx_close. rewrite Hc. cbn.
    repeat split; congruence.
Qed.

Lemma fire_ended_released (w : Playback) :
  released w -> released (fire_ended w).
Proof.
  intros (Hc & Hr & Hs). unfold fire_ended, onended_handler, ctx_close.
  destruct (onended_set w); cbn; rewrite ?Hc; cbn;
    repeat split; try assumption; discriminate.
Qed.

Lemma step_released (pf : Platform) (w : Playback) (e : event) :
  released w -> released (step pf w e).
Proof.
  intros H. destruct e as [|f]; cbn [step].
  - now apply fire_ended_released.
  - destruct (call_stop_released pf f H) as (w' & -> & _ & _ & H'). exact H'.
Qed.

Lemma run_released (pf : Platform) (es : list event) : forall w,
  released w -> released (run pf es w).
Proof.
  unfold run. induction es as [|e es IH]; intros w H; cbn [fold_left];
    [exact H | apply IH, step_released, H].
Qed.

Lemma sounding_ended (w : Playback) : sounding w -> released (fire_ended w).
Proof.
  intros (Hc & Hr & Hs & Hh). unfold fire_ended, onended_handler, ctx_close.
  rewrite Hh. cbn. rewrite Hc. cbn. rewrite Hr.
  repeat split. discriminate.
Qed.

Lemma sounding_stopped (pf : Platform) (w : Playback) :
  sounding w ->
  exists w', call_stop pf StopPlayback w = Normal w' /\ released w'.
Proof.
  intros (Hc & Hr & Hs & Hh). cbn [call_stop]. unfold source_stop.
  rewrite Hs. cbn [bind try_catch]. eexists. split; [reflexivity|].
  unfold released, ctx_close. cbn. rewrite Hc. cbn. rewrite Hr.
  repeat split. discriminate.
Qed.

(** What [playDreamSpeech] returns, and the state it leaves. *)
Lemma playDreamSpeech_cases (pf : Platform) (base64Audio : jsstring)
      (w : Playback) (stop : StopFn) :
  playDreamSpeech pf base64Audio = (w, Normal stop) ->
  (stop = StopPlayback /\ sounding w) \/
  (stop = StopNothing /\ released w /\ onEnded_calls w = 1%nat).
Proof.
  unfold playDreamSpeech.
  destruct (new_AudioContext_throws pf); [discriminate|].
  unfold play_body, mbind, lift, guard, modify, ret.
  destruct (decodeBase64 base64Audio) as [pcm|e].
  2:{ intros [= <- <-]. right. repeat split. discriminate. }
  destruct (decodePCM pcm _ _ _) as [buffer|e].
  2:{ intros [= <- <-]. right. repeat split. discriminate. }
  destruct (createBufferSource_throws pf).
  { intros [= <- <-]. right. repeat split. discriminate. }
  destruct (connect_throws pf).
  { intros [= <- <-]. right. repeat split. discriminate. }
  destruct (start_throws pf).
  { intros [= <- <-]. right. repeat split. discriminate. }
  intros [= <- <-]. left. repeat split.
Qed.

End Playback.

Section PlaybackClaims.
Import Js WebAudio GeminiService Situations.

(** C7, as amended: once the audio context exists, a failure of any
    guarded step (base64 or PCM decoding, creating, connecting or starting
    the source) makes [playDreamSpeech] call [onEnded] exactly once, close
    the context, return normally, and hand back a stop function that
    does nothing. *)
Theorem guarded_failure_ends_playback (pf : Platform) (base64Audio : jsstring) :
  new_AudioContext_throws pf = None ->
  guarded_step_fails pf base64Audio ->
  exists w,
    playDreamSpeech pf base64Audio = (w, Normal StopNothing) /\
    onEnded_calls w = 1%nat /\
    ctx_state w = Some ContextClosed /\
    ctx_releases w = 1%nat /\
    forall w', call_stop pf StopNothing w' = Normal w'.
Proof.
  intros Hctx Hfail. unfold playDreamSpeech. rewrite Hctx.
  unfold play_body, mbind, lift, guard, modify, ret.
  unfold guarded_step_fails in Hfail.
  destruct (decodeBase64 base64Audio) as [pcm|e].
  2:{ eexists. repeat split. }
  destruct (decodePCM pcm _ _ _) as [buffer|e] eqn:Epcm.
  2:{ eexists. repeat split. }
  destruct (createBufferSource_throws pf).
  { eexists. repeat split. }
  destruct (connect_throws pf).
  { eexists. repeat split. }
  destruct (start_throws pf).
  { eexists. repeat split. }
  exfalso.
  destruct Hfail as [[e He] | [(pcm' & e & Hd & He) | [H | [H | H]]]];
    try discriminate; try congruence.
Qed.

Lemma guarded_failure_ends_playback_witness :
  exists w,
    playDreamSpeech healthy (js "A") = (w, Normal StopNothing) /\
    onEnded_calls w = 1%nat /\
    ctx_state w = Some ContextClosed /\
    ctx_releases w = 1%nat /\
    forall w', call_stop healthy StopNothing w' = Normal w'.
Proof.
  apply (@guarded_failure_ends_playback healthy (js "A")).
  - reflexivity.
  - left. exists InvalidCharacterError. vm_compute. reflexivity.
Defined.

(** C7 as stated fails when acquiring the audio device fails: the
    context is constructed before the [try], so the exception reaches the
    caller and [onEnded] is never called. *)
Lemma context_failure_reaches_caller :
  let pf := mkPlatform (Some NotSupportedError) None None None false in
  playDreamSpeech pf (js "AAAA") = (no_playback, Throw NotSupportedError) /\
  onEnded_calls (fst (playDreamSpeech pf (js "AAAA"))) = 0%nat /\
  snd (playDreamSpeech pf (js "AAAA")) <> Normal StopNothing.
Proof.
  cbv zeta. split; [reflexivity|]. split; [reflexivity|].
  cbn. discriminate.
Qed.

Lemma sounding_run (pf : Platform) (es : list event) : forall w,
  sounding w ->
  In (Stop StopPlayback) es \/ In Ended es ->
  released (run pf es w).
Proof.
  unfold run. induction es as [|e es IH]; intros w Hw Hin.
  - destruct Hin as [[] | []].
  - cbn [fold_left]. destruct e as [|[|]].
    + apply (run_released pf es), sounding_ended, Hw.
    + cbn [step]. destruct (sounding_stopped pf Hw) as (w' & -> & Hrel).
      apply (run_released pf es), Hrel.
    + cbn [step call_stop]. apply IH; [exact Hw|].
      destruct Hin as [[Heq | Hin] | [Heq | Hin]]; try discriminate; auto.
Qed.

Lemma fire_ended_finished (w : Playback) : source (fire_ended w) = Finished.
Proof.
  unfold fire_ended, onended_handler, ctx_close, call_onEnded, with_source.
  destruct (onended_set w); cbn; [|reflexivity].
  destruct (ctx_state w) as [[|]|]; reflexivity.
Qed.

Lemma ctx_close_source (w : Playback) : source (ctx_close w) = source w.
Proof. unfold ctx_close. destruct (ctx_state w) as [[|]|]; reflexivity. Qed.

Lemma step_finished (pf : Platform) (w : Playback) (e : event) :
  source w = Finished -> source (step pf w e) = Finished.
Proof.
  intros H. destruct e as [|[|]]; cbn [step call_stop].
  - apply fire_ended_finished.
  - unfold source_stop. rewrite H.
    destruct (stop_again_throws pf); cbn [bind try_catch];
      [exact H | now rewrite ctx_close_source].
  - exact H.
Qed.

Lemma run_finished (pf : Platform) (es : list event) : forall w,
  source w = Finished -> source (run pf es w) = Finished.
Proof.
  unfold run. induction es as [|e es IH]; intros w H; cbn [fold_left];
    [exact H | apply IH, step_finished, H].
Qed.

Lemma sounding_run_finished (pf : Platform) (es : list event) : forall w,
  sounding w ->
  In (Stop StopPlayback) es \/ In Ended es ->
  source (run pf es w) = Finished.
Proof.
  unfold run. induction es as [|e es IH]; intros w Hw Hin.
  - destruct Hin as [[] | []].
  - cbn [fold_left]. destruct e as [|[|]].
    + apply (run_finished pf es), fire_ended_finished.
    + apply (run_finished pf es). cbn [step call_stop]. unfold source_stop.
      destruct Hw as (_ & _ & Hs & _). rewrite Hs. cbn [bind try_catch].
      now rewrite ctx_close_source.
    + cbn [step call_stop]. apply IH; [exact Hw|].
      destruct Hin as [[Heq | Hin] | [Heq | Hin]]; try discriminate; auto.
Qed.

Lemma ctx_close_changes (w : Playback) : ctx_close w <> w.
Proof.
  intros H. unfold ctx_close in H.
  destruct (ctx_state w) as [[|]|] eqn:E.
  - apply (f_equal ctx_state) in H. cbn in H. congruence.
  - apply (f_equal ctx_close_rejected) in H. cbn in H. lia.
  - apply (f_equal ctx_close_rejected) in H. cbn in H. lia.
Qed.

(** C8 as stated fails: the second call of the stop function is not a
    no-op.  On a platform that accepts [stop()] on a finished source, the
    closure runs [ctx.close()] again, on the context it has already
    closed, and the state after the call differs from the state before
    it by one more rejected [close()] promise.  The same happens when the
    first call comes after the natural end of playback. *)
Lemma second_stop_closes_again :
  let w0 := fst (playDreamSpeech healthy (js "AQID")) in
  let stopped := run healthy [Stop StopPlayback] w0 in
  let ended := run healthy [Ended] w0 in
  playDreamSpeech healthy (js "AQID") = (w0, Normal StopPlayback) /\
  ctx_state stopped = Some ContextClosed /\
  call_stop healthy StopPlayback stopped = Normal (ctx_close stopped) /\
  call_stop healthy StopPlayback stopped <> Normal stopped /\
  ctx_close_rejected stopped = 0%nat /\
  ctx_close_rejected (ctx_close stopped) = 1%nat /\
  call_stop healthy StopPlayback ended = Normal (ctx_close ended) /\
  call_stop healthy StopPlayback ended <> Normal ended.
Proof.
  cbv zeta. repeat split; try (vm_compute; reflexivity);
    vm_compute; discriminate.
Qed.

(** C8, as amended: after the stop function has been called once, or
    playback has ended on its own, calling the stop function again
    returns without an exception and releases nothing: the context stays
    closed, and context, source, buffer, callback count and console are
    as before the call.  The call is a no-op exactly when it does not
    reach [ctx.close()], that is for the empty stop function of a failed
    playback and on a platform that refuses [stop()] on a finished
    source; otherwise it calls [ctx.close()] once more on the closed
    context, which adds one rejected [close()] promise. *)
Theorem stop_again_releases_nothing
        (pf : Platform) (base64Audio : jsstring) (w : Playback)
        (stop : StopFn) (es : list event) :
  playDreamSpeech pf base64Audio = (w, Normal stop) ->
  In (Stop stop) es \/ In Ended es ->
  exists w',
    call_stop pf stop (run pf es w) = Normal w' /\
    w' = (if closes_again pf stop then ctx_close (run pf es w)
          else run pf es w) /\
    (w' = run pf es w <-> closes_again pf stop = false) /\
    ctx_close_rejected w' =
      (ctx_close_rejected (run pf es w) +
       (if closes_again pf stop then 1 else 0))%nat /\
    same_resources (run pf es w) w' /\
    ctx_state w' = Some ContextClosed /\
    ctx_releases w' = 1%nat.
Proof.
  intros Hplay Hin.
  destruct (playDreamSpeech_cases _ _ Hplay) as [[-> Hs] | (-> & Hr & _)].
  - pose proof (sounding_run pf es Hs Hin) as Hrel.
    pose proof (sounding_run_finished pf es Hs Hin) as Hfin.
    destruct Hrel as (Hc & Hn & _).
    cbn [call_stop closes_again]. unfold source_stop. rewrite Hfin.
    destruct (stop_again_throws pf); cbn [bind try_catch negb].
    + exists (run pf es w). repeat split; auto.
    + exists (ctx_close (run pf es w)).
      split; [reflexivity|]. split; [reflexivity|].
      split; [split; [intros H; now apply ctx_close_changes in H
                     | discriminate]|].
      unfold ctx_close at 1 3 4. rewrite Hc. cbn.
      split; [lia|]. split; [now apply ctx_close_closed|].
      split; [reflexivity | assumption].
  - pose proof (run_released pf es Hr) as (Hc & Hn & _).
    exists (run pf es w). cbn [call_stop closes_again].
    repeat split; auto.
Qed.

Lemma stop_again_releases_nothing_witness :
  exists w',
    call_stop healthy StopPlayback
      (run healthy [Ended; Stop StopPlayback]
           (fst (playDreamSpeech healthy (js "AQID")))) = Normal w' /\
    w' = (if closes_again healthy StopPlayback
          then ctx_close (run healthy [Ended; Stop StopPlayback]
                              (fst (playDreamSpeech healthy (js "AQID"))))
          else run healthy [Ended; Stop StopPlayback]
                   (fst (playDreamSpeech healthy (js "AQID")))) /\
    (w' = run healthy [Ended; Stop StopPlayback]
              (fst (playDreamSpeech healthy (js "AQID"))) <->
     closes_again healthy StopPlayback = false) /\
    ctx_close_rejected w' =
      (ctx_close_rejected
         (run healthy [Ended; Stop StopPlayback]
              (fst (playDreamSpeech healthy (js "AQID")))) +
       (if closes_again healthy StopPlayback then 1 else 0))%nat /\
    same_resources
      (run healthy [Ended; Stop StopPlayback]
           (fst (playDreamSpeech healthy (js "AQID")))) w' /\
    ctx_state w' = Some ContextClosed /\
    ctx_releases w' = 1%nat.
Proof.
  apply (@stop_again_releases_nothing healthy (js "AQID")
           (fst (playDreamSpeech healthy (js "AQID"))) StopPlayback
           [Ended; Stop StopPlayback]).
  - vm_compute. reflexivity.
  - left. right. left. reflexivity.
Defined.

End PlaybackClaims.

(* ================================================================= *)
(** ** The text sent to speech synthesis *)

Section Replace.
Import Js Regex.

(** Passing over [k] units is resuming the search [k] units further. *)
Lemma replace_from_skip (re : list node) (tmpl : list piece) (k : nat) :
  forall s, (k <= length s)%nat ->
            replace_from re tmpl k s = replace_from re tmpl 0 (skipn k s).
Proof.
  induction k as [|k IH]; intros s Hk; [reflexivity|].
  destruct s as [|c s']; [simpl in Hk; lia|].
  cbn [replace_from skipn]. apply IH. simpl in Hk. lia.
Qed.

Lemma run_length_le (p : N -> bool) (s : jsstring) :
  (run_length p s <= length s)%nat.
Proof.
  induction s as [|c s IH]; simpl; [lia|]. destruct (p c); simpl; lia.
Qed.

Lemma run_length_ext (p q : N -> bool) (s : jsstring) :
  (forall c, p c = q c) -> run_length p s = run_length q s.
Proof.
  intros H. induction s as [|c s IH]; simpl; [reflexivity|].
  rewrite H, IH. reflexivity.
Qed.

Lemma push_unset (l : jsstring) : fold_left push l Unset = Unset.
Proof. induction l; simpl; auto. Qed.

Lemma push_closed (l t : jsstring) : fold_left push l (Closed t) = Closed t.
Proof. induction l; simpl; auto. Qed.

Lemma push_open (l : jsstring) : forall acc,
  fold_left push l (Open acc) = Open (rev l ++ acc).
Proof.
  induction l as [|c l IH]; intros acc; simpl; [reflexivity|].
  rewrite IH, <- app_assoc. reflexivity.
Qed.

(** The unit right after [k] units of a run, [k] short of the run's
    length, is still in the class. *)
Lemma inside_run (p : N -> bool) (k : nat) : forall s,
  (k < run_length p s)%nat ->
  exists c s', skipn k s = c :: s' /\ p c = true.
Proof.
  induction k as [|k IH]; intros [|c s] Hk; simpl in Hk; try lia.
  - destruct (p c) eqn:E; [|lia]. exists c, s. auto.
  - destruct (p c) eqn:E; [|lia]. apply IH. lia.
Qed.

(** When the continuation cannot start with a unit of the class, giving
    characters back never helps: the greedy [+] stands or falls with the
    whole run. *)
Lemma give_back_greedy (p : N -> bool)
      (continue : capture -> jsstring -> result) (cap : capture)
      (s : jsstring) :
  (forall cap' c s', p c = true -> continue cap' (c :: s') = None) ->
  give_back (run_length p s) continue cap s
  = match run_length p s with
    | O => None
    | S _ =>
        continue (fold_left push (firstn (run_length p s) s) cap)
                 (skipn (run_length p s) s)
    end.
Proof.
  intros Hrej.
  assert (Hshort : forall k, (k < run_length p s)%nat ->
                             give_back k continue cap s = None).
  { induction k as [|k IH]; intros Hk; [reflexivity|].
    cbn [give_back].
    destruct (inside_run p s Hk) as (c & s' & -> & Hc).
    rewrite (Hrej _ _ _ Hc). apply IH. lia. }
  destruct (run_length p s) as [|n] eqn:E; [reflexivity|].
  cbn [give_back].
  destruct (continue _ _) as [r|]; [reflexivity|].
  apply Hshort. lia.
Qed.

Lemma length_minus_tail (A : Type) (c : A) (s : list A) :
  (length (c :: s) - length s = 1)%nat.
Proof. cbn [length]. lia. Qed.

Lemma length_minus_skipn (A : Type) (k : nat) (s : list A) :
  (k <= length s)%nat -> (length s - length (skipn k s) = k)%nat.
Proof. intros H. rewrite length_skipn. lia. Qed.

End Replace.

Section Formatting.
Import Js Regex GeminiService Described.

Lemma formatting_class (c : N) :
  in_class false formatting_chars c = is_formatting c.
Proof.
  unfold in_class, is_formatting. cbn.
  now destruct (c =? 35)%N, (c =? 42)%N, (c =? 96)%N, (c =? 95)%N, (c =? 126)%N.
Qed.

Lemma replace_formatting (s : jsstring) :
  replace_all re_formatting [Lit []] s = drop_formatting s.
Proof.
  unfold replace_all. induction s as [|c s IH]; [reflexivity|].
  cbn [replace_from re_formatting match_here drop_formatting filter].
  rewrite formatting_class.
  destruct (is_formatting c); cbn [negb].
  - rewrite length_minus_tail. cbn [expand flat_map app]. exact IH.
  - f_equal. exact IH.
Qed.

Lemma newline_class (c : N) : in_class false [10%N] c = (c =? 10)%N.
Proof. unfold in_class. cbn. now destruct (c =? 10)%N. Qed.

Lemma match_newlines (s : jsstring) :
  match_here re_newlines Unset s
  = match run_length (fun c => (c =? 10)%N) s with
    | O => None
    | S k => Some (Unset, skipn (S k) s)
    end.
Proof.
  cbn [re_newlines match_here].
  rewrite (run_length_ext _ (fun c => (c =? 10)%N) s newline_class).
  destruct (run_length _ s) as [|k]; [reflexivity|].
  cbn [give_back match_here]. now rewrite push_unset.
Qed.

(** Inside a run, the remaining newlines are dropped. *)
Lemma pause_in_run (s : jsstring) :
  pause_newline_runs true s
  = pause_newline_runs false
      (skipn (run_length (fun c => (c =? 10)%N) s) s).
Proof.
  induction s as [|c s IH]; [reflexivity|].
  cbn [pause_newline_runs run_length].
  destruct (c =? 10)%N eqn:E; [exact IH|].
  cbn [skipn pause_newline_runs]. now rewrite E.
Qed.

Lemma replace_newlines_bounded (n : nat) : forall s,
  (length s <= n)%nat ->
  replace_from re_newlines [Lit [pause]] 0 s = pause_newline_runs false s.
Proof.
  induction n as [|n IH]; intros [|c s] Hn; try reflexivity;
    try (simpl in Hn; lia).
  cbn [replace_from]. rewrite match_newlines.
  cbn [run_length pause_newline_runs].
  destruct (c =? 10)%N eqn:E.
  - pose proof (run_length_le (fun c => (c =? 10)%N) s) as Hrun.
    rewrite length_minus_skipn by (simpl; lia).
    cbn [expand flat_map app].
    rewrite replace_from_skip by exact Hrun.
    rewrite IH by (rewrite length_skipn; simpl in Hn; lia).
    now rewrite pause_in_run.
  - f_equal. apply IH. simpl in Hn. lia.
Qed.

Lemma replace_newlines (s : jsstring) :
  replace_all re_newlines [Lit [pause]] s = pause_newline_runs false s.
Proof. apply (replace_newlines_bounded (n := length s)). lia. Qed.

End Formatting.

Section Links.
Import Js Regex GeminiService Described LinkMarkup.

Lemma span_run (p : N -> bool) (s : jsstring) :
  span p s = (firstn (run_length p s) s, skipn (run_length p s) s).
Proof.
  induction s as [|c s IH]; [reflexivity|].
  cbn [span run_length]. destruct (p c); [|reflexivity].
  rewrite IH. reflexivity.
Qed.

Lemma run_all (p : N -> bool) (s : jsstring) :
  Forall (fun c => p c = true) (firstn (run_length p s) s).
Proof.
  induction s as [|c s IH]; [constructor|].
  cbn [run_length]. destruct (p c) eqn:E; [|constructor].
  cbn [firstn]. constructor; assumption.
Qed.

Lemma run_length_app (p : N -> bool) (run : jsstring) (c : N) (rest : jsstring) :
  Forall (fun c => p c = true) run -> p c = false ->
  run_length p (run ++ c :: rest) = length run.
Proof.
  intros Hrun Hc. induction Hrun as [|x run Hx _ IH]; cbn [app run_length length].
  - now rewrite Hc.
  - now rewrite Hx, IH.
Qed.

Lemma not_in_class (x : N) (l : jsstring) :
  Forall (fun c => negb (c =? x)%N = true) l <-> ~ In x l.
Proof.
  induction l as [|c l IH]; split; intros H.
  - intros [].
  - constructor.
  - inversion H as [|? ? Hc Hl]; subst. intros [-> | Hin].
    + rewrite N.eqb_refl in Hc. discriminate.
    + now apply IH in Hl.
  - constructor.
    + destruct (N.eqb_spec c x) as [-> | _]; [|reflexivity].
      exfalso. apply H. now left.
    + apply IH. intros Hin. apply H. now right.
Qed.

Lemma link_text_class (c : N) :
  in_class true (js "]") c = negb (c =? 93)%N.
Proof. unfold in_class. cbn. now destruct (c =? 93)%N. Qed.

Lemma link_url_class (c : N) :
  in_class true (js ")") c = negb (c =? 41)%N.
Proof. unfold in_class. cbn. now destruct (c =? 41)%N. Qed.

Lemma firstn_run_nil (p : N -> bool) (s : jsstring) :
  firstn (run_length p s) s = [] -> run_length p s = 0%nat.
Proof.
  destruct s as [|c s]; [reflexivity|]. cbn [run_length].
  destruct (p c); [discriminate | reflexivity].
Qed.

(** The backtracking matcher on the link pattern is the recogniser. *)
Lemma match_link (s : jsstring) :
  match_here re_link Unset s
  = match parse_link s with
    | Some (text, rest) => Some (Closed text, rest)
    | None => None
    end.
Proof.
  destruct s as [|c0 s1]; [reflexivity|].
  cbn [re_link match_here parse_link push].
  destruct (c0 =? 91)%N; [|reflexivity].
  rewrite give_back_greedy.
  2:{ intros cap' c s' Hc. rewrite link_text_class in Hc.
      destruct cap'; cbn [match_here];
        destruct (c =? 93)%N; try discriminate; reflexivity. }
  rewrite (run_length_ext _ (fun c => negb (c =? 93)%N) s1 link_text_class).
  rewrite span_run.
  set (n1 := run_length (fun c => negb (c =? 93)%N) s1).
  destruct (firstn n1 s1) as [|t0 text] eqn:Etext.
  { subst n1. now rewrite (firstn_run_nil _ _ Etext). }
  assert (Hn1 : exists k, n1 = S k).
  { destruct n1; [discriminate | eauto]. }
  destruct Hn1 as [k ->].
  rewrite push_open, app_nil_r. cbn [match_here]. rewrite rev_involutive.
  destruct (skipn (S k) s1) as [|c1 [|c2 s3]]; try reflexivity.
  { destruct (c1 =? 93)%N; reflexivity. }
  cbn [push].
  destruct (c1 =? 93)%N; [|reflexivity].
  destruct (c2 =? 40)%N; [|reflexivity]. cbn [andb].
  rewrite give_back_greedy.
  2:{ intros cap' c s' Hc. rewrite link_url_class in Hc.
      cbn [match_here]. destruct (c =? 41)%N; try discriminate; reflexivity. }
  rewrite (run_length_ext _ (fun c => negb (c =? 41)%N) s3 link_url_class).
  rewrite span_run.
  set (n2 := run_length (fun c => negb (c =? 41)%N) s3).
  destruct (firstn n2 s3) as [|u0 url] eqn:Eurl.
  { subst n2. now rewrite (firstn_run_nil _ _ Eurl). }
  assert (Hn2 : exists k2, n2 = S k2).
  { destruct n2; [discriminate | eauto]. }
  destruct Hn2 as [k2 ->].
  rewrite push_closed. cbn [match_here].
  destruct (skipn (S k2) s3) as [|c3 rest]; [reflexivity|].
  cbn [push]. destruct (c3 =? 41)%N; reflexivity.
Qed.

Lemma span_app (p : N -> bool) (run : jsstring) (c : N) (rest : jsstring) :
  Forall (fun c => p c = true) run -> p c = false ->
  span p (run ++ c :: rest) = (run, c :: rest).
Proof.
  intros Hrun Hc. induction Hrun as [|x run Hx _ IH]; cbn [app span].
  - now rewrite Hc.
  - now rewrite Hx, IH.
Qed.

(** The recogniser accepts exactly link markup. *)
Lemma parse_link_sound (s text rest : jsstring) :
  parse_link s = Some (text, rest) ->
  exists markup, is_link text markup /\ s = markup ++ rest.
Proof.
  destruct s as [|c0 s1]; [discriminate|].
  cbn [parse_link].
  destruct (N.eqb_spec c0 91) as [-> | _]; [|discriminate].
  rewrite span_run.
  pose proof (run_all (fun c => negb (c =? 93)%N) s1) as Htext.
  pose proof (firstn_skipn (run_length (fun c => negb (c =? 93)%N) s1) s1)
    as Hs1.
  destruct (firstn _ s1) as [|t0 t] eqn:Et; [discriminate|].
  destruct (skipn _ s1) as [|c1 [|c2 s3]]; try discriminate.
  destruct (N.eqb_spec c1 93) as [-> | _]; [|discriminate].
  destruct (N.eqb_spec c2 40) as [-> | _]; [|discriminate].
  cbn [andb]. rewrite span_run.
  pose proof (run_all (fun c => negb (c =? 41)%N) s3) as Hurl.
  pose proof (firstn_skipn (run_length (fun c => negb (c =? 41)%N) s3) s3)
    as Hs3.
  destruct (firstn _ s3) as [|u0 u] eqn:Eu; [discriminate|].
  destruct (skipn _ s3) as [|c3 rest']; [discriminate|].
  destruct (N.eqb_spec c3 41) as [-> | _]; [|discriminate].
  intros [= <- <-].
  exists (91%N :: (t0 :: t) ++ 93%N :: 40%N :: (u0 :: u) ++ [41%N]).
  split.
  - exists (u0 :: u). split; [reflexivity|].
    split; [discriminate|]. split; [now apply not_in_class|].
    split; [discriminate | now apply not_in_class].
  - rewrite <- Hs1, <- Hs3. cbn [app]. f_equal. f_equal.
    rewrite <- !app_assoc. cbn [app]. do 3 f_equal.
    rewrite <- !app_assoc. reflexivity.
Qed.

Lemma parse_link_complete (text markup rest : jsstring) :
  is_link text markup -> parse_link (markup ++ rest) = Some (text, rest).
Proof.
  intros (url & -> & Htext & Hno93 & Hurl & Hno41).
  cbn [app parse_link]. rewrite N.eqb_refl.
  rewrite <- app_assoc. cbn [app].
  rewrite span_app by (try apply not_in_class; auto).
  destruct text as [|t0 t]; [congruence|].
  rewrite !N.eqb_refl. cbn [andb].
  rewrite <- app_assoc. cbn [app].
  rewrite span_app by (try apply not_in_class; auto).
  destruct url as [|u0 u]; [congruence|].
  rewrite N.eqb_refl. reflexivity.
Qed.

Lemma replace_link_step (s text rest : jsstring) :
  parse_link s = Some (text, rest) ->
  replace_from re_link [Group1] 0 s
  = text ++ replace_from re_link [Group1] 0 rest.
Proof.
  intros Hparse.
  destruct (@parse_link_sound _ _ _ Hparse) as (markup & Hlink & ->).
  destruct Hlink as (url & -> & _).
  cbn [app replace_from]. cbn [app] in Hparse.
  rewrite match_link, Hparse.
  set (inner := (text ++ 93%N :: 40%N :: url ++ [41%N]) ++ rest).
  assert (Hlen : (length (91%N :: inner) - length rest
                  = S (length (text ++ 93%N :: 40%N :: url ++ [41%N])))%nat).
  { subst inner. cbn [length]. rewrite length_app. lia. }
  rewrite Hlen. cbn [expand flat_map]. rewrite !app_nil_r. f_equal.
  subst inner.
  rewrite replace_from_skip by (rewrite (length_app _ rest); lia).
  rewrite skipn_app, skipn_all, Nat.sub_diag. reflexivity.
Qed.

Lemma replace_char_step (c : N) (s : jsstring) :
  parse_link (c :: s) = None ->
  replace_from re_link [Group1] 0 (c :: s)
  = c :: replace_from re_link [Group1] 0 s.
Proof.
  intros Hparse. cbn [replace_from]. now rewrite match_link, Hparse.
Qed.

Lemma replace_links_bounded (n : nat) : forall s,
  (length s <= n)%nat ->
  links_reduced s (replace_from re_link [Group1] 0 s).
Proof.
  induction n as [|n IH]; intros [|c s] Hn; try constructor;
    try (simpl in Hn; lia).
  destruct (parse_link (c :: s)) as [[text rest]|] eqn:Hparse.
  - rewrite (@replace_link_step _ _ _ Hparse).
    destruct (@parse_link_sound _ _ _ Hparse) as (markup & Hlink & Hs).
    rewrite Hs. apply reduced_link; [exact Hlink|].
    apply IH.
    assert (Hm : (0 < length markup)%nat)
      by (destruct Hlink as (url & -> & _); simpl; lia).
    apply (f_equal (@length N)) in Hs. rewrite length_app in Hs.
    simpl in Hs, Hn. lia.
  - rewrite (@replace_char_step _ _ Hparse). apply reduced_char.
    + intros (text & markup & rest & Hlink & Hs).
      rewrite Hs, (@parse_link_complete _ _ rest Hlink) in Hparse. discriminate.
    + apply IH. simpl in Hn. lia.
Qed.

(** Replacing by the link pattern reduces the links, and nothing else
    does. *)
Lemma replace_links (s : jsstring) :
  links_reduced s (replace_all re_link [Group1] s).
Proof. apply (replace_links_bounded (n := length s)). lia. Qed.

Lemma links_reduced_unique (s out : jsstring) :
  links_reduced s out -> out = replace_all re_link [Group1] s.
Proof.
  unfold replace_all.
  induction 1 as [| text markup rest out Hlink _ IH | c s out Hno _ IH].
  - reflexivity.
  - rewrite (@replace_link_step _ _ _ (@parse_link_complete _ _ rest Hlink)).
    now rewrite IH.
  - rewrite replace_char_step; [now rewrite IH|].
    destruct (parse_link (c :: s)) as [[text rest]|] eqn:Hparse;
      [|reflexivity].
    exfalso. apply Hno.
    destruct (@parse_link_sound _ _ _ Hparse) as (markup & Hlink & Hs).
    now exists text, markup, rest.
Qed.

Lemma substring_prefix (s : jsstring) (n : nat) :
  substring s 0 n = firstn n s.
Proof.
  unfold substring. cbn [Nat.min skipn].
  rewrite Nat.max_0_l, Nat.sub_0_r.
  destruct (Nat.le_ge_cases n (length s)) as [H | H].
  - now rewrite Nat.min_l.
  - rewrite Nat.min_r by exact H. now rewrite !firstn_all2.
Qed.

(** C10: the text [generateDreamSpeech] submits to speech synthesis is
    the input with the characters # * ` _ ~ removed, then every link
    reduced to its text, then every run of newlines replaced by one pause
    character, cut to its first 3000 code units; what lies beyond is
    dropped and the request is made all the same. *)
Theorem speech_text_is_cleaned_and_truncated (text : jsstring) :
  exists reduced,
    links_reduced (drop_formatting text) reduced /\
    (forall other, links_reduced (drop_formatting text) other ->
                   other = reduced) /\
    safeText text = firstn 3000 (pause_newline_runs false reduced) /\
    (length (safeText text) <= 3000)%nat /\
    forall tts,
      generateDreamSpeech tts text
      = bind (tts (firstn 3000 (pause_newline_runs false reduced)))
             audio_or_error.
Proof.
  exists (replace_all re_link [Group1] (drop_formatting text)).
  assert (Hsafe : safeText text
                  = firstn 3000
                      (pause_newline_runs false
                         (replace_all re_link [Group1] (drop_formatting text)))).
  { unfold safeText, stripMarkdown.
    now rewrite substring_prefix, replace_formatting, replace_newlines. }
  split; [apply replace_links|].
  split; [apply links_reduced_unique|].
  split; [exact Hsafe|]. split.
  - rewrite Hsafe. apply firstn_le_length.
  - intros tts. unfold generateDreamSpeech. now rewrite Hsafe.
Qed.

End Links.

(* ================================================================= *)
(** ** Base64: what [atob] returns, and the round trip *)

Section Base64RoundTrip.
Import Js Base64 GeminiService Described GeminiRemote.

Ltac divmod :=
  first [ apply N.mod_lt; discriminate
        | zify; Z.to_euclidean_division_equations; lia ].

Ltac split_comparisons :=
  repeat match goal with
         | |- context [(?a <=? ?b)%N] => destruct (N.leb_spec a b)
         | |- context [(?a <? ?b)%N] => destruct (N.ltb_spec a b)
         | |- context [(?a =? ?b)%N] => destruct (N.eqb_spec a b)
         | H : context [(?a <=? ?b)%N] |- _ => destruct (N.leb_spec a b)
         | H : context [(?a =? ?b)%N] |- _ => destruct (N.eqb_spec a b)
         end.

Lemma to_N_small (b : byte) : (Byte.to_N b < 256)%N.
Proof. pose proof (Byte.to_N_bounded b). lia. Qed.

Lemma byte_of_to_N (b : byte) : byte_of_N (Byte.to_N b) = b.
Proof.
  unfold byte_of_N. rewrite N.mod_small by apply to_N_small.
  now rewrite Byte.of_to_N.
Qed.


Lemma base64_value_char (v : N) :
  (v < 64)%N -> base64_value (base64_char v) = Some v.
Proof.
  intros Hv. unfold base64_char.
  destruct (N.ltb_spec v 26) as [H1 | H1].
  { unfold base64_value.
    replace ((65 <=? v + 65) && (v + 65 <=? 90))%N with true; [f_equal; lia|].
    symmetry. apply andb_true_intro. split; apply N.leb_le; lia. }
  destruct (N.ltb_spec v 52) as [H2 | H2].
  { unfold base64_value.
    replace ((65 <=? v + 71) && (v + 71 <=? 90))%N with false
      by (symmetry; apply andb_false_intro2, N.leb_gt; lia).
    replace ((97 <=? v + 71) && (v + 71 <=? 122))%N with true; [f_equal; lia|].
    symmetry. apply andb_true_intro. split; apply N.leb_le; lia. }
  destruct (N.ltb_spec v 62) as [H3 | H3].
  { unfold base64_value.
    replace ((65 <=? v - 4) && (v - 4 <=? 90))%N with false
      by (symmetry; apply andb_false_intro1, N.leb_gt; lia).
    replace ((97 <=? v - 4) && (v - 4 <=? 122))%N with false
      by (symmetry; apply andb_false_intro1, N.leb_gt; lia).
    replace ((48 <=? v - 4) && (v - 4 <=? 57))%N with true; [f_equal; lia|].
    symmetry. apply andb_true_intro. split; apply N.leb_le; lia. }
  destruct (N.eqb_spec v 62) as [-> | H4]; [reflexivity|].
  assert (v = 63%N) as -> by lia. reflexivity.
Qed.

Lemma base64_value_small (c v : N) :
  base64_value c = Some v -> (v < 64)%N.
Proof.
  unfold base64_value.
  destruct ((65 <=? c) && (c <=? 90))%N eqn:E1.
  { apply andb_prop in E1. destruct E1 as [_ E1]. apply N.leb_le in E1.
    intros [= <-]. lia. }
  destruct ((97 <=? c) && (c <=? 122))%N eqn:E2.
  { apply andb_prop in E2. destruct E2 as [E2 E2']. apply N.leb_le in E2, E2'.
    intros [= <-]. lia. }
  destruct ((48 <=? c) && (c <=? 57))%N eqn:E3.
  { apply andb_prop in E3. destruct E3 as [_ E3]. apply N.leb_le in E3.
    intros [= <-]. lia. }
  destruct (c =? 43)%N; [intros [= <-]; lia|].
  destruct (c =? 47)%N; [intros [= <-]; lia | discriminate].
Qed.

Lemma base64_value_plain (c v : N) :
  base64_value c = Some v ->
  is_ascii_whitespace c = false /\ c <> 61%N /\ (v < 64)%N.
Proof.
  intros Hc. split; [|split].
  - destruct (is_ascii_whitespace c) eqn:E; [|reflexivity].
    unfold is_ascii_whitespace in E.
    repeat (apply orb_prop in E; destruct E as [E | E]);
      apply N.eqb_eq in E; subst c; discriminate Hc.
  - intros ->. discriminate Hc.
  - exact (base64_value_small _ Hc).
Qed.





Lemma recompose2 (n : N) : (n / 64 * 64 + n mod 64 = n)%N.
Proof. pose proof (N.div_mod' n 64). lia. Qed.

Lemma recompose3 (n : N) :
  (n / 4096 * 4096 + (n / 64) mod 64 * 64 + n mod 64 = n)%N.
Proof.
  assert (H1 : (n / 4096 = n / 64 / 64)%N)
    by (rewrite N.Div0.div_div; reflexivity).
  rewrite H1.
  pose proof (N.div_mod' (n / 64) 64). pose proof (N.div_mod' n 64). lia.
Qed.

Lemma recompose4 (n : N) :
  (n / 262144 * 262144 + (n / 4096) mod 64 * 4096 + (n / 64) mod 64 * 64
   + n mod 64 = n)%N.
Proof.
  assert (H1 : (n / 4096 = n / 64 / 64)%N)
    by (rewrite N.Div0.div_div; reflexivity).
  assert (H2 : (n / 262144 = n / 64 / 64 / 64)%N)
    by (rewrite !N.Div0.div_div; reflexivity).
  rewrite H1, H2.
  pose proof (N.div_mod' (n / 64 / 64) 64).
  pose proof (N.div_mod' (n / 64) 64). pose proof (N.div_mod' n 64). lia.
Qed.

Lemma mod_4_step (k : nat) : ((4 + k) mod 4 = k mod 4)%nat.
Proof.
  replace (4 + k)%nat with (k + 1 * 4)%nat by lia.
  apply Nat.Div0.mod_add.
Qed.

Lemma mod_4_step' (k : nat) : (S (S (S (S k))) mod 4 = k mod 4)%nat.
Proof. apply (mod_4_step k). Qed.

Lemma group1_facts (a : N) :
  (a < 256)%N ->
  (a * 16 / 64 < 64)%N /\ (a * 16 / 16 = a)%N.
Proof. intros Ha. split; divmod. Qed.

Lemma group2_facts (a b : N) :
  (a < 256)%N -> (b < 256)%N ->
  ((a * 256 + b) * 4 / 4096 < 64)%N /\
  ((a * 256 + b) * 4 / 1024 = a)%N /\
  (((a * 256 + b) * 4 / 4) mod 256 = b)%N.
Proof.
  intros Ha Hb. split; [divmod|]. split; [divmod|].
  rewrite N.div_mul by discriminate. divmod.
Qed.

Lemma group3_facts (a b c : N) :
  (a < 256)%N -> (b < 256)%N -> (c < 256)%N ->
  ((a * 65536 + b * 256 + c) / 262144 < 64)%N /\
  ((a * 65536 + b * 256 + c) / 65536 = a)%N /\
  (((a * 65536 + b * 256 + c) / 256) mod 256 = b)%N /\
  ((a * 65536 + b * 256 + c) mod 256 = c)%N.
Proof.
  intros Ha Hb Hc. split; [divmod|]. split; [divmod|]. split; [|divmod].
  replace ((a * 65536 + b * 256 + c) / 256)%N with (a * 256 + b)%N by divmod.
  divmod.
Qed.

(** The text [base64_encode] writes: alphabet characters that decode to
    the bytes, then the padding. *)
Lemma encode_shape (bytes : list byte) :
  exists u pad vs,
    base64_encode bytes = u ++ pad /\
    (pad = [] \/ (u <> [] /\ (pad = [61%N] \/ pad = [61%N; 61%N]))) /\
    Forall (fun c => base64_value c <> None) u /\
    (length (u ++ pad) mod 4 = 0)%nat /\
    (length u mod 4 <> 1)%nat /\
    sextets u = Some vs /\
    bytes_of_sextets vs = map Byte.to_N bytes.
Proof.
  induction bytes as [bytes IH] using (well_founded_induction
    (Wf_nat.well_founded_ltof _ (@length byte))).
  destruct bytes as [|a [|b [|c rest]]].
  - exists [], [], []. repeat split; auto.
  - destruct (group1_facts (to_N_small a)) as (Hs1 & Hd).
    set (n := (Byte.to_N a * 16)%N) in *.
    exists [base64_char (n / 64); base64_char (n mod 64)], [61%N; 61%N],
           [(n / 64)%N; (n mod 64)%N].
    assert (H1 : base64_value (base64_char (n / 64)) = Some (n / 64)%N)
      by (apply base64_value_char; exact Hs1).
    assert (H2 : base64_value (base64_char (n mod 64)) = Some (n mod 64)%N)
      by (apply base64_value_char, N.mod_lt; discriminate).
    split; [reflexivity|]. split; [right; split; [discriminate | now right]|].
    split; [repeat constructor; congruence|].
    split; [reflexivity|]. split; [cbn; lia|].
    split; [cbn [sextets]; now rewrite H1, H2|].
    cbn [bytes_of_sextets map]. now rewrite recompose2, Hd.
  - destruct (group2_facts (to_N_small a) (to_N_small b)) as (Hs1 & Hd1 & Hd2).
    set (n := ((Byte.to_N a * 256 + Byte.to_N b) * 4)%N) in *.
    exists [base64_char (n / 4096); base64_char ((n / 64) mod 64);
            base64_char (n mod 64)], [61%N],
           [(n / 4096)%N; ((n / 64) mod 64)%N; (n mod 64)%N].
    assert (H1 : base64_value (base64_char (n / 4096)) = Some (n / 4096)%N)
      by (apply base64_value_char; exact Hs1).
    assert (H2 : base64_value (base64_char ((n / 64) mod 64))
                 = Some ((n / 64) mod 64)%N)
      by (apply base64_value_char, N.mod_lt; discriminate).
    assert (H3 : base64_value (base64_char (n mod 64)) = Some (n mod 64)%N)
      by (apply base64_value_char, N.mod_lt; discriminate).
    split; [reflexivity|]. split; [right; split; [discriminate | now left]|].
    split; [repeat constructor; congruence|].
    split; [reflexivity|]. split; [cbn; lia|].
    split; [cbn [sextets]; now rewrite H1, H2, H3|].
    cbn [bytes_of_sextets map]. cbv zeta. now rewrite recompose3, Hd1, Hd2.
  - destruct (group3_facts (to_N_small a) (to_N_small b) (to_N_small c))
      as (Hs1 & Hd1 & Hd2 & Hd3).
    destruct (IH rest) as (u & pad & vs & He & Hpad & Hal & Hlen & Hu & Hs & Hb64).
    { unfold Wf_nat.ltof. cbn [length]. lia. }
    clear IH.
    set (n := (Byte.to_N a * 65536 + Byte.to_N b * 256 + Byte.to_N c)%N) in *.
    exists (base64_char (n / 262144) :: base64_char ((n / 4096) mod 64)
              :: base64_char ((n / 64) mod 64) :: base64_char (n mod 64) :: u),
           pad,
           ((n / 262144)%N :: ((n / 4096) mod 64)%N :: ((n / 64) mod 64)%N
              :: (n mod 64)%N :: vs).
    assert (H1 : base64_value (base64_char (n / 262144)) = Some (n / 262144)%N)
      by (apply base64_value_char; exact Hs1).
    assert (H2 : base64_value (base64_char ((n / 4096) mod 64))
                 = Some ((n / 4096) mod 64)%N)
      by (apply base64_value_char, N.mod_lt; discriminate).
    assert (H3 : base64_value (base64_char ((n / 64) mod 64))
                 = Some ((n / 64) mod 64)%N)
      by (apply base64_value_char, N.mod_lt; discriminate).
    assert (H4 : base64_value (base64_char (n mod 64)) = Some (n mod 64)%N)
      by (apply base64_value_char, N.mod_lt; discriminate).
    split; [cbn [base64_encode app]; fold n; now rewrite He|].
    split.
    { destruct Hpad as [-> | [_ Hp]]; [now left|].
      right. split; [discriminate | exact Hp]. }
    split; [repeat (constructor; [congruence|]); exact Hal|].
    split; [cbn [app length]; cbn [length] in Hlen; now rewrite !mod_4_step'|].
    split; [cbn [length]; now rewrite !mod_4_step'|].
    split; [cbn [sextets]; now rewrite H1, H2, H3, H4, Hs|].
    cbn [bytes_of_sextets map]. cbv zeta.
    now rewrite recompose4, Hb64, Hd1, Hd2, Hd3.
Qed.


Lemma strip_padding_shape (u pad : jsstring) :
  (length (u ++ pad) mod 4 = 0)%nat ->
  Forall (fun c => base64_value c <> None) u ->
  pad = [] \/ (u <> [] /\ (pad = [61%N] \/ pad = [61%N; 61%N])) ->
  strip_padding (u ++ pad) = u.
Proof.
  intros Hlen Hal Hpad. unfold strip_padding. rewrite Hlen. cbn [Nat.eqb].
  assert (Hlast : forall c r, rev u = c :: r -> c <> 61%N).
  { intros c r Hrev Hc. subst c.
    assert (Hin : In 61%N u) by (apply in_rev; rewrite Hrev; now left).
    rewrite Forall_forall in Hal. now apply (Hal _ Hin). }
  destruct Hpad as [-> | [Hu [-> | ->]]].
  - rewrite app_nil_r. destruct (rev u) as [|c r] eqn:Hrev; [reflexivity|].
    pose proof (Hlast _ _ eq_refl) as Hc.
    destruct c as [|p]; [reflexivity|].
    do 6 (destruct p as [p|p|]; try reflexivity). congruence.
  - rewrite rev_app_distr. cbn [rev app].
    destruct (rev u) as [|c r] eqn:Hrev.
    { apply (f_equal (@rev N)) in Hrev. rewrite rev_involutive in Hrev.
      now destruct Hu. }
    pose proof (Hlast _ _ eq_refl) as Hc.
    destruct c as [|p]; [rewrite <- Hrev; apply rev_involutive|].
    do 6 (destruct p as [p|p|];
          try (rewrite <- Hrev; apply rev_involutive)).
    congruence.
  - rewrite rev_app_distr. cbn [rev app]. apply rev_involutive.
Qed.

Lemma filter_keeps_all (A : Type) (p : A -> bool) (l : list A) :
  Forall (fun x => p x = true) l -> filter p l = l.
Proof.
  induction 1 as [|x l Hx _ IH]; cbn [filter]; [reflexivity|].
  now rewrite Hx, IH.
Qed.

(** Base64 text contains neither white space nor a comma. *)
Lemma encode_plain (bytes : list byte) (c : N) :
  In c (base64_encode bytes) ->
  is_ascii_whitespace c = false /\ c <> 44%N.
Proof.
  destruct (encode_shape bytes) as (u & pad & vs & -> & Hpad & Hal & _).
  intros Hin. apply in_app_or in Hin. destruct Hin as [Hin | Hin].
  - rewrite Forall_forall in Hal. specialize (Hal _ Hin).
    destruct (base64_value c) as [v|] eqn:E; [|congruence].
    destruct (base64_value_plain _ E) as (Hws & _ & _).
    split; [exact Hws|]. intros ->. discriminate E.
  - assert (c = 61%N) as ->.
    { destruct Hpad as [-> | [_ [-> | ->]]]; cbn [In] in Hin; intuition. }
    split; [reflexivity | discriminate].
Qed.

(** The round trip: [atob] gives back the bytes that were encoded. *)
Lemma atob_encode (bytes : list byte) :
  atob (base64_encode bytes) = Normal (map Byte.to_N bytes).
Proof.
  unfold atob, forgiving_base64_decode.
  rewrite filter_keeps_all.
  2:{ apply Forall_forall. intros c Hc.
      now destruct (encode_plain bytes c Hc) as [-> _]. }
  destruct (encode_shape bytes)
    as (u & pad & vs & -> & Hpad & Hal & Hlen & Hu & Hs & Hb64).
  rewrite (strip_padding_shape Hlen Hal Hpad).
  replace (length u mod 4 =? 1)%nat with false
    by (symmetry; now apply Nat.eqb_neq).
  rewrite Hs. cbn [option_map]. now rewrite Hb64.
Qed.


(** X1: base64 text written by a standard encoder is decoded by
    [decodeBase64] into exactly the bytes that were encoded, viewed from
    offset 0; whatever the bytes, decoding does not fail. *)
Theorem decodeBase64_round_trip (bytes : list byte) :
  decodeBase64 (base64_encode bytes) = Normal (pcm_view bytes).
Proof.
  rewrite decodeBase64_view, atob_encode. cbn [bind].
  rewrite map_map. f_equal. f_equal.
  rewrite <- (map_id bytes) at 2. apply map_ext. exact byte_of_to_N.
Qed.


Lemma split_comma_plain (s : jsstring) :
  ~ In 44%N s -> split_comma s = [s].
Proof.
  induction s as [|c s IH]; intros Hno; [reflexivity|].
  cbn [split_comma].
  destruct (N.eqb_spec c 44) as [-> | _]; [exfalso; apply Hno; now left|].
  rewrite IH; [reflexivity|]. intros Hin. apply Hno. now right.
Qed.

Lemma split_comma_first (pre post : jsstring) :
  ~ In 44%N pre ->
  split_comma (pre ++ 44%N :: post) = pre :: split_comma post.
Proof.
  induction pre as [|c pre IH]; intros Hno; [reflexivity|].
  cbn [app split_comma].
  destruct (N.eqb_spec c 44) as [-> | _]; [exfalso; apply Hno; now left|].
  rewrite IH; [reflexivity|]. intros Hin. apply Hno. now right.
Qed.

(** X3: for a blob whose media type is written without a comma (as
    "audio/webm" is), [blobToBase64] resolves with the base64 text of the
    blob's bytes, the part of the data URL after its comma, and [atob]
    maps that text back to the bytes; for an empty blob the text is
    empty. *)
Theorem blobToBase64_round_trip (media : jsstring) (blob : DreamRecorder.Blob) :
  ~ In 44%N media ->
  blobToBase64 false media blob
  = App.Resolves (Some (base64_encode (DreamRecorder.blob_bytes blob))) /\
  atob (base64_encode (DreamRecorder.blob_bytes blob))
  = Normal (map Byte.to_N (DreamRecorder.blob_bytes blob)) /\
  (DreamRecorder.blob_bytes blob = [] ->
   blobToBase64 false media blob = App.Resolves (Some [])).
Proof.
  intros Hmedia.
  assert (Hres : blobToBase64 false media blob
                 = App.Resolves
                     (Some (base64_encode (DreamRecorder.blob_bytes blob)))).
  { unfold blobToBase64, readAsDataURL.
    change (js ";base64,") with (js ";base64" ++ [44%N]).
    assert (Hshape : js "data:" ++ media ++ (js ";base64" ++ [44%N])
                       ++ base64_encode (DreamRecorder.blob_bytes blob)
                     = (js "data:" ++ media ++ js ";base64")
                         ++ 44%N :: base64_encode (DreamRecorder.blob_bytes blob)).
    { rewrite <- !app_assoc. reflexivity. }
    rewrite Hshape, split_comma_first.
    - rewrite split_comma_plain; [reflexivity|].
      intros Hin. now destruct (encode_plain _ _ Hin) as [_ Hc].
    - intros Hin. apply in_app_or in Hin. destruct Hin as [Hin | Hin].
      + cbn in Hin. intuition discriminate.
      + apply in_app_or in Hin. destruct Hin as [Hin | Hin]; [auto|].
        cbn in Hin. intuition discriminate. }
  split; [exact Hres|]. split; [apply atob_encode|].
  intros Hempty. rewrite Hres, Hempty. reflexivity.
Qed.

Lemma blobToBase64_round_trip_witness :
  let blob := DreamRecorder.mkBlob [x01; x02; x03] (js "audio/webm") in
  blobToBase64 false (js "audio/webm") blob
  = App.Resolves (Some (base64_encode (DreamRecorder.blob_bytes blob))) /\
  atob (base64_encode (DreamRecorder.blob_bytes blob))
  = Normal (map Byte.to_N (DreamRecorder.blob_bytes blob)) /\
  (DreamRecorder.blob_bytes blob = [] ->
   blobToBase64 false (js "audio/webm") blob = App.Resolves (Some [])).
Proof.
  apply (@blobToBase64_round_trip (js "audio/webm")
           (DreamRecorder.mkBlob [x01; x02; x03] (js "audio/webm"))).
  cbn. intuition discriminate.
Defined.

End Base64RoundTrip.

(* ================================================================= *)
(** ** PCM decoding in general: views and channels *)

Section DecodeGeneral.
Import Js WebAudio GeminiService Described Conditions.

Lemma for_loop_ext (S0 : Type) (n : nat) (body body' : nat -> S0 -> S0) (s : S0) :
  (forall i x, (i < n)%nat -> body i x = body' i x) ->
  for_loop n body s = for_loop n body' s.
Proof.
  intros Hext. induction n as [|n IH]; [reflexivity|].
  rewrite !for_loop_S, IH by (intros; apply Hext; lia).
  apply Hext. lia.
Qed.

Lemma view_length (data : Uint8Array) :
  view_fits data -> length (u8_bytes data) = u8_byteLength data.
Proof.
  unfold view_fits, u8_bytes. intros H.
  rewrite length_firstn, length_skipn. lia.
Qed.

Lemma view_nth (data : Uint8Array) (i : nat) :
  (i < u8_byteLength data)%nat ->
  nth_error (u8_buffer data) (u8_byteOffset data + i)
  = nth_error (u8_bytes data) i.
Proof.
  intros Hi. unfold u8_bytes.
  rewrite nth_error_firstn.
  replace (i <? u8_byteLength data)%nat with true
    by (symmetry; now apply Nat.ltb_lt).
  now rewrite nth_error_skipn.
Qed.

Lemma view_i16_get (data : Uint8Array) (i : nat) :
  view_fits data ->
  i16_get (mkInt16Array (u8_buffer data) (u8_byteOffset data)
                        (u8_byteLength data / 2)) i
  = i16_get (mkInt16Array (u8_bytes data) 0 (length (u8_bytes data) / 2)) i.
Proof.
  intros Hfit. rewrite (view_length Hfit).
  unfold i16_get; cbn [i16_length i16_buffer i16_byteOffset].
  destruct (Nat.ltb_spec i (u8_byteLength data / 2)) as [Hi | Hi];
    [|reflexivity].
  pose proof (Nat.Div0.mul_div_le (u8_byteLength data) 2) as Hle.
  rewrite <- Nat.add_assoc, !view_nth by lia.
  reflexivity.
Qed.


Lemma set_sample_channel (rate : N) (fc : nat) (before after : list (list number))
      (l : list number) (i : nat) (v : number) :
  set_sample (mkAudioBuffer rate fc (before ++ l :: after)) (length before) i v
  = mkAudioBuffer rate fc (before ++ set_nth l i v :: after).
Proof.
  unfold set_sample; cbn [ab_channels ab_sampleRate ab_length].
  rewrite nth_error_app2, Nat.sub_diag by lia. cbn [nth_error].
  now rewrite set_nth_middle.
Qed.

(** The inner loop fills one channel and leaves the others alone. *)
Lemma channel_loop (rate : N) (fc : nat) (before after : list (list number))
      (g : nat -> number) (j : nat) :
  (j <= fc)%nat ->
  for_loop j (fun i b => set_sample b (length before) i (g i))
           (mkAudioBuffer rate fc (before ++ repeat (Num 0) fc :: after))
  = mkAudioBuffer rate fc
      (before ++ (map g (seq 0 j) ++ repeat (Num 0) (fc - j)) :: after).
Proof.
  induction j as [|j IH]; intros Hj.
  - rewrite for_loop_0, Nat.sub_0_r. reflexivity.
  - rewrite for_loop_S, IH by lia.
    rewrite set_sample_channel. do 3 f_equal.
    rewrite (repeat_split (Num 0) (n := fc) (k := j)) by lia.
    replace (set_nth (map g (seq 0 j) ++ Num 0 :: repeat (Num 0) (fc - S j)) j)
      with (set_nth (map g (seq 0 j) ++ Num 0 :: repeat (Num 0) (fc - S j))
              (length (map g (seq 0 j))))
      by (now rewrite length_map, length_seq).
    rewrite set_nth_middle, seq_S, map_app.
    now rewrite <- app_assoc.
Qed.

(** The outer loop fills the channels one after the other. *)
Lemma channels_loop (rate : N) (fc nc : nat) (h : nat -> nat -> number)
      (k : nat) :
  (k <= nc)%nat ->
  for_loop k
    (fun channel b =>
       for_loop fc (fun i b' => set_sample b' channel i (h channel i)) b)
    (mkAudioBuffer rate fc (repeat (repeat (Num 0) fc) nc))
  = mkAudioBuffer rate fc
      (map (fun channel => map (h channel) (seq 0 fc)) (seq 0 k)
         ++ repeat (repeat (Num 0) fc) (nc - k)).
Proof.
  induction k as [|k IH]; intros Hk.
  - rewrite for_loop_0, Nat.sub_0_r. reflexivity.
  - rewrite for_loop_S, IH by lia.
    rewrite (repeat_split (repeat (Num 0) fc) (n := nc) (k := k)) by lia.
    set (done := map (fun channel => map (h channel) (seq 0 fc)) (seq 0 k)).
    assert (Hlen : length done = k)
      by (subst done; now rewrite length_map, length_seq).
    pose proof (@channel_loop rate fc done
                  (repeat (repeat (Num 0) fc) (nc - S k)) (h k) fc (le_n fc))
      as Hinner.
    rewrite Hlen in Hinner. rewrite Hinner.
    rewrite Nat.sub_diag, app_nil_r. f_equal.
    rewrite seq_S, map_app. cbn [map]. subst done.
    now rewrite <- app_assoc.
Qed.




Lemma i16_get_any (bytes : list byte) (j : nat) :
  i16_get (mkInt16Array bytes 0 (length bytes / 2)) j
  = nth_error (int16_samples bytes) j.
Proof.
  destruct (Nat.lt_ge_cases j (length bytes / 2)) as [Hj | Hj].
  - now apply i16_get_sample.
  - unfold i16_get; cbn [i16_length].
    replace (j <? length bytes / 2)%nat with false
      by (symmetry; now apply Nat.ltb_ge).
    symmetry. apply nth_error_None. now rewrite int16_samples_length.
Qed.

Lemma even_mod_2 (n : nat) : Nat.Even n -> (n mod 2 = 0)%nat.
Proof.
  intros [k ->]. rewrite Nat.mul_comm. apply Nat.Div0.mod_mul.
Qed.

Lemma odd_mod_2 (n : nat) : Nat.Odd n -> (n mod 2 = 1)%nat.
Proof.
  intros [k ->]. rewrite Nat.add_comm, Nat.mul_comm, Nat.Div0.mod_add.
  reflexivity.
Qed.

(** What [decodePCM] computes, for any view at an even offset, any number
    of channels and any sample rate. *)
Lemma decodePCM_general (data : Uint8Array) (ctx : AudioContext)
      (rate : N) (nc : nat) :
  view_fits data ->
  Nat.Even (u8_byteOffset data) ->
  decodePCM data ctx rate nc
  = if ((nc =? 0)%nat
        || (length (int16_samples (u8_bytes data)) / nc =? 0)%nat
        || (rate =? 0)%N)
    then Throw NotSupportedError
    else Normal
           (mkAudioBuffer rate (length (int16_samples (u8_bytes data)) / nc)
              (map (fun channel =>
                      map (fun i =>
                             div_number
                               (nth_error (int16_samples (u8_bytes data))
                                          (i * nc + channel)) 32768)
                          (seq 0 (length (int16_samples (u8_bytes data)) / nc)))
                   (seq 0 nc))).
Proof.
  intros Hfit Heven. unfold decodePCM, new_Int16Array.
  rewrite (even_mod_2 Heven). cbn [Nat.eqb negb].
  replace (length (u8_buffer data)
           <? u8_byteOffset data + 2 * (u8_byteLength data / 2))%nat
    with false.
  2:{ symmetry. apply Nat.ltb_ge. unfold view_fits in Hfit.
      pose proof (Nat.Div0.mul_div_le (u8_byteLength data) 2). lia. }
  cbn [bind i16_length].
  rewrite int16_samples_length, (view_length Hfit).
  set (fc := (u8_byteLength data / 2 / nc)%nat).
  unfold createBuffer.
  destruct ((nc =? 0)%nat || (fc =? 0)%nat || (rate =? 0)%N); [reflexivity|].
  cbn [bind]. rewrite channels_loop by lia.
  rewrite Nat.sub_diag, app_nil_r. do 2 f_equal.
  apply map_ext. intros channel. apply map_ext. intros i.
  now rewrite view_i16_get, i16_get_any.
Qed.

(** X4: [decodePCM] reads the view it is given, not the buffer under it:
    for a view at an even offset the result is the one for the view's own
    bytes alone, whatever else the buffer holds; at an odd offset the
    Int16Array cannot be built and RangeError is raised. *)
Theorem decodePCM_reads_the_view (data : Uint8Array) (ctx : AudioContext)
        (rate : N) (nc : nat) :
  view_fits data ->
  (Nat.Even (u8_byteOffset data) ->
   decodePCM data ctx rate nc
   = decodePCM (pcm_view (u8_bytes data)) ctx rate nc) /\
  (Nat.Odd (u8_byteOffset data) ->
   decodePCM data ctx rate nc = Throw RangeError).
Proof.
  intros Hfit. split.
  - intros Heven. rewrite (decodePCM_general ctx rate nc Hfit Heven).
    assert (Hview : u8_bytes (pcm_view (u8_bytes data)) = u8_bytes data)
      by (unfold u8_bytes at 1, pcm_view; cbn; apply firstn_all).
    rewrite (@decodePCM_general (pcm_view (u8_bytes data)) ctx rate nc).
    + now rewrite Hview.
    + unfold view_fits, pcm_view; cbn. lia.
    + exists 0%nat. reflexivity.
  - intros Hodd. unfold decodePCM, new_Int16Array.
    now rewrite (odd_mod_2 Hodd).
Qed.

Lemma decodePCM_reads_the_view_witness :
  let data := mkUint8Array [xaa; xbb; x01; x02; x03; x04; xcc] 2 4 in
  (Nat.Even 2 ->
   decodePCM data (mkAudioContext 24000) 24000 1
   = decodePCM (pcm_view [x01; x02; x03; x04]) (mkAudioContext 24000) 24000 1) /\
  (Nat.Odd 2 ->
   decodePCM data (mkAudioContext 24000) 24000 1 = Throw RangeError).
Proof.
  apply (@decodePCM_reads_the_view
           (mkUint8Array [xaa; xbb; x01; x02; x03; x04; xcc] 2 4)
           (mkAudioContext 24000) 24000%N 1%nat).
  unfold view_fits. cbn. lia.
Defined.


End DecodeGeneral.

(* ================================================================= *)
(** ** Playback: what is played, and the life of the context *)

Section PlaybackLife.
Import Js WebAudio GeminiService Described Situations Conditions.

(** X6: when the platform refuses nothing and the text decodes to at
    least two bytes, [playDreamSpeech] starts a source on a running
    context, connected, with its handler installed, playing the one-channel
    24000 Hz buffer of the decoded amplitudes; [onEnded] has not been
    called, and the real stop function is returned.  With fewer than two
    bytes it ends in the failure path instead. *)
Theorem play_starts_decoded_audio
        (pf : Platform) (base64Audio binary : jsstring) :
  nothing_throws pf ->
  atob base64Audio = Normal binary ->
  ((2 <= length binary)%nat ->
   playDreamSpeech pf base64Audio
   = (mkPlayback (Some Running) 0 0 Playing
        (Some (mkAudioBuffer 24000 (length binary / 2)
                 [map (fun v => Num (amplitude v))
                      (int16_samples (map byte_of_N binary))]))
        true true 0 0,
      Normal StopPlayback)) /\
  ((length binary < 2)%nat ->
   snd (playDreamSpeech pf base64Audio) = Normal StopNothing /\
   onEnded_calls (fst (playDreamSpeech pf base64Audio)) = 1%nat).
Proof.
  intros (Hctx & Hsrc & Hcon & Hstart) Hatob.
  unfold playDreamSpeech, play_body, mbind, lift, guard, modify, ret.
  rewrite Hctx, Hsrc, Hcon, Hstart, decodeBase64_view, Hatob. cbn [bind].
  rewrite decodePCM_view.
  pose proof (int16_samples_length (map byte_of_N binary)) as Hlen.
  rewrite length_map in Hlen.
  destruct (int16_samples (map byte_of_N binary)) as [|v0 vs] eqn:Es;
    cbn [length] in Hlen.
  - split.
    + intros Hlong. exfalso.
      assert (0 < length binary / 2)%nat by (apply Nat.div_str_pos; lia). lia.
    + intros _. split; reflexivity.
  - split.
    + intros _. cbn [with_source ctx_state ctx_releases ctx_close_rejected
                     onEnded_calls console_errors].
      rewrite <- Hlen. reflexivity.
    + intros Hshort. exfalso.
      rewrite (Nat.div_small _ _ Hshort) in Hlen. discriminate.
Qed.

Lemma play_starts_decoded_audio_witness :
  ((2 <= length [1; 2; 3; 4]%N)%nat ->
   playDreamSpeech healthy (js "AQIDBA==")
   = (mkPlayback (Some Running) 0 0 Playing
        (Some (mkAudioBuffer 24000 (length [1; 2; 3; 4]%N / 2)
                 [map (fun v => Num (amplitude v))
                      (int16_samples (map byte_of_N [1; 2; 3; 4]%N))]))
        true true 0 0,
      Normal StopPlayback)) /\
  ((length [1; 2; 3; 4]%N < 2)%nat ->
   snd (playDreamSpeech healthy (js "AQIDBA==")) = Normal StopNothing /\
   onEnded_calls (fst (playDreamSpeech healthy (js "AQIDBA=="))) = 1%nat).
Proof.
  apply (@play_starts_decoded_audio healthy (js "AQIDBA==") [1; 2; 3; 4]%N).
  - repeat split.
  - reflexivity.
Defined.

Lemma ctx_close_accounted (w : Playback) :
  context_accounted w -> context_accounted (ctx_close w).
Proof.
  unfold context_accounted, ctx_close.
  intros [[Hc Hr] | [[Hc Hr] | [Hc Hr]]]; rewrite Hc; cbn; rewrite ?Hr; auto.
Qed.

Lemma call_stop_shape (pf : Platform) (f : StopFn) (w : Playback) :
  exists w', call_stop pf f w = Normal w' /\
             onEnded_calls w' = onEnded_calls w /\
             onended_set w' = onended_set w /\
             (context_accounted w -> context_accounted w').
Proof.
  destruct f; cbn [call_stop]; [|exists w; auto].
  unfold source_stop.
  destruct (source w); [| | | destruct (stop_again_throws pf)];
    cbn [bind try_catch]; try (exists w; now auto).
  - eexists. split; [reflexivity|]. unfold ctx_close, with_source.
    cbn [ctx_state]. destruct (ctx_state w) as [[|]|] eqn:E; cbn;
      repeat split; try reflexivity;
      unfold context_accounted; cbn; rewrite ?E;
      intros [[Hc Hr] | [[Hc Hr] | [Hc Hr]]]; try discriminate; auto.
  - eexists. split; [reflexivity|]. unfold ctx_close.
    destruct (ctx_state w) as [[|]|] eqn:E; cbn;
      repeat split; try reflexivity;
      unfold context_accounted; cbn; rewrite ?E;
      intros [[Hc Hr] | [[Hc Hr] | [Hc Hr]]]; try discriminate; auto.
Qed.

Lemma fire_ended_shape (w : Playback) :
  onended_set (fire_ended w) = onended_set w /\
  (onended_set w = true ->
   onEnded_calls (fire_ended w) = S (onEnded_calls w)) /\
  (context_accounted w -> context_accounted (fire_ended w)).
Proof.
  unfold fire_ended, onended_handler, call_onEnded, with_source.
  destruct (onended_set w) eqn:Eh.
  - unfold ctx_close. cbn [ctx_state].
    destruct (ctx_state w) as [[|]|] eqn:E; cbn;
      repeat split; try reflexivity; try assumption;
      unfold context_accounted; cbn; rewrite ?E;
      intros [[Hc Hr] | [[Hc Hr] | [Hc Hr]]]; try discriminate; auto.
  - cbn. repeat split; try assumption; try discriminate.
    intros Hacc. exact Hacc.
Qed.

Lemma playDreamSpeech_accounted (pf : Platform) (base64Audio : jsstring) :
  context_accounted (fst (playDreamSpeech pf base64Audio)).
Proof.
  unfold playDreamSpeech.
  destruct (new_AudioContext_throws pf); [right; right; split; reflexivity|].
  unfold play_body, mbind, lift, guard, modify, ret.
  destruct (decodeBase64 base64Audio) as [pcm|e];
    [|right; left; split; reflexivity].
  destruct (decodePCM pcm _ _ _) as [buffer|e];
    [|right; left; split; reflexivity].
  destruct (createBufferSource_throws pf); [right; left; split; reflexivity|].
  destruct (connect_throws pf); [right; left; split; reflexivity|].
  destruct (start_throws pf); [right; left; split; reflexivity|].
  left. split; reflexivity.
Qed.

Lemma run_history (pf : Platform) (es : list event) : forall w,
  context_accounted w ->
  context_accounted (run pf es w) /\
  (onended_set w = true ->
   onEnded_calls (run pf es w) = (onEnded_calls w + ended_events es)%nat).
Proof.
  unfold run, ended_events.
  induction es as [|e es IH]; intros w Hw; cbn [fold_left filter length].
  - split; [exact Hw | intros _; lia].
  - destruct e as [|f]; cbn [step].
    + destruct (fire_ended_shape w) as (Hset & Hcalls & Hacc).
      destruct (IH (fire_ended w) (Hacc Hw)) as [IH1 IH2].
      split; [exact IH1|]. intros Hh. cbn [length].
      rewrite IH2 by congruence. rewrite (Hcalls Hh). lia.
    + destruct (call_stop_shape pf f w) as (w' & -> & Hcalls & Hset & Hacc).
      destruct (IH w' (Hacc Hw)) as [IH1 IH2].
      split; [exact IH1|]. intros Hh.
      rewrite IH2 by congruence. now rewrite Hcalls.
Qed.

(** X7: whatever the order of stop calls (of either stop function) and
    ended events after [playDreamSpeech], the audio context is never
    released twice; and when playback had started, [onEnded] has been
    called exactly once per ended event, never by a stop call. *)
Theorem context_released_at_most_once
        (pf : Platform) (base64Audio : jsstring) (es : list event) :
  context_accounted (run pf es (fst (playDreamSpeech pf base64Audio))) /\
  (ctx_releases (run pf es (fst (playDreamSpeech pf base64Audio))) <= 1)%nat /\
  (snd (playDreamSpeech pf base64Audio) = Normal StopPlayback ->
   onEnded_calls (run pf es (fst (playDreamSpeech pf base64Audio)))
   = ended_events es).
Proof.
  destruct (run_history pf es (playDreamSpeech_accounted pf base64Audio))
    as [Hacc Hcalls].
  split; [exact Hacc|]. split.
  - destruct Hacc as [[_ Hr] | [[_ Hr] | [_ Hr]]]; rewrite Hr; lia.
  - intros Hstop.
    destruct (playDreamSpeech pf base64Audio) as [w r] eqn:Eplay.
    cbn [fst snd] in *. subst r.
    destruct (playDreamSpeech_cases _ _ Eplay)
      as [[_ (Hc & Hr & Hs & Hh)] | [Hno _]]; [|discriminate].
    rewrite (Hcalls Hh).
    assert (Hzero : onEnded_calls w = 0%nat).
    { revert Eplay. unfold playDreamSpeech.
      destruct (new_AudioContext_throws pf); [discriminate|].
      unfold play_body, mbind, lift, guard, modify, ret.
      destruct (decodeBase64 base64Audio); [|discriminate].
      destruct (decodePCM _ _ _ _); [|discriminate].
      destruct (createBufferSource_throws pf); [discriminate|].
      destruct (connect_throws pf); [discriminate|].
      destruct (start_throws pf); [discriminate|].
      intros [= <-]. reflexivity. }
    rewrite Hzero. reflexivity.
Qed.

End PlaybackLife.

(* ================================================================= *)
(** ** [stripMarkdown]: what its output can hold *)

Section StrippedText.
Import Js Regex GeminiService Described LinkMarkup.

Lemma stripMarkdown_steps (text : jsstring) :
  stripMarkdown text
  = pause_newline_runs false
      (replace_all re_link [Group1] (drop_formatting text)).
Proof.
  unfold stripMarkdown. now rewrite replace_formatting, replace_newlines.
Qed.

Lemma links_reduced_incl (s out : jsstring) :
  links_reduced s out -> forall c, In c out -> In c s.
Proof.
  induction 1 as [| text markup rest out (url & -> & _) _ IH | c0 s out _ _ IH];
    intros c Hc.
  - exact Hc.
  - apply in_app_or in Hc. destruct Hc as [Hc | Hc].
    + apply in_or_app. left. right. apply in_or_app. now left.
    + apply in_or_app. right. now apply IH.
  - destruct Hc as [-> | Hc]; [now left | right; now apply IH].
Qed.

Lemma links_reduced_length (s out : jsstring) :
  links_reduced s out -> (length out <= length s)%nat.
Proof.
  induction 1 as [| text markup rest out (url & -> & _) _ IH | c0 s out _ _ IH].
  - lia.
  - repeat (rewrite length_app || cbn [length]). lia.
  - cbn [length]. lia.
Qed.

Lemma pause_chars (s : jsstring) : forall (in_run : bool) (c : N),
  In c (pause_newline_runs in_run s) ->
  c = pause \/ (In c s /\ c <> 10%N).
Proof.
  induction s as [|x s IH]; intros in_run c; cbn [pause_newline_runs].
  - intros [].
  - destruct (N.eqb_spec x 10) as [-> | Hx].
    + destruct in_run.
      * intros Hc. destruct (IH _ _ Hc) as [-> | [Hin Hne]]; [now left|].
        right. split; [now right | exact Hne].
      * intros [<- | Hc]; [now left|].
        destruct (IH _ _ Hc) as [-> | [Hin Hne]]; [now left|].
        right. split; [now right | exact Hne].
    + intros [<- | Hc]; [right; split; [now left | exact Hx]|].
      destruct (IH _ _ Hc) as [-> | [Hin Hne]]; [now left|].
      right. split; [now right | exact Hne].
Qed.

Lemma pause_length (s : jsstring) : forall in_run : bool,
  (length (pause_newline_runs in_run s) <= length s)%nat.
Proof.
  induction s as [|x s IH]; intros in_run; cbn [pause_newline_runs length];
    [lia|].
  destruct (x =? 10)%N; [destruct in_run|]; cbn [length];
    pose proof (IH true); pose proof (IH false); lia.
Qed.

(** X8: the text [stripMarkdown] returns holds none of the characters
    # * ` _ ~ and no newline; each of its characters is the pause
    character or a character of the input. *)
Theorem stripMarkdown_output_clean (text : jsstring) :
  Forall (fun c => is_formatting c = false /\ c <> 10%N /\
                   (c = pause \/ In c text))
         (stripMarkdown text).
Proof.
  apply Forall_forall. intros c Hc. rewrite stripMarkdown_steps in Hc.
  destruct (pause_chars _ _ _ Hc) as [-> | [Hin Hne]].
  - repeat split; [discriminate | now left].
  - apply (links_reduced_incl (replace_links _)) in Hin.
    unfold drop_formatting in Hin. apply filter_In in Hin.
    destruct Hin as [Hin Hf]. apply negb_true_iff in Hf.
    repeat split; [exact Hf | exact Hne | now right].
Qed.

Lemma replace_links_plain (s : jsstring) :
  ~ In 91%N s -> replace_all re_link [Group1] s = s.
Proof.
  unfold replace_all. induction s as [|c s IH]; intros Hno; [reflexivity|].
  rewrite replace_char_step.
  - f_equal. apply IH. intros Hin. apply Hno. now right.
  - cbn [parse_link].
    destruct (N.eqb_spec c 91) as [-> | _]; [|reflexivity].
    exfalso. apply Hno. now left.
Qed.

Lemma pause_plain (s : jsstring) :
  ~ In 10%N s -> pause_newline_runs false s = s.
Proof.
  induction s as [|c s IH]; intros Hno; [reflexivity|].
  cbn [pause_newline_runs].
  destruct (N.eqb_spec c 10) as [-> | _]; [exfalso; apply Hno; now left|].
  f_equal. apply IH. intros Hin. apply Hno. now right.
Qed.

(** X9: [stripMarkdown] never lengthens a text, and a text without any of
    the characters # * ` _ ~, without "[" and without newline comes back
    unchanged. *)
Theorem stripMarkdown_plain_text (text : jsstring) :
  (length (stripMarkdown text) <= length text)%nat /\
  (Forall (fun c => is_formatting c = false /\ c <> 91%N /\ c <> 10%N) text ->
   stripMarkdown text = text).
Proof.
  rewrite stripMarkdown_steps. split.
  - pose proof (pause_length
                  (replace_all re_link [Group1] (drop_formatting text)) false).
    pose proof (links_reduced_length (replace_links (drop_formatting text))).
    pose proof (filter_length_le (fun c => negb (is_formatting c)) text).
    unfold drop_formatting in *. lia.
  - intros Hplain. rewrite Forall_forall in Hplain.
    assert (Hdrop : drop_formatting text = text).
    { apply filter_keeps_all. apply Forall_forall. intros c Hc.
      destruct (Hplain _ Hc) as (-> & _). reflexivity. }
    rewrite Hdrop, replace_links_plain, pause_plain; [reflexivity| |].
    + intros Hin. now destruct (Hplain _ Hin) as (_ & _ & H10).
    + intros Hin. now destruct (Hplain _ Hin) as (_ & H91 & _).
Qed.

End StrippedText.

(* ================================================================= *)
(** ** The chat transcript: streamed replies and ignored sends *)

Section ChatStreaming.
Import Js DreamChat Situations.

Lemma set_last_text_last (before : list ChatMessage) (m : ChatMessage)
      (t : jsstring) :
  set_last_text (before ++ [m]) t = before ++ [mkMessage (msg_role m) t].
Proof.
  unfold set_last_text. rewrite rev_app_distr. cbn [rev app].
  now rewrite rev_involutive.
Qed.

(** The loop over a run of chunks: the last turn holds the accumulated
    text after each of them. *)
Lemma consume_chunks (ts : list (option jsstring)) (tail : list stream_event)
      (before : list ChatMessage) (r : role) :
  forall (fullResponse : jsstring) (delivered : nat),
    consume (map Chunk ts ++ tail) fullResponse
            (before ++ [mkMessage r fullResponse]) delivered
    = consume tail (fullResponse ++ concat (map text_or_empty ts))
              (before ++ [mkMessage r (fullResponse
                                         ++ concat (map text_or_empty ts))])
              (delivered + length ts).
Proof.
  induction ts as [|t ts IH]; intros fullResponse delivered.
  - cbn [map app concat length]. now rewrite app_nil_r, Nat.add_0_r.
  - cbn [map app concat length consume].
    rewrite set_last_text_last. cbn [msg_role].
    rewrite IH, <- app_assoc. f_equal. lia.
Qed.

Lemma consume_length (stream : list stream_event) :
  forall fullResponse history delivered,
    history <> [] ->
    length (fst (fst (consume stream fullResponse history delivered)))
    = length history.
Proof.
  induction stream as [|[t|] rest IH]; intros fullResponse history delivered Hne;
    cbn [consume fst]; try reflexivity.
  destruct (exists_last Hne) as (before & m & ->).
  rewrite IH, set_last_text_last.
  - now rewrite !length_app.
  - rewrite set_last_text_last. now destruct before.
Qed.

Lemma trim_start_blank (s : jsstring) :
  trim_start s = [] <-> Forall (fun c => is_js_whitespace c = true) s.
Proof.
  induction s as [|c s IH]; cbn [trim_start].
  - split; [constructor | reflexivity].
  - destruct (is_js_whitespace c) eqn:Hc.
    + rewrite IH. split; [now constructor | now inversion 1].
    + split; [discriminate | inversion 1; congruence].
Qed.

Lemma trim_start_suffix (s : jsstring) :
  exists blank, s = blank ++ trim_start s /\
                Forall (fun c => is_js_whitespace c = true) blank.
Proof.
  induction s as [|c s (blank & IH & Hblank)]; cbn [trim_start].
  - exists []. split; [reflexivity | constructor].
  - destruct (is_js_whitespace c) eqn:Hc.
    + exists (c :: blank). split; [cbn [app]; now f_equal | now constructor].
    + exists []. split; [reflexivity | constructor].
Qed.

Lemma trim_blank (s : jsstring) :
  trim s = [] <-> Forall (fun c => is_js_whitespace c = true) s.
Proof.
  unfold trim. split.
  - intros H. apply (f_equal (@rev N)) in H. rewrite rev_involutive in H.
    cbn [rev] in H. apply trim_start_blank in H.
    assert (Hs : Forall (fun c => is_js_whitespace c = true) (trim_start s)).
    { rewrite <- (rev_involutive (trim_start s)). now apply Forall_rev. }
    destruct (trim_start_suffix s) as (blank & Heq & Hblank).
    rewrite Heq. apply Forall_app. now split.
  - intros H. apply trim_start_blank in H. now rewrite H.
Qed.

(** X10: when the stream delivers its chunks without failing, the send
    adds exactly two turns to the transcript: the trimmed input as a user
    turn, and one model turn holding the chunk texts concatenated in
    order (a chunk without text adds nothing).  The input box is cleared,
    the loading flag is off, nothing is logged, and one increment was
    delivered per chunk. *)
Theorem handleSend_streams_reply (ts : list (option jsstring)) (st : Chat) :
  sendable st ->
  handleSend (Resolved (map Chunk ts)) st
  = (mkChat (messages st
               ++ [mkMessage user (trim (input st));
                   mkMessage model (concat (map text_or_empty ts))])
            [] false true (console_errors st),
     length ts).
Proof.
  intros [Hinput Hsession]. unfold handleSend. rewrite Hsession.
  destruct (trim (input st)) as [|c r] eqn:Htrim; [congruence|].
  pose proof (consume_chunks ts [] (messages st ++ [mkMessage user (c :: r)])
                             model [] 0) as Hloop.
  rewrite app_nil_r in Hloop. rewrite Hloop. cbn [consume app Nat.add].
  now rewrite <- app_assoc.
Qed.

Lemma handleSend_streams_reply_witness :
  handleSend (Resolved (map Chunk [Some (js "Wa"); None; Some (js "ter")]))
             hello_typed
  = (mkChat (messages hello_typed
               ++ [mkMessage user (trim (input hello_typed));
                   mkMessage model
                     (concat (map text_or_empty
                                  [Some (js "Wa"); None; Some (js "ter")]))])
            [] false true (console_errors hello_typed),
     length [Some (js "Wa"); None; Some (js "ter")]).
Proof.
  apply (@handleSend_streams_reply
           [Some (js "Wa"); None; Some (js "ter")] hello_typed).
  split; [vm_compute; discriminate | reflexivity].
Defined.

(** X11: when the stream fails after some chunks, the text received so
    far stays in the transcript as a model turn and the apology follows
    it as a further model turn; the failure is logged once, and what the
    stream would have produced after the failure plays no part. *)
Theorem handleSend_keeps_partial_reply
        (ts : list (option jsstring)) (rest : list stream_event) (st : Chat) :
  sendable st ->
  handleSend (Resolved (map Chunk ts ++ StreamError :: rest)) st
  = (mkChat (messages st
               ++ [mkMessage user (trim (input st));
                   mkMessage model (concat (map text_or_empty ts));
                   mkMessage model apology])
            [] false true (S (console_errors st)),
     length ts).
Proof.
  intros [Hinput Hsession]. unfold handleSend. rewrite Hsession.
  destruct (trim (input st)) as [|c r] eqn:Htrim; [congruence|].
  rewrite (consume_chunks ts (StreamError :: rest)
             (messages st ++ [mkMessage user (c :: r)]) model [] 0).
  cbn [consume app Nat.add]. now rewrite <- !app_assoc.
Qed.

Lemma handleSend_keeps_partial_reply_witness :
  handleSend (Resolved (map Chunk [Some (js "Wa")]
                          ++ StreamError :: [Chunk (Some (js "ter"))]))
             hello_typed
  = (mkChat (messages hello_typed
               ++ [mkMessage user (trim (input hello_typed));
                   mkMessage model (concat (map text_or_empty [Some (js "Wa")]));
                   mkMessage model apology])
            [] false true (S (console_errors hello_typed)),
     length [Some (js "Wa")]).
Proof.
  apply (@handleSend_keeps_partial_reply
           [Some (js "Wa")] [Chunk (Some (js "ter"))] hello_typed).
  split; [vm_compute; discriminate | reflexivity].
Defined.

(** X12: a send is ignored, leaving the chat as it was and reaching no
    transport, exactly when the input holds nothing but white space or no
    session is open. *)
Theorem handleSend_ignores_blank_input (t : send_result) (st : Chat) :
  handleSend t st = (st, 0%nat) <->
  (Forall (fun c => is_js_whitespace c = true) (input st) \/
   chatSession st = false).
Proof.
  split.
  - intros Hsame.
    destruct (chatSession st) eqn:Hsession; [|now right]. left.
    apply trim_blank.
    destruct (trim (input st)) as [|c r] eqn:Htrim; [reflexivity|]. exfalso.
    assert (Hlen : length (messages (fst (handleSend t st)))
                   = length (messages st)) by now rewrite Hsame.
    revert Hlen. unfold handleSend. rewrite Htrim, Hsession.
    destruct t as [|stream].
    + cbn [fst messages]. rewrite !length_app. cbn [length]. lia.
    + pose proof (@consume_length stream []
                    ((messages st ++ [mkMessage user (c :: r)])
                       ++ [mkMessage model []]) 0) as Hkeep.
      destruct (consume stream [] _ 0) as [[history' delivered] failed].
      cbn [fst] in Hkeep.
      assert (Hl : length history' = (length (messages st) + 2)%nat).
      { rewrite Hkeep.
        - rewrite !length_app. cbn [length]. lia.
        - intros H. apply app_eq_nil in H. destruct H as [_ H]. discriminate. }
      destruct failed; cbn [fst messages]; rewrite ?length_app; cbn [length];
        lia.
  - intros [Hblank | Hsession]; unfold handleSend.
    + apply trim_blank in Hblank. now rewrite Hblank.
    + rewrite Hsession. now destruct (trim (input st)).
Qed.

End ChatStreaming.

(* ================================================================= *)
(** ** The remote calls, and the cycle of App running on them *)

Section Services.
Import Js Base64 GeminiRemote App.

Lemma first_inline_image_none (parts : list Part) :
  Forall (fun p => inlineData p = None) parts ->
  first_inline_image parts = None.
Proof.
  induction 1 as [|p parts Hp _ IH]; cbn [first_inline_image];
    [reflexivity | now rewrite Hp].
Qed.

Lemma first_inline_image_skips (skipped rest : list Part) (p : Part)
      (inline : InlineData) :
  Forall (fun p => inlineData p = None) skipped ->
  inlineData p = Some inline ->
  first_inline_image (skipped ++ p :: rest)
  = Some (js "data:image/png;base64," ++ template (data inline)).
Proof.
  intros Hskip Hp.
  induction Hskip as [|q skipped Hq _ IH]; cbn [app first_inline_image].
  - now rewrite Hp.
  - now rewrite Hq.
Qed.

Lemma first_inline_image_found (parts : list Part) (url : jsstring) :
  first_inline_image parts = Some url ->
  exists skipped p rest inline,
    parts = skipped ++ p :: rest /\
    Forall (fun p => inlineData p = None) skipped /\
    inlineData p = Some inline /\
    url = js "data:image/png;base64," ++ template (data inline).
Proof.
  induction parts as [|q parts IH]; cbn [first_inline_image]; [discriminate|].
  destruct (inlineData q) as [inline|] eqn:Hq.
  - intros [= <-]. exists [], q, parts, inline. repeat split; auto.
  - intros Hfound.
    destruct (IH Hfound) as (skipped & p & rest & inline & -> & Hs & Hp & Hu).
    exists (q :: skipped), p, rest, inline. repeat split; auto.
Qed.

(** X13: [generateDreamImage] answers with the PNG data URL of the first
    part that carries inline data, skipping the parts before it that
    carry none; it rejects with "No image generated." exactly when the
    model answered and no part carries inline data (or the answer has no
    parts at all), and passes a rejection of the model on unchanged. *)
Theorem generateDreamImage_first_image
        (remote : jsstring -> ImageSize -> outcome (option (list Part)))
        (prompt : jsstring) (size : ImageSize) :
  (forall err, remote prompt size = Rejects err ->
               generateDreamImage remote prompt size = Rejects err) /\
  (forall skipped p rest inline,
      remote prompt size = Resolves (Some (skipped ++ p :: rest)) ->
      Forall (fun p => inlineData p = None) skipped ->
      inlineData p = Some inline ->
      generateDreamImage remote prompt size
      = Resolves (js "data:image/png;base64," ++ template (data inline))) /\
  (forall parts,
      remote prompt size = Resolves parts ->
      (generateDreamImage remote prompt size
       = Rejects (mkThrown (Some (js "No image generated.")))
       <-> Forall (fun p => inlineData p = None)
                  (match parts with Some l => l | None => [] end))).
Proof.
  unfold generateDreamImage. split; [|split].
  - intros err ->. reflexivity.
  - intros skipped p rest inline -> Hskip Hp.
    now rewrite (@first_inline_image_skips skipped rest p inline Hskip Hp).
  - intros parts ->. split.
    + destruct (first_inline_image _) as [url|] eqn:Hfound; [discriminate|].
      intros _. apply Forall_forall. intros q Hq.
      destruct (inlineData q) as [inline|] eqn:Hinline; [|reflexivity].
      exfalso. apply in_split in Hq. destruct Hq as (l1 & l2 & Heq).
      revert Hfound. rewrite Heq. clear Heq.
      induction l1 as [|a l1 IH]; cbn [app first_inline_image].
      * now rewrite Hinline.
      * destruct (inlineData a); [discriminate | exact IH].
    + intros Hnone. now rewrite (@first_inline_image_none _ Hnone).
Qed.

Lemma upload_is_recording
      (media : jsstring) (remote : AudioPart -> outcome (option jsstring))
      (JSON_parse : jsstring -> option DreamAnalysisResult)
      (audioBlob : DreamRecorder.Blob) :
  ~ In 44%N media ->
  analyzeDreamAudio false media remote JSON_parse audioBlob
  = match remote (mkAudioPart (mime_or_default audioBlob)
                    (Some (base64_encode (DreamRecorder.blob_bytes audioBlob))))
    with
    | Rejects err => Rejects err
    | Resolves (Some (c :: jsonText)) =>
        match JSON_parse (c :: jsonText) with
        | Some result => Resolves result
        | None =>
            Rejects (mkThrown (Some (js "Invalid response format from AI.")))
        end
    | Resolves _ =>
        Rejects (mkThrown (Some (js "Failed to generate analysis JSON.")))
    end.
Proof.
  intros Hmedia. unfold analyzeDreamAudio.
  assert (Hread : blobToBase64 false media audioBlob
                  = Resolves
                      (Some (base64_encode (DreamRecorder.blob_bytes audioBlob)))).
  { unfold blobToBase64, readAsDataURL.
    change (js ";base64,") with (js ";base64" ++ [44%N]).
    assert (Hshape : js "data:" ++ media ++ (js ";base64" ++ [44%N])
                       ++ base64_encode (DreamRecorder.blob_bytes audioBlob)
                     = (js "data:" ++ media ++ js ";base64")
                         ++ 44%N
                         :: base64_encode (DreamRecorder.blob_bytes audioBlob)).
    { rewrite <- !app_assoc. reflexivity. }
    rewrite Hshape, split_comma_first.
    - rewrite split_comma_plain; [reflexivity|].
      intros Hin. now destruct (encode_plain _ _ Hin) as [_ Hc].
    - intros Hin. apply in_app_or in Hin. destruct Hin as [Hin | Hin].
      + cbn in Hin. intuition discriminate.
      + apply in_app_or in Hin. destruct Hin as [Hin | Hin]; [auto|].
        cbn in Hin. intuition discriminate. }
  now rewrite Hread.
Qed.

(** X14: what the analysis model receives is the recording itself: the
    base64 text of the blob's bytes, which decodes back to them, labelled
    with the blob's type, or "audio/webm" when the blob has none.  Its
    answer is parsed when it is a non-empty text; an absent or empty text
    is rejected with "Failed to generate analysis JSON.", a text that does
    not parse with "Invalid response format from AI.", and a rejection of
    the model is passed on unchanged. *)
Theorem analyzeDreamAudio_uploads_recording
        (media : jsstring) (remote : AudioPart -> outcome (option jsstring))
        (JSON_parse : jsstring -> option DreamAnalysisResult)
        (audioBlob : DreamRecorder.Blob) :
  ~ In 44%N media ->
  let bytes := DreamRecorder.blob_bytes audioBlob in
  let part := mkAudioPart (mime_or_default audioBlob)
                          (Some (base64_encode bytes)) in
  Js.atob (base64_encode bytes) = Normal (map Byte.to_N bytes) /\
  (DreamRecorder.blob_type audioBlob = [] -> mimeType part = js "audio/webm") /\
  (DreamRecorder.blob_type audioBlob <> [] ->
   mimeType part = DreamRecorder.blob_type audioBlob) /\
  (forall err, remote part = Rejects err ->
     analyzeDreamAudio false media remote JSON_parse audioBlob = Rejects err) /\
  (forall t, remote part = Resolves t -> t = None \/ t = Some [] ->
     analyzeDreamAudio false media remote JSON_parse audioBlob
     = Rejects (mkThrown (Some (js "Failed to generate analysis JSON.")))) /\
  (forall t, remote part = Resolves (Some t) -> t <> [] ->
     JSON_parse t = None ->
     analyzeDreamAudio false media remote JSON_parse audioBlob
     = Rejects (mkThrown (Some (js "Invalid response format from AI.")))) /\
  (forall t result, remote part = Resolves (Some t) -> t <> [] ->
     JSON_parse t = Some result ->
     analyzeDreamAudio false media remote JSON_parse audioBlob
     = Resolves result).
Proof.
  intros Hmedia bytes part. subst bytes part.
  rewrite (@upload_is_recording media remote JSON_parse audioBlob Hmedia).
  split; [apply atob_encode|].
  split; [intros Ht; unfold mime_or_default; cbn; now rewrite Ht|].
  split.
  { intros Ht. unfold mime_or_default. cbn.
    now destruct (DreamRecorder.blob_type audioBlob). }
  split; [intros err ->; reflexivity|].
  split; [intros t -> [-> | ->]; reflexivity|].
  split.
  - intros [|c t] -> Hne Hparse; [congruence|]. now rewrite Hparse.
  - intros [|c t] result -> Hne Hparse; [congruence|]. now rewrite Hparse.
Qed.

Variable media : jsstring.
Variable remote : AudioPart -> outcome (option jsstring).
Variable JSON_parse : jsstring -> option DreamAnalysisResult.
Variable image_remote : jsstring -> ImageSize -> outcome (option (list Part)).
Variable now : N.
Variable audioBlob : DreamRecorder.Blob.
Variable size : ImageSize.
Variable st : State.

(** X15: a recording that cannot be read ends the cycle with the fixed
    fallback message, not with a message of its own: the reader's error
    event carries none.  Neither model is consulted, the stored dream is
    kept and the processing flag is cleared. *)
Theorem unreadable_recording_shows_fallback :
  final st (handleProcessDream
              (analyzeDreamAudio true media remote JSON_parse)
              (generateDreamImage image_remote) now audioBlob size st)
  = mkState false (Some fallback_message) (dreamData st) [] /\
  forall remote' JSON_parse' image_remote',
    handleProcessDream
      (analyzeDreamAudio true media remote' JSON_parse')
      (generateDreamImage image_remote') now audioBlob size st
    = handleProcessDream
        (analyzeDreamAudio true media remote JSON_parse)
        (generateDreamImage image_remote) now audioBlob size st.
Proof.
  split; reflexivity.
Qed.

(** X16: when the recording is read, the analysis model answers with a
    text that parses, and the image model answers with parts of which one
    carries inline data, the cycle ends with the dream stored: the
    analysis's transcript, interpretation and image prompt, the data URL
    of the first inline image, asked for with that prompt and the chosen
    size, and the time of completion.  No error is shown, the processing
    flag is set in every earlier state of the cycle and cleared in the
    last, and a reset then gives the initial state of the application. *)
Theorem successful_cycle_stores_dream
        (t : jsstring) (analysis : DreamAnalysisResult)
        (parts : list Part) (url : jsstring) :
  ~ In 44%N media ->
  remote (mkAudioPart (mime_or_default audioBlob)
            (Some (base64_encode (DreamRecorder.blob_bytes audioBlob))))
  = Resolves (Some t) ->
  t <> [] ->
  JSON_parse t = Some analysis ->
  image_remote (a_imagePrompt analysis) size = Resolves (Some parts) ->
  first_inline_image parts = Some url ->
  let trace := handleProcessDream
                 (analyzeDreamAudio false media remote JSON_parse)
                 (generateDreamImage image_remote) now audioBlob size st in
  final st trace
  = mkState false None
      (Some (mkDreamData (a_transcript analysis) (a_interpretation analysis)
               url (a_imagePrompt analysis) now)) [] /\
  (forall s, In s (removelast trace) ->
             isProcessing s = true /\ error s = None) /\
  handleReset (final st trace) = initial.
Proof.
  intros Hmedia Hremote Hne Hparse Himage Hurl trace. subst trace.
  unfold handleProcessDream.
  rewrite (@upload_is_recording media remote JSON_parse audioBlob Hmedia),
    Hremote.
  destruct t as [|c t]; [congruence|]. rewrite Hparse.
  unfold generateDreamImage. rewrite Himage, Hurl.
  split; [reflexivity|]. split; [|reflexivity].
  cbn [removelast]. intros s [<- | [<- | [<- | []]]]; split; reflexivity.
Qed.

End Services.

Section ServicesExamples.
Import Js Base64 GeminiRemote App.

Lemma analyzeDreamAudio_uploads_recording_witness :
  let media := js "audio/webm" in
  let remote := fun _ : AudioPart => Resolves (Some (js "{}")) in
  let JSON_parse :=
    fun _ : jsstring => Some (mkAnalysis (js "t") (js "i") (js "p")) in
  let audioBlob := DreamRecorder.mkBlob [x01; x02; x03] [] in
  let bytes := DreamRecorder.blob_bytes audioBlob in
  let part := mkAudioPart (mime_or_default audioBlob)
                          (Some (base64_encode bytes)) in
  Js.atob (base64_encode bytes) = Normal (map Byte.to_N bytes) /\
  (DreamRecorder.blob_type audioBlob = [] -> mimeType part = js "audio/webm") /\
  (DreamRecorder.blob_type audioBlob <> [] ->
   mimeType part = DreamRecorder.blob_type audioBlob) /\
  (forall err, remote part = Rejects err ->
     analyzeDreamAudio false media remote JSON_parse audioBlob = Rejects err) /\
  (forall t, remote part = Resolves t -> t = None \/ t = Some [] ->
     analyzeDreamAudio false media remote JSON_parse audioBlob
     = Rejects (mkThrown (Some (js "Failed to generate analysis JSON.")))) /\
  (forall t, remote part = Resolves (Some t) -> t <> [] ->
     JSON_parse t = None ->
     analyzeDreamAudio false media remote JSON_parse audioBlob
     = Rejects (mkThrown (Some (js "Invalid response format from AI.")))) /\
  (forall t result, remote part = Resolves (Some t) -> t <> [] ->
     JSON_parse t = Some result ->
     analyzeDreamAudio false media remote JSON_parse audioBlob
     = Resolves result).
Proof.
  apply (@analyzeDreamAudio_uploads_recording (js "audio/webm")
           (fun _ : AudioPart => Resolves (Some (js "{}")))
           (fun _ : jsstring => Some (mkAnalysis (js "t") (js "i") (js "p")))
           (DreamRecorder.mkBlob [x01; x02; x03] [])).
  cbn. intuition discriminate.
Defined.

Lemma successful_cycle_stores_dream_witness :
  let media := js "audio/webm" in
  let analysis := mkAnalysis (js "t") (js "i") (js "p") in
  let remote := fun _ : AudioPart => Resolves (Some (js "{}")) in
  let JSON_parse := fun _ : jsstring => Some analysis in
  let parts := [mkPart None (Some (js "here"));
                mkPart (Some (mkInlineData (Some (js "AQID")))) None] in
  let image_remote :=
    fun (_ : jsstring) (_ : ImageSize) => Resolves (Some parts) in
  let audioBlob := DreamRecorder.mkBlob [x01; x02; x03] (js "audio/webm") in
  let trace := handleProcessDream
                 (analyzeDreamAudio false media remote JSON_parse)
                 (generateDreamImage image_remote) 7 audioBlob Size2K
                 initial in
  final initial trace
  = mkState false None
      (Some (mkDreamData (a_transcript analysis) (a_interpretation analysis)
               (js "data:image/png;base64,AQID") (a_imagePrompt analysis) 7))
      [] /\
  (forall s, In s (removelast trace) ->
             isProcessing s = true /\ error s = None) /\
  handleReset (final initial trace) = initial.
Proof.
  apply (@successful_cycle_stores_dream (js "audio/webm")
           (fun _ : AudioPart => Resolves (Some (js "{}")))
           (fun _ : jsstring => Some (mkAnalysis (js "t") (js "i") (js "p")))
           (fun (_ : jsstring) (_ : ImageSize) =>
              Resolves (Some [mkPart None (Some (js "here"));
                              mkPart (Some (mkInlineData (Some (js "AQID"))))
                                     None]))
           7%N
           (DreamRecorder.mkBlob [x01; x02; x03] (js "audio/webm"))
           Size2K initial (js "{}")
           (mkAnalysis (js "t") (js "i") (js "p"))
           [mkPart None (Some (js "here"));
            mkPart (Some (mkInlineData (Some (js "AQID")))) None]
           (js "data:image/png;base64,AQID")).
  - cbn. intuition discriminate.
  - reflexivity.
  - discriminate.
  - reflexivity.
  - reflexivity.
  - reflexivity.
Defined.

End ServicesExamples.

(* ================================================================= *)
(** ** The speech button of DreamAnalysis *)

Section SpeechButton.
Import Js WebAudio GeminiService Situations DreamAnalysis.
Variable pf : Platform.
Variable tts : jsstring -> completion (option jsstring).
Variable interpretation : jsstring.

(** X17: when the audio is generated and its playback starts, a click
    on the idle button leaves the button in its playing state, holding
    the stop function, with the source sounding.  A second click then
    stops the source, closes the context and drops the stop function; so
    does the end of the source, through the callback; and unmounting
    the component while it plays releases the audio as well.  After a
    stop click or the end of the source, unmounting calls nothing. *)
Theorem play_then_stop_releases
        (p : Player) (base64Audio : jsstring) (w : Playback) :
  isPlayingAudio p = false ->
  generateDreamSpeech tts interpretation = Normal base64Audio ->
  playDreamSpeech pf base64Audio = (w, Normal StopPlayback) ->
  let playing := handlePlayInterpretation pf tts interpretation p in
  let stopped := handlePlayInterpretation pf tts interpretation playing in
  let ended := source_ended playing in
  playing = mkPlayer true false (Some StopPlayback) (alerts p)
              (errors_logged p) w /\
  sounding w /\
  (isPlayingAudio stopped = false /\ stopAudioRef stopped = None /\
   released (playback stopped) /\ source (playback stopped) = Finished /\
   unmount pf stopped = stopped) /\
  (isPlayingAudio ended = false /\ stopAudioRef ended = None /\
   released (playback ended) /\ source (playback ended) = Finished /\
   unmount pf ended = ended) /\
  released (playback (unmount pf playing)).
Proof.
  intros Hidle Hspeech Hplay playing stopped ended.
  destruct (playDreamSpeech_cases _ _ Hplay) as [[_ Hs] | [Hno _]];
    [|discriminate].
  assert (Hzero : onEnded_calls w = 0%nat).
  { revert Hplay. unfold playDreamSpeech.
    destruct (new_AudioContext_throws pf); [discriminate|].
    unfold play_body, mbind, lift, guard, modify, ret.
    destruct (decodeBase64 base64Audio); [|discriminate].
    destruct (decodePCM _ _ _ _); [|discriminate].
    destruct (createBufferSource_throws pf); [discriminate|].
    destruct (connect_throws pf); [discriminate|].
    destruct (start_throws pf); [discriminate|].
    intros [= <-]. reflexivity. }
  assert (Hplaying : playing = mkPlayer true false (Some StopPlayback)
                                 (alerts p) (errors_logged p) w).
  { subst playing. unfold handlePlayInterpretation.
    rewrite Hidle, Hspeech, Hplay, Hzero. reflexivity. }
  split; [exact Hplaying|]. split; [exact Hs|].
  destruct (sounding_stopped pf Hs) as (w' & Hstop & Hrel).
  assert (Hfin : source w' = Finished).
  { revert Hstop. cbn [call_stop]. unfold source_stop.
    destruct Hs as (_ & _ & Hsrc & _). rewrite Hsrc. cbn [bind try_catch].
    intros [= <-]. now rewrite ctx_close_source. }
  split; [|split].
  - subst stopped. rewrite Hplaying. unfold handlePlayInterpretation.
    cbn [isPlayingAudio stopAudioRef playback]. rewrite Hstop.
    repeat split; try assumption; apply Hrel.
  - subst ended. rewrite Hplaying. unfold source_ended.
    cbn [playback]. destruct Hs as (Hc & Hr & Hsrc & Hset). rewrite Hset.
    cbn [onEnded isPlayingAudio stopAudioRef playback isLoadingAudio alerts
         errors_logged].
    repeat split; try (apply sounding_ended; repeat split; assumption).
    apply fire_ended_finished.
  - rewrite Hplaying. unfold unmount. cbn [stopAudioRef playback].
    rewrite Hstop. exact Hrel.
Qed.

(** X18: when a step inside the [try] of [playDreamSpeech] fails, the
    callback runs before the stop function is stored, so the click
    leaves the button in its playing state although nothing sounds: the
    context is closed and the stored stop function is the empty one.  No
    alert is shown.  The next click only puts the button back. *)
Theorem failed_playback_shows_playing
        (p : Player) (base64Audio : jsstring) (w : Playback) :
  isPlayingAudio p = false ->
  generateDreamSpeech tts interpretation = Normal base64Audio ->
  playDreamSpeech pf base64Audio = (w, Normal StopNothing) ->
  let clicked := handlePlayInterpretation pf tts interpretation p in
  clicked = mkPlayer true false (Some StopNothing) (alerts p)
              (errors_logged p) w /\
  onEnded_calls w = 1%nat /\
  ctx_state w = Some ContextClosed /\
  source w <> Playing /\
  handlePlayInterpretation pf tts interpretation clicked
  = mkPlayer false false None (alerts p) (errors_logged p) w.
Proof.
  intros Hidle Hspeech Hplay clicked.
  destruct (playDreamSpeech_cases _ _ Hplay)
    as [[Hno _] | (_ & (Hc & _ & Hsrc) & Hcalls)]; [discriminate|].
  assert (Hclicked : clicked = mkPlayer true false (Some StopNothing)
                                 (alerts p) (errors_logged p) w).
  { subst clicked. unfold handlePlayInterpretation.
    rewrite Hidle, Hspeech, Hplay, Hcalls. reflexivity. }
  split; [exact Hclicked|]. repeat split; try assumption.
  rewrite Hclicked. reflexivity.
Qed.

(** X19: when no audio can be had, because speech synthesis rejects or
    answers without audio, or because the audio context cannot be
    constructed, a click on the idle button shows one alert, logs one
    error, and leaves the button idle and enabled, with no stop function
    stored by this click. *)
Theorem speech_failure_alerts (p : Player) :
  isPlayingAudio p = false ->
  (forall e, tts (safeText interpretation) = Throw e ->
     handlePlayInterpretation pf tts interpretation p
     = mkPlayer false false (stopAudioRef p) (S (alerts p))
         (S (errors_logged p)) (playback p)) /\
  (forall a, tts (safeText interpretation) = Normal a ->
     a = None \/ a = Some [] ->
     generateDreamSpeech tts interpretation
     = Throw (Error (js "No audio generated.")) /\
     handlePlayInterpretation pf tts interpretation p
     = mkPlayer false false (stopAudioRef p) (S (alerts p))
         (S (errors_logged p)) (playback p)) /\
  (forall base64Audio e,
     generateDreamSpeech tts interpretation = Normal base64Audio ->
     new_AudioContext_throws pf = Some e ->
     handlePlayInterpretation pf tts interpretation p
     = mkPlayer false false (stopAudioRef p) (S (alerts p))
         (S (errors_logged p)) no_playback).
Proof.
  intros Hidle. unfold handlePlayInterpretation, generateDreamSpeech.
  rewrite Hidle. split; [|split].
  - intros e ->. reflexivity.
  - intros a -> [-> | ->]; split; reflexivity.
  - intros base64Audio e -> Hctx. unfold playDreamSpeech. rewrite Hctx.
    reflexivity.
Qed.

End SpeechButton.

Section SpeechButtonExamples.
Import Js WebAudio GeminiService Situations DreamAnalysis.

Lemma play_then_stop_releases_witness :
  let tts := fun _ : jsstring => Normal (Some (js "AQIDBA==")) in
  let w := fst (playDreamSpeech healthy (js "AQIDBA==")) in
  let playing := handlePlayInterpretation healthy tts (js "a dream") initial in
  let stopped := handlePlayInterpretation healthy tts (js "a dream") playing in
  let ended := source_ended playing in
  playing = mkPlayer true false (Some StopPlayback) (alerts initial)
              (errors_logged initial) w /\
  sounding w /\
  (isPlayingAudio stopped = false /\ stopAudioRef stopped = None /\
   released (playback stopped) /\ source (playback stopped) = Finished /\
   unmount healthy stopped = stopped) /\
  (isPlayingAudio ended = false /\ stopAudioRef ended = None /\
   released (playback ended) /\ source (playback ended) = Finished /\
   unmount healthy ended = ended) /\
  released (playback (unmount healthy playing)).
Proof.
  apply (@play_then_stop_releases healthy
           (fun _ : jsstring => Normal (Some (js "AQIDBA==")))
           (js "a dream") initial (js "AQIDBA==")
           (fst (playDreamSpeech healthy (js "AQIDBA==")))).
  - reflexivity.
  - vm_compute. reflexivity.
  - vm_compute. reflexivity.
Defined.

Lemma failed_playback_shows_playing_witness :
  let tts := fun _ : jsstring => Normal (Some (js "A")) in
  let w := fst (playDreamSpeech healthy (js "A")) in
  let clicked := handlePlayInterpretation healthy tts (js "a dream") initial in
  clicked = mkPlayer true false (Some StopNothing) (alerts initial)
              (errors_logged initial) w /\
  onEnded_calls w = 1%nat /\
  ctx_state w = Some ContextClosed /\
  source w <> Playing /\
  handlePlayInterpretation healthy tts (js "a dream") clicked
  = mkPlayer false false None (alerts initial) (errors_logged initial) w.
Proof.
  apply (@failed_playback_shows_playing healthy
           (fun _ : jsstring => Normal (Some (js "A")))
           (js "a dream") initial (js "A")
           (fst (playDreamSpeech healthy (js "A")))).
  - reflexivity.
  - vm_compute. reflexivity.
  - vm_compute. reflexivity.
Defined.

Lemma speech_failure_alerts_witness :
  let tts := fun _ : jsstring => Normal (@None jsstring) in
  (forall e, tts (safeText (js "a dream")) = Throw e ->
     handlePlayInterpretation healthy tts (js "a dream") initial
     = mkPlayer false false (stopAudioRef initial) (S (alerts initial))
         (S (errors_logged initial)) (playback initial)) /\
  (forall a, tts (safeText (js "a dream")) = Normal a ->
     a = None \/ a = Some [] ->
     generateDreamSpeech tts (js "a dream")
     = Throw (Error (js "No audio generated.")) /\
     handlePlayInterpretation healthy tts (js "a dream") initial
     = mkPlayer false false (stopAudioRef initial) (S (alerts initial))
         (S (errors_logged initial)) (playback initial)) /\
  (forall base64Audio e,
     generateDreamSpeech tts (js "a dream") = Normal base64Audio ->
     new_AudioContext_throws healthy = Some e ->
     handlePlayInterpretation healthy tts (js "a dream") initial
     = mkPlayer false false (stopAudioRef initial) (S (alerts initial))
         (S (errors_logged initial)) no_playback).
Proof.
  apply (@speech_failure_alerts healthy
           (fun _ : jsstring => Normal (@None jsstring))
           (js "a dream") initial).
  reflexivity.
Defined.

End SpeechButtonExamples.

(* ================================================================= *)
(** ** The elapsed time shown while recording *)

Section ElapsedTime.
Import Js RecorderDisplay.

Lemma numeral_digits (u : Decimal.uint) : numeral (digits u) = Some u.
Proof.
  induction u as [|u IH|u IH|u IH|u IH|u IH|u IH|u IH|u IH|u IH|u IH];
    cbn [digits numeral]; [reflexivity | ..]; now rewrite IH.
Qed.

Lemma digits_are_digits (u : Decimal.uint) :
  Forall (fun c => (48 <= c <= 57)%N) (digits u).
Proof.
  induction u as [|u IH|u IH|u IH|u IH|u IH|u IH|u IH|u IH|u IH|u IH];
    cbn [digits]; constructor; try exact IH; lia.
Qed.

Lemma to_uint_digit (n : N) : digits (N.to_uint n) <> [].
Proof.
  destruct n as [|p]; cbn [N.to_uint digits]; [discriminate|].
  pose proof (DecimalPos.Unsigned.to_uint_nonnil p) as Hp.
  destruct (Pos.to_uint p); cbn [digits]; congruence.
Qed.

Lemma toString_value (n : N) : decimal_value (toString n) = Some n.
Proof.
  unfold decimal_value, toString.
  pose proof (to_uint_digit n) as Hne.
  destruct (digits (N.to_uint n)) as [|c s] eqn:Hd; [congruence|].
  rewrite <- Hd, numeral_digits. cbn [option_map].
  now rewrite DecimalN.Unsigned.of_to.
Qed.

Lemma seconds_field (n : nat) :
  (n < 60)%nat ->
  length (padStart (toString (N.of_nat n)) 2 48) = 2%nat /\
  decimal_value (padStart (toString (N.of_nat n)) 2 48) = Some (N.of_nat n).
Proof.
  intros Hn.
  do 60 (destruct n as [|n]; [split; reflexivity|]). lia.
Qed.

(** X20: for a recording time below 2^53 seconds, [formatTime] writes
    the whole minutes in decimal, a colon, and the remaining seconds as
    exactly two digits; the text has one colon only, and reading the two
    numbers back gives the recording time: 60 * minutes + seconds. *)
Theorem formatTime_reads_back (seconds : N) :
  (seconds < 2 ^ 53)%N ->
  exists (mins secs : jsstring) (m s : N),
    formatTime seconds = mins ++ 58%N :: secs /\
    ~ In 58%N mins /\ ~ In 58%N secs /\
    length secs = 2%nat /\
    decimal_value mins = Some m /\
    decimal_value secs = Some s /\
    (s < 60)%N /\
    seconds = (60 * m + s)%N.
Proof.
  intros _.
  assert (Hs : (seconds mod 60 < 60)%N) by (apply N.mod_lt; lia).
  destruct (@seconds_field (N.to_nat (seconds mod 60))) as [Hlen Hval]; [lia|].
  rewrite N2Nat.id in Hlen, Hval.
  exists (toString (seconds / 60)), (padStart (toString (seconds mod 60)) 2 48),
    (seconds / 60)%N, (seconds mod 60)%N.
  split; [reflexivity|]. split.
  { intros Hin. unfold toString in Hin.
    pose proof (digits_are_digits (N.to_uint (seconds / 60))) as Hd.
    rewrite Forall_forall in Hd. specialize (Hd _ Hin). lia. }
  split.
  { intros Hin. unfold padStart in Hin. apply in_app_or in Hin.
    destruct Hin as [Hin | Hin].
    - apply repeat_spec in Hin. discriminate.
    - unfold toString in Hin.
      pose proof (digits_are_digits (N.to_uint (seconds mod 60))) as Hd.
      rewrite Forall_forall in Hd. specialize (Hd _ Hin). lia. }
  split; [exact Hlen|]. split; [apply toString_value|].
  split; [exact Hval|]. split; [exact Hs|].
  apply N.div_mod'.
Qed.

Lemma formatTime_reads_back_witness :
  exists (mins secs : jsstring) (m s : N),
    formatTime 125 = mins ++ 58%N :: secs /\
    ~ In 58%N mins /\ ~ In 58%N secs /\
    length secs = 2%nat /\
    decimal_value mins = Some m /\
    decimal_value secs = Some s /\
    (s < 60)%N /\
    125%N = (60 * m + s)%N.
Proof.
  apply (@formatTime_reads_back 125%N). reflexivity.
Defined.

Example formatTime_two_minutes_five : formatTime 125 = js "2:05".
Proof. reflexivity. Qed.

End ElapsedTime.
